(** * School bell scheduler: the schedule-trigger engine

    A shallow embedding of the React application of this repository
    ([App.tsx], [types.ts], [services/geminiService.ts],
    [services/supabaseClient.ts]) and the properties of its trigger engine,
    announcement sequencer, schedule store and start-up loader.

    Layout of the development:
    - data model ([types.ts]) and the constants of [App.tsx];
    - the schedule store: the four mutation handlers and the [nextBell] view;
    - asynchronous code as resumption trees ([Async]), with [try]/[catch]/
      [finally]; [generateAnnouncementAudio], [playAudioFromBase64] and
      [triggerBell] written over them;
    - the component as a transition system over renders: every render has
      its own closures, and the interval callback keeps the closures of the
      render in which its effect last ran;
    - the start-up loader [fetchData];
    - the properties. *)

From Stdlib Require Import String Ascii List ZArith NArith Bool Lia.
From Stdlib Require Import Sorted Permutation RelationClasses DecimalString.
Import ListNotations.

Local Open Scope string_scope.
Local Open Scope list_scope.

Set Implicit Arguments.

(* ================================================================= *)
(** ** Data model ([types.ts]) *)

(** [gender: 'Bapak' | 'Ibu'] *)
Inductive Gender : Type := Bapak | Ibu.

(** [voiceName: 'Puck' | 'Charon' | 'Kore' | 'Fenrir' | 'Zephyr'] *)
Inductive VoiceName : Type := Puck | Charon | Kore | Fenrir | Zephyr.

(** [interface ScheduleItem].  [period] is a JavaScript number; the form
    produces it with [parseInt] from a required number field (lines 533
    and 551), so it is an integer, modelled by its value. *)
Record ScheduleItem : Type := mkScheduleItem {
  id : string;
  period : Z;
  startTime : string;   (* HH:mm format *)
  endTime : string;     (* HH:mm format *)
  teacher : string;
  gender : Gender;
  subject : string;
  className : string;
  isActive : bool
}.

(** [Omit<ScheduleItem, 'id' | 'isActive'>], the argument of
    [handleAddSchedule]. *)
Record NewScheduleItem : Type := mkNewScheduleItem {
  new_period : Z;
  new_startTime : string;
  new_endTime : string;
  new_teacher : string;
  new_gender : Gender;
  new_subject : string;
  new_className : string
}.

(** [interface AppSettings] *)
Record AppSettings : Type := mkAppSettings {
  schoolName : string;
  isAutoEnabled : bool;
  voiceName : VoiceName
}.

(** The object spread [{ ...item, isActive: b }]. *)
Definition withIsActive (b : bool) (item : ScheduleItem) : ScheduleItem :=
  mkScheduleItem (id item) (period item) (startTime item) (endTime item)
                 (teacher item) (gender item) (subject item) (className item) b.

(** [App.tsx], lines 26-32. *)
Definition DEFAULT_SCHEDULE : list ScheduleItem :=
  [ mkScheduleItem "1" 1 "07:00" "07:45" "Budi Santoso" Bapak "Matematika" "X-A" true;
    mkScheduleItem "2" 2 "07:45" "08:30" "Siti Aminah" Ibu "Bahasa Indonesia" "XI-B" true;
    mkScheduleItem "3" 3 "08:30" "09:15" "Siti Aminah" Ibu "Bahasa Indonesia" "XI-B" true;
    mkScheduleItem "4" 4 "09:30" "10:15" "Joko Widodo" Bapak "Fisika" "XII-C" true;
    mkScheduleItem "5" 5 "10:15" "11:00" "Joko Widodo" Bapak "Fisika" "XII-C" true ].

(** [App.tsx], line 34. *)
Definition CHIME_URL : string :=
  "https://assets.mixkit.co/active_storage/sfx/2869/2869-preview.mp3".

(** The initial value of the [settings] state (lines 39-43), also the
    fallback of the loader (lines 93-97). *)
Definition DEFAULT_SETTINGS : AppSettings :=
  mkAppSettings "SMP ISLAM ARRAUDHOH" true Kore.

(* ================================================================= *)
(** ** JavaScript values used by the code *)

(** Truthiness of a string: only the empty string is falsy. *)
Definition truthy (s : string) : bool :=
  match s with EmptyString => false | String _ _ => true end.

(** Truthiness of [string | undefined] (or [string | null]): the usable
    string, if there is one. *)
Definition usable (v : option string) : option string :=
  match v with
  | Some s => if truthy s then Some s else None
  | None => None
  end.

(** [a > b] on strings compares UTF-16 code units lexicographically. *)
Definition gtb (a b : string) : bool := (b <? a)%string.

(** Modelled from the spec: [Number::toString] of ECMAScript (radix 10),
    which the template literal of line 171 applies to [item.period]; it is
    code of the JavaScript engine, not of the repository.  The argument is
    the value of the number, an integer.

    Up to [2^53] every integer is a number and prints as its decimal
    numeral.  Above, the numbers are the integers [m * 2^e] with [m] of 53
    bits, and a number prints with the fewest significant digits that
    still read back as the same number (the candidate nearest to it, the
    even one on a tie), followed by zeros while the numeral has at most 21
    digits, and in exponent notation beyond: [2^64] prints as
    [18446744073709552000] and [10^21] as [1e+21]. *)

(** The decimal numeral of an integer. *)
Definition decimal (n : Z) : string :=
  NilZero.string_of_int (Z.to_int n).

(** The real [v] rounds to the number [x] (to nearest, ties to the even
    significand), for [x] at least [2^53]: a significand [m] of 53 bits,
    scaled by [2^e]. *)
Definition readsBackAs (x v : Z) : bool :=
  let e := (Z.log2 x - 52)%Z in
  let m := Z.shiftr x e in
  (* twice the distance to the midpoints below and above *)
  let below := (if m =? 2 ^ 52 then 2 ^ (e - 1) else 2 ^ e)%Z in
  let above := (2 ^ e)%Z in
  if Z.even m
  then ((2 * x - below <=? 2 * v) && (2 * v <=? 2 * x + above))%Z
  else ((2 * x - below <? 2 * v) && (2 * v <? 2 * x + above))%Z.

(** The integers [s] and [n] of [Number::toString]: [s] has [k] digits,
    [s * 10^(n-k)] reads back as [x], and [k] is as small as possible.
    [nd] is the number of digits of [x]; the search starts at [k]. *)
Fixpoint shortestDigits (fuel : nat) (k nd x : Z) : Z * Z :=
  match fuel with
  | O => (x, nd)
  | S fuel' =>
      let unit := (10 ^ (nd - k))%Z in
      let lo := (x / unit)%Z in
      let hi := (lo + 1)%Z in
      let pick (s : Z) := if (s =? 10 ^ k)%Z then (1%Z, (nd + 1)%Z) else (s, nd) in
      match readsBackAs x (lo * unit), readsBackAs x (hi * unit) with
      | true, true =>
          let dlo := (x - lo * unit)%Z in
          let dhi := (hi * unit - x)%Z in
          if (dlo <? dhi)%Z then pick lo
          else if (dhi <? dlo)%Z then pick hi
          else if Z.even lo then pick lo else pick hi
      | true, false => pick lo
      | false, true => pick hi
      | false, false => shortestDigits fuel' (k + 1)%Z nd x
      end
  end.

Fixpoint zeros (n : nat) : string :=
  match n with
  | O => ""
  | S n' => String "0" (zeros n')
  end.

Definition numberToString (n : Z) : string :=
  let x := Z.abs n in
  if (x <? 2 ^ 53)%Z then decimal n
  else
    let nd := Z.of_nat (String.length (decimal x)) in
    let (s, n10) := shortestDigits (Z.to_nat nd) 1 nd x in
    let ds := decimal s in
    let k := Z.of_nat (String.length ds) in
    ((if (n <? 0)%Z then "-" else "")
     ++ (if (n10 <=? 21)%Z then ds ++ zeros (Z.to_nat (n10 - k))
         else
           match ds with
           | EmptyString => ""
           | String d EmptyString => String d ("e+" ++ decimal (n10 - 1))
           | String d rest => String d ("." ++ rest ++ "e+" ++ decimal (n10 - 1))
           end))%string.

(** [`${item.gender}`] *)
Definition genderToString (g : Gender) : string :=
  match g with Bapak => "Bapak" | Ibu => "Ibu" end.

(** [String.prototype.includes], used to state that a field occurs in a
    text. *)
Fixpoint includes (needle hay : string) : bool :=
  if prefix needle hay then true
  else match hay with
       | EmptyString => false
       | String _ hay' => includes needle hay'
       end.

(** Modelled from the spec: the wall-clock reading of [new Date()] and
    date-fns [format(now, 'HH:mm')], which are library code outside the
    repository: zero-padded hours and minutes of the local time of day. *)
Record Date : Type := mkDate { hours : nat; minutes : nat; seconds : nat }.

Definition pad2 (n : nat) : string :=
  let s := NilZero.string_of_uint (Nat.to_uint n) in
  if (n <? 10)%nat then ("0" ++ s)%string else s.

Definition format_HHmm (d : Date) : string :=
  (pad2 (hours d) ++ ":" ++ pad2 (minutes d))%string.

(** [lastTriggered !== timeStr] with [lastTriggered : string | null]. *)
Definition strictNotEqual (lastTriggered : option string) (timeStr : string) : bool :=
  match lastTriggered with
  | Some s => negb (s =? timeStr)%string
  | None => true
  end.

(* ================================================================= *)
(** ** [Array.prototype.sort]

    Modelled from the spec: the sort of the JavaScript engine, which is not
    part of the repository.  It sorts ascending and is stable (ties keep
    their order in the array); with a consistent comparator every such
    sort returns the same array, computed here by insertion. *)

Section ArraySort.
Variable A : Type.
Variable compareFn : A -> A -> Z.

Fixpoint insert (x : A) (l : list A) : list A :=
  match l with
  | [] => [x]
  | y :: l' => if (compareFn x y <=? 0)%Z then x :: y :: l' else y :: insert x l'
  end.

Fixpoint sort (l : list A) : list A :=
  match l with
  | [] => []
  | x :: l' => insert x (sort l')
  end.

(** [x] may stand before [y] in an array sorted with [compareFn]. *)
Definition inOrder (x y : A) : Prop := (compareFn x y <= 0)%Z.
End ArraySort.

(* ================================================================= *)
(** ** The schedule store ([App.tsx], lines 197-276) *)

Section ScheduleStore.

(** [String.prototype.localeCompare] is the host's collation, taken as a
    parameter. *)
Variable localeCompare : string -> string -> Z.

(** [(a, b) => a.startTime.localeCompare(b.startTime)] *)
Definition byStartTime (a b : ScheduleItem) : Z :=
  localeCompare (startTime a) (startTime b).

(** Lines 197-205; [rnd] is [Math.random().toString(36).substr(2, 9)]. *)
Definition handleAddSchedule (rnd : string) (newItem : NewScheduleItem)
           (schedule : list ScheduleItem) : list ScheduleItem :=
  let item := mkScheduleItem rnd (new_period newItem) (new_startTime newItem)
                (new_endTime newItem) (new_teacher newItem) (new_gender newItem)
                (new_subject newItem) (new_className newItem) true in
  sort byStartTime (schedule ++ [item]).

(** Lines 218-220. *)
Definition handleEditSchedule (updatedItem : ScheduleItem)
           (schedule : list ScheduleItem) : list ScheduleItem :=
  sort byStartTime
       (map (fun item => if (id item =? id updatedItem)%string then updatedItem else item)
            schedule).

(** Lines 236-238. *)
Definition handleDelete (id' : string) (schedule : list ScheduleItem)
  : list ScheduleItem :=
  filter (fun item => negb (id item =? id')%string) schedule.

(** Lines 253-259.  [None] is the early [return] of line 255, which
    leaves the state untouched. *)
Definition toggleActive (id' : string) (schedule : list ScheduleItem)
  : option (list ScheduleItem) :=
  match find (fun item => (id item =? id')%string) schedule with
  | None => None
  | Some itemToToggle =>
      let updatedItem := withIsActive (negb (isActive itemToToggle)) itemToToggle in
      Some (map (fun item => if (id item =? id')%string then updatedItem else item) schedule)
  end.

(** Lines 274-276: the derived "next bell" view; [None] is the
    [undefined] read at index 0 of an empty array. *)
Definition nextBell (schedule : list ScheduleItem) (currentTime : Date)
  : option ScheduleItem :=
  hd_error
    (sort byStartTime
          (filter (fun i => isActive i && gtb (startTime i) (format_HHmm currentTime))
                  schedule)).

(** The commands of the presentation layer that change the schedule. *)
Inductive Mutation : Type :=
| Add (rnd : string) (newItem : NewScheduleItem)
| Edit (updatedItem : ScheduleItem)
| Delete (id' : string)
| Toggle (id' : string).

(** The array a mutation passes to [setSchedule], if it calls it. *)
Definition mutate (m : Mutation) (schedule : list ScheduleItem)
  : option (list ScheduleItem) :=
  match m with
  | Add rnd newItem => Some (handleAddSchedule rnd newItem schedule)
  | Edit updatedItem => Some (handleEditSchedule updatedItem schedule)
  | Delete id' => Some (handleDelete id' schedule)
  | Toggle id' => toggleActive id' schedule
  end.

(** The schedule the readers see after the command. *)
Definition scheduleAfter (m : Mutation) (schedule : list ScheduleItem)
  : list ScheduleItem :=
  match mutate m schedule with
  | Some newSchedule => newSchedule
  | None => schedule
  end.

(** The schedule after a sequence of commands. *)
Fixpoint scheduleAfterAll (ms : list Mutation) (schedule : list ScheduleItem)
  : list ScheduleItem :=
  match ms with
  | [] => schedule
  | m :: ms' => scheduleAfterAll ms' (scheduleAfter m schedule)
  end.

(** Every id drawn by an add of the sequence is new to the schedule of
    its time. *)
Fixpoint freshIds (ms : list Mutation) (schedule : list ScheduleItem) : Prop :=
  match ms with
  | [] => True
  | m :: ms' =>
      (forall rnd newItem, m = Add rnd newItem -> ~ In rnd (map id schedule))
      /\ freshIds ms' (scheduleAfter m schedule)
  end.

(** Ascending by [startTime], in the order of the comparator. *)
Definition sortedByStartTime (schedule : list ScheduleItem) : Prop :=
  Sorted (inOrder byStartTime) schedule.

End ScheduleStore.

(** Code-unit comparison as a comparator: the collation order of texts made
    of digits and a colon at a fixed place, such as HH:mm times. *)
Definition codeUnitCompare (a b : string) : Z :=
  match (a ?= b)%string with
  | Lt => (-1)%Z
  | Eq => 0%Z
  | Gt => 1%Z
  end.

(* ================================================================= *)
(** ** Asynchronous code as resumption trees

    An [async] function is a tree of the calls it makes to the outside.  A
    synchronous call ([Do]) continues at once with its result; an awaited
    promise ([Await]) is a suspension point: the function stops there and is
    resumed by the event loop when the promise settles, and timer callbacks
    and click handlers run in between.  Either kind of call may throw (or
    reject), so the continuation receives a [Result].  An [await] of a
    promise that is already settled only yields to the microtask queue, where
    no timer or click handler runs; it has no node in the tree. *)

(** A thrown value or rejection reason, kept as its message. *)
Definition JsError : Type := string.

Inductive Result (X : Type) : Type :=
| Returns (x : X)
| Throws (e : JsError).

Arguments Throws {X} e.

(** The part of the provider's response that line 27 of
    [geminiService.ts] reads; every level is optional. *)
Record Blob : Type := mkBlob { data : option string }.
Record Part : Type := mkPart { inlineData : option Blob }.
Record Content : Type := mkContent { parts : option (list Part) }.
Record Candidate : Type := mkCandidate { content : option Content }.
Record GenerateContentResponse : Type :=
  mkResponse { candidates : option (list Candidate) }.

(** The callback that resolves the chime promise (lines 163-167): all three
    call [resolve]. *)
Inductive ChimeResolution : Type := OnEnded | OnError | PlayRejected.

Inductive SyncOp : Type :=
| SetIsAnnouncing (b : bool)          (* setIsAnnouncing(b) *)
| NewAudio (src : option string)      (* new Audio(src), new Audio() *)
| ReadGeminiApiKey                    (* process.env.GEMINI_API_KEY *)
| ConsoleWarn (msg : string)
| ConsoleError (msg : string)
| Speak (text : string) (lang : string).
    (* new SpeechSynthesisUtterance(text); utterance.lang = lang;
       window.speechSynthesis.speak(utterance) *)

(** The first event that the [Audio] element of [playAudioFromBase64]
    fires once its source is set (lines 46-60). *)
Inductive MediaEvent : Type := CanPlayThrough | MediaError.

(** What happens first once [audio.play()] is called (lines 49-59): its
    promise fulfils, or the element fires [error] before it settles.  (A
    rejection of the promise is the [Throws] of the result.) *)
Inductive Playback : Type := Playing | ErrorFirst.

Inductive AsyncOp : Type :=
| ChimePromise                        (* the promise of lines 163-167 *)
| GenerateContent (text : string) (voice : VoiceName)
                                      (* ai.models.generateContent({...}) *)
| AudioEvent (audioSrc : string)      (* audio.src = audioSrc: the element loads *)
| AudioPlay (audioSrc : string).      (* audio.play() *)

Definition sret (o : SyncOp) : Type :=
  match o with
  | ReadGeminiApiKey => option string
  | _ => unit
  end.

Definition aret (o : AsyncOp) : Type :=
  match o with
  | ChimePromise => ChimeResolution
  | GenerateContent _ _ => GenerateContentResponse
  | AudioEvent _ => MediaEvent
  | AudioPlay _ => Playback
  end.

Inductive Async (A : Type) : Type :=
| Ret (a : A)
| Throw (e : JsError)
| Do (o : SyncOp) (k : Result (sret o) -> Async A)
| Await (o : AsyncOp) (k : Result (aret o) -> Async A).

Arguments Throw {A} e.
Arguments Do {A} o k.
Arguments Await {A} o k.

Definition settle {X : Type} (r : Result X) : Async X :=
  match r with
  | Returns x => Ret x
  | Throws e => Throw e
  end.

(** A call whose exception, if any, propagates. *)
Definition call (o : SyncOp) : Async (sret o) := Do o settle.

(** [await p]: resumes with the value, or throws the rejection reason. *)
Definition await (o : AsyncOp) : Async (aret o) := Await o settle.

(** A call that does not throw: a state setter, the console. *)
Definition perform (o : SyncOp) : Async unit := Do o (fun _ => Ret tt).

Fixpoint bind {A B : Type} (p : Async A) (f : A -> Async B) : Async B :=
  match p with
  | Ret a => f a
  | Throw e => Throw e
  | Do o k => Do o (fun r => bind (k r) f)
  | Await o k => Await o (fun r => bind (k r) f)
  end.

(** [try { p } catch (e) { h e }] *)
Fixpoint tryCatch {A : Type} (p : Async A) (h : JsError -> Async A) : Async A :=
  match p with
  | Ret a => Ret a
  | Throw e => h e
  | Do o k => Do o (fun r => tryCatch (k r) h)
  | Await o k => Await o (fun r => tryCatch (k r) h)
  end.

(** [try { p } finally { f }]: [f] runs on both exits of [p], and the
    outcome of [p] is kept unless [f] throws. *)
Fixpoint finally {A : Type} (p : Async A) (f : Async unit) : Async A :=
  match p with
  | Ret a => bind f (fun _ => Ret a)
  | Throw e => bind f (fun _ => Throw e)
  | Do o k => Do o (fun r => finally (k r) f)
  | Await o k => Await o (fun r => finally (k r) f)
  end.

Declare Scope async_scope.
Delimit Scope async_scope with async.
Notation "x <- p ;; q" := (bind p (fun x => q))
  (at level 61, p at next level, right associativity) : async_scope.
Notation "p ;; q" := (bind p (fun _ => q))
  (at level 61, right associativity) : async_scope.

(** *** Running a tree against the outside world *)

(** What the outside answers: a synchronous call returns or throws; a
    promise fulfils, rejects, or never settles ([None]). *)
Record World : Type := mkWorld {
  sync_result : forall o : SyncOp, Result (sret o);
  await_result : forall o : AsyncOp, option (Result (aret o))
}.

Inductive Event : Type :=
| Did (o : SyncOp)
| Awaited (o : AsyncOp).

(** How a run ends: the function returns, it throws (its promise rejects),
    or it is still suspended on a promise that never settles. *)
Inductive Exit (A : Type) : Type :=
| Done (a : A)
| Uncaught (e : JsError)
| Stuck.

Arguments Uncaught {A} e.
Arguments Stuck {A}.

(** The calls made, in order, and the way the run ends. *)
Fixpoint run {A : Type} (w : World) (p : Async A) : list Event * Exit A :=
  match p with
  | Ret a => ([], Done a)
  | Throw e => ([], Uncaught e)
  | Do o k =>
      let (t, x) := run w (k (sync_result w o)) in (Did o :: t, x)
  | Await o k =>
      match await_result w o with
      | None => ([Awaited o], Stuck)
      | Some r => let (t, x) := run w (k r) in (Awaited o :: t, x)
      end
  end.

(** The value of the [isAnnouncing] state after the state writes of a
    trace, starting from [b]. *)
Fixpoint isAnnouncingAfter (t : list Event) (b : bool) : bool :=
  match t with
  | [] => b
  | Did (SetIsAnnouncing b') :: t' => isAnnouncingAfter t' b'
  | _ :: t' => isAnnouncingAfter t' b
  end.

(* ================================================================= *)
(** ** [services/geminiService.ts] *)

Module GeminiService.

Local Open Scope async_scope.

(** Lines 3-9: [getAI] throws when the key is missing or empty. *)
Definition getAI : Async string :=
  apiKey <- call ReadGeminiApiKey ;;
  match usable apiKey with
  | None => Throw "GEMINI_API_KEY is not set"
  | Some key => Ret key
  end.

(** Line 27:
    [response.candidates?.[0]?.content?.parts?.[0]?.inlineData?.data] *)
Definition inlineAudio (response : GenerateContentResponse) : option string :=
  match candidates response with
  | None => None
  | Some cs =>
      match hd_error cs with
      | None => None
      | Some c =>
          match content c with
          | None => None
          | Some ct =>
              match parts ct with
              | None => None
              | Some ps =>
                  match hd_error ps with
                  | None => None
                  | Some p =>
                      match inlineData p with
                      | None => None
                      | Some b => data b
                      end
                  end
              end
          end
      end
  end.

(** Lines 11-32: every failure is caught and turned into [undefined]. *)
Definition generateAnnouncementAudio (text : string) (voice : VoiceName)
  : Async (option string) :=
  tryCatch
    (_ <- getAI ;;
     response <- await (GenerateContent text voice) ;;
     Ret (inlineAudio response))
    (fun error =>
       perform (ConsoleError "Error generating TTS:") ;;
       Ret None).

(** Lines 48-55: the [canplaythrough] handler.  It calls [audio.play()];
    the promise of [playAudioFromBase64] resolves when that fulfils and
    rejects, after a log, when it rejects.  An [error] event that comes
    first runs the handler of lines 57-60. *)
Definition oncanplaythrough (audioSrc : string) : Async unit :=
  Await (AudioPlay audioSrc)
        (fun played =>
           match played with
           | Returns Playing => Ret tt
           | Returns ErrorFirst =>
               perform (ConsoleError "Audio loading error:") ;;
               Throw "Failed to load audio source"
           | Throws err =>
               perform (ConsoleError "Playback failed:") ;;
               Throw err
           end).

(** Lines 34-66.  The [try] of line 40 only guards the synchronous
    part, [new Audio()]; the promise of lines 45-61 is awaited by the
    caller and is settled by the handlers of the element.  A throw of the
    executor itself rejects the promise without a log. *)
Definition playAudioFromBase64 (base64Data : string) : Async unit :=
  if negb (truthy base64Data) then
    perform (ConsoleError "No audio data provided") ;;
    Throw "No audio data"
  else
    (* Use audio/mpeg for MP3 data which is common for TTS *)
    let audioSrc := ("data:audio/mpeg;base64," ++ base64Data)%string in
    Do (NewAudio None)
       (fun created =>
          match created with
          | Returns _ =>
              Await (AudioEvent audioSrc)
                    (fun fired =>
                       match fired with
                       | Returns CanPlayThrough => oncanplaythrough audioSrc
                       | Returns MediaError =>
                           perform (ConsoleError "Audio loading error:") ;;
                           Throw "Failed to load audio source"
                       | Throws e => Throw e
                       end)
          | Throws error =>
              perform (ConsoleError "Error in playAudioFromBase64:") ;;
              Throw error
          end).

End GeminiService.

(* ================================================================= *)
(** ** The announcement sequence ([App.tsx], lines 156-195) *)

(** The state values that the closures of one render see (lines 37-48; the
    two modal flags play no part in the engine and are left out). *)
Record Render : Type := mkRender {
  currentTime : Date;
  schedule : list ScheduleItem;
  settings : AppSettings;
  lastTriggered : option string;
  isAnnouncing : bool;
  isLoading : bool
}.

Import GeminiService.

(** Line 170. *)
Definition greeting : string :=
  "Assalamualaikum warahmatullohi wabarokatuh, kepada siswa SMP ISLAM ARRAUDHOH. ".

(** Line 171: the template literal. *)
Definition announcementText (item : ScheduleItem) : string :=
  (greeting ++ " Perhatian. Jam ke " ++ numberToString (period item)
   ++ ". Pukul " ++ startTime item
   ++ ". " ++ genderToString (gender item) ++ " Guru " ++ teacher item
   ++ ", pengampu mata pelajaran " ++ subject item
   ++ ", dipersilakan masuk kelas " ++ className item
   ++ ". Selamat belajar.")%string.

Section TriggerBell.

Local Open Scope async_scope.

(** Lines 180-182 and 186-188: the browser's own speech synthesis. *)
Definition browserTTS (text : string) : Async unit :=
  call (Speak text "id-ID").

(** Lines 175-189: play the synthesized audio, or fall back. *)
Definition triggerBell_play (text : string) (audioData : option string)
  : Async unit :=
  match usable audioData with
  | Some audio =>
      tryCatch
        (playAudioFromBase64 audio)
        (fun playError =>
           perform (ConsoleWarn
             "Gemini audio playback failed, falling back to browser TTS:") ;;
           browserTTS text)
  | None =>
      perform (ConsoleWarn
        "No audio data from Gemini, falling back to browser TTS") ;;
      browserTTS text
  end.

(** Lines 161-189: the body of the [try]. *)
Definition triggerBell_try (r : Render) (item : ScheduleItem) : Async unit :=
  (* 1. Play Chime Music First *)
  call (NewAudio (Some CHIME_URL)) ;;
  await ChimePromise ;;
  (* 2. Prepare Announcement Text *)
  let text := announcementText item in
  (* 3. Generate and Play Announcement *)
  audioData <- generateAnnouncementAudio text (voiceName (settings r)) ;;
  triggerBell_play text audioData.

(** Lines 156-195.  [r] is the render whose closure is called: the guard
    of line 157 reads the [isAnnouncing] of that render. *)
Definition triggerBell (r : Render) (item : ScheduleItem) : Async unit :=
  if isAnnouncing r then Ret tt
  else
    perform (SetIsAnnouncing true) ;;
    finally
      (tryCatch (triggerBell_try r item)
                (fun error => perform (ConsoleError "Failed to trigger bell:")))
      (perform (SetIsAnnouncing false)).

End TriggerBell.

(* ================================================================= *)
(** ** The component as a transition system

    A function component is called anew for every render, and the handlers
    it creates close over the state values of that render.  The buttons are
    given the handlers of the last committed render.  The interval callback
    of lines 135-151 is created inside an effect whose dependency array is
    [[schedule, settings.isAutoEnabled, lastTriggered]] (line 154): the
    effect runs again, and the interval gets the closures of the new render,
    only when one of these three changes.  [isAnnouncing] is not among them,
    so the [triggerBell] that a tick calls reads the [isAnnouncing] of the
    render in which the effect last ran. *)

(** A [triggerBell] call suspended at an [await]. *)
Record Parked : Type := mkParked {
  awaited : AsyncOp;
  resume : Result (aret awaited) -> Async unit
}.

Record App : Type := mkApp {
  latest : Render;          (* the last committed render *)
  timer : Render;           (* the render whose effect set the interval *)
  inflight : list Parked;   (* the suspended triggerBell calls *)
  output : list Event;      (* the calls made so far, in order *)
  triggered : list (string * ScheduleItem)
    (* history: the triggerBell calls made by the tick handler, line 146 *)
}.

(** A state update commits a new render; [rerun] tells whether a dependency
    of the interval effect has changed. *)
Definition commit (rerun : bool) (r : Render) (a : App) : App :=
  mkApp r (if rerun then r else timer a) (inflight a) (output a) (triggered a).

Definition setCurrentTime (now : Date) (a : App) : App :=
  let r := latest a in
  commit false
    (mkRender now (schedule r) (settings r) (lastTriggered r) (isAnnouncing r)
              (isLoading r)) a.

(** The new array is a new object: the dependency changes. *)
Definition setSchedule (newSchedule : list ScheduleItem) (a : App) : App :=
  let r := latest a in
  commit true
    (mkRender (currentTime r) newSchedule (settings r) (lastTriggered r)
              (isAnnouncing r) (isLoading r)) a.

Definition setSettings (newSettings : AppSettings) (a : App) : App :=
  let r := latest a in
  commit (negb (Bool.eqb (isAutoEnabled newSettings) (isAutoEnabled (settings r))))
    (mkRender (currentTime r) (schedule r) newSettings (lastTriggered r)
              (isAnnouncing r) (isLoading r)) a.

Definition setLastTriggered (timeStr : string) (a : App) : App :=
  let r := latest a in
  commit (strictNotEqual (lastTriggered r) timeStr)
    (mkRender (currentTime r) (schedule r) (settings r) (Some timeStr)
              (isAnnouncing r) (isLoading r)) a.

Definition setIsAnnouncing (b : bool) (a : App) : App :=
  let r := latest a in
  commit false
    (mkRender (currentTime r) (schedule r) (settings r) (lastTriggered r) b
              (isLoading r)) a.

Definition setIsLoading (b : bool) (a : App) : App :=
  let r := latest a in
  commit false
    (mkRender (currentTime r) (schedule r) (settings r) (lastTriggered r)
              (isAnnouncing r) b) a.

(** The effect of a synchronous call on the component. *)
Definition did (o : SyncOp) (a : App) : App :=
  let a' := mkApp (latest a) (timer a) (inflight a) (output a ++ [Did o])
                  (triggered a) in
  match o with
  | SetIsAnnouncing b => setIsAnnouncing b a'
  | _ => a'
  end.

Definition park (o : AsyncOp) (k : Result (aret o) -> Async unit) (a : App) : App :=
  mkApp (latest a) (timer a) (inflight a ++ [@mkParked o k])
        (output a ++ [Awaited o]) (triggered a).

(** Runs the function up to its next suspension point, or to its end; a
    rejection of its promise is handled by nobody. *)
Fixpoint exec (w : World) (p : Async unit) (a : App) : App :=
  match p with
  | Ret _ => a
  | Throw _ => a
  | Do o k => exec w (k (sync_result w o)) (did o a)
  | Await o k => @park o k a
  end.

Fixpoint removeNth {X : Type} (n : nat) (l : list X) : list X :=
  match n, l with
  | _, [] => []
  | O, _ :: l' => l'
  | S n', x :: l' => x :: removeNth n' l'
  end.

Definition noteTrigger (timeStr : string) (item : ScheduleItem) (a : App) : App :=
  mkApp (latest a) (timer a) (inflight a) (output a)
        (triggered a ++ [(timeStr, item)]).

(** Lines 135-150: the interval callback, with the closures of [timer a]. *)
Definition tick (w : World) (now : Date) (a : App) : App :=
  let r := timer a in
  let a := setCurrentTime now a in
  if isAutoEnabled (settings r) then
    let timeStr := format_HHmm now in
    (* Check if we already triggered this minute *)
    if strictNotEqual (lastTriggered r) timeStr then
      match find (fun item => isActive item && (startTime item =? timeStr)%string)
                 (schedule r) with
      | Some matchingItem =>
          let a := exec w (triggerBell r matchingItem)
                        (noteTrigger timeStr matchingItem a) in
          setLastTriggered timeStr a
      | None => a
      end
    else a
  else a.

(** Line 373: the "Test Bell" button, with the closure of the last
    committed render. *)
Definition testBell (w : World) (item : ScheduleItem) (a : App) : App :=
  exec w (triggerBell (latest a) item) a.

(** The promise on which the [n]-th suspended call waits settles, if the
    world settles it at all, and the call runs on. *)
Definition settled (w : World) (n : nat) (a : App) : App :=
  match nth_error (inflight a) n with
  | None => a
  | Some pk =>
      match await_result w (awaited pk) with
      | None => a
      | Some r =>
          exec w (resume pk r)
               (mkApp (latest a) (timer a) (removeNth n (inflight a))
                      (output a) (triggered a))
      end
  end.

(** Lines 119-120; the write to the remote store that follows changes no
    state of the component. *)
Definition updateSettings (newSettings : AppSettings) (a : App) : App :=
  setSettings newSettings a.

Section Component.

Variable localeCompare : string -> string -> Z.

(** The four schedule commands: [setSchedule] on the array computed from
    the schedule of the last committed render; the remote write that
    follows changes no state of the component. *)
Definition command (m : Mutation) (a : App) : App :=
  match mutate localeCompare m (schedule (latest a)) with
  | Some newSchedule => setSchedule newSchedule a
  | None => a
  end.

(** What can happen to the mounted component. *)
Inductive Happening : Type :=
| Tick (now : Date)
| TestBell (item : ScheduleItem)
| Settled (n : nat)
| Command (m : Mutation)
| UpdateSettings (newSettings : AppSettings).

Definition step (w : World) (h : Happening) (a : App) : App :=
  match h with
  | Tick now => tick w now a
  | TestBell item => testBell w item a
  | Settled n => settled w n a
  | Command m => command m a
  | UpdateSettings newSettings => updateSettings newSettings a
  end.

(** Each happening comes with the answers of the outside during it. *)
Fixpoint steps (hs : list (World * Happening)) (a : App) : App :=
  match hs with
  | [] => a
  | (w, h) :: hs' => steps hs' (step w h a)
  end.

End Component.

(** The component after its first render (lines 37-48): the effect has set
    the interval with the closures of that render. *)
Definition mount (now : Date) : App :=
  let r := mkRender now [] DEFAULT_SETTINGS None false true in
  mkApp r r [] [] [].

(** The dependencies of the interval effect are those of the last render. *)
Definition upToDate (a : App) : Prop :=
  schedule (timer a) = schedule (latest a)
  /\ isAutoEnabled (settings (timer a)) = isAutoEnabled (settings (latest a))
  /\ lastTriggered (timer a) = lastTriggered (latest a).

(* ================================================================= *)
(** ** The start-up loader ([App.tsx], lines 51-103;
       [services/supabaseClient.ts]) *)

(** The [error] object of a reply of the remote store. *)
Record PostgrestError : Type := mkPostgrestError { code : string }.

(** What an awaited query gives: the promise rejects, or it fulfils with
    [{ data, error }]. *)
Inductive Reply (X : Type) : Type :=
| Rejected (e : JsError)
| Replied (data : option X) (error : option PostgrestError).

Arguments Rejected {X} e.

(** The remote store as the loader sees it: the replies to its two
    queries. *)
Record SupabaseClient : Type := mkSupabaseClient {
  select_schedules : Reply (list ScheduleItem);
    (* from('schedules').select('*').order('startTime', { ascending: true }) *)
  select_settings : Reply AppSettings
    (* from('settings').select('*').single(), without the [id] column *)
}.

(** [supabaseClient.ts], lines 10-12: [null] without credentials. *)
Definition supabase (supabaseUrl supabaseAnonKey : option string)
           (client : SupabaseClient) : option SupabaseClient :=
  match usable supabaseUrl, usable supabaseAnonKey with
  | Some _, Some _ => Some client
  | _, _ => None
  end.

(** What [localStorage.getItem] and [JSON.parse] make of a slot: there is
    no item (or an empty text, which is as falsy as [null]); the text is
    not JSON, and [JSON.parse] throws; or [JSON.parse] returns a value,
    which the code takes to be of the type it expects. *)
Inductive Slot (X : Type) : Type :=
| NoItem
| Unparsable (e : JsError)
| Stored (x : X).

Arguments NoItem {X}.
Arguments Unparsable {X} e.

(** The two slots of [localStorage].  The component writes them with
    [JSON.stringify] (lines 106-116). *)
Record LocalStorage : Type := mkLocalStorage {
  school_bell_schedule : Slot (list ScheduleItem);
  school_bell_settings : Slot AppSettings
}.

(** Lines 55-79: the [try].  The state written before a [throw] stays
    written. *)
Definition fetchData_try (client : SupabaseClient) (a : App) : App * Result unit :=
  (* Fetch Schedule *)
  match select_schedules client with
  | Rejected e => (a, Throws e)
  | Replied _ (Some scheduleError) => (a, Throws (code scheduleError))
  | Replied scheduleData None =>
      let a :=
        match scheduleData with
        | Some (row :: rows) => setSchedule (row :: rows) a
        | _ => setSchedule DEFAULT_SCHEDULE a
        end in
      (* Fetch Settings *)
      match select_settings client with
      | Rejected e => (a, Throws e)
      | Replied settingsData settingsError =>
          match settingsError with
          | Some err =>
              if negb (code err =? "PGRST116")%string then (a, Throws (code err))
              else (match settingsData with
                    | Some rest => setSettings rest a
                    | None => a
                    end, Returns tt)
          | None =>
              (match settingsData with
               | Some rest => setSettings rest a
               | None => a
               end, Returns tt)
          end
      end
  end.

(** Lines 82-86: the [catch].  [JSON.parse] is called inside it, so a
    slot that does not parse makes the [catch] itself throw. *)
Definition fetchData_catch (localStorage : LocalStorage) (a : App) : App * Result unit :=
  (* Fallback to localStorage *)
  let savedSchedule := school_bell_schedule localStorage in
  let savedSettings := school_bell_settings localStorage in
  match savedSchedule with
  | Unparsable e => (a, Throws e)
  | _ =>
      let a := match savedSchedule with
               | Stored s => setSchedule s a
               | _ => a
               end in
      match savedSettings with
      | Unparsable e => (a, Throws e)
      | Stored s => (setSettings s a, Returns tt)
      | NoItem => (a, Returns tt)
      end
  end.

(** Lines 88-98: the branch without a remote store. *)
Definition fetchData_else (localStorage : LocalStorage) (a : App) : App * Result unit :=
  (* Fallback to localStorage *)
  let savedSchedule := school_bell_schedule localStorage in
  let savedSettings := school_bell_settings localStorage in
  match savedSchedule with
  | Unparsable e => (a, Throws e)
  | _ =>
      let a := setSchedule (match savedSchedule with
                            | Stored s => s
                            | _ => DEFAULT_SCHEDULE
                            end) a in
      match savedSettings with
      | Unparsable e => (a, Throws e)
      | _ =>
          (setSettings (match savedSettings with
                        | Stored s => s
                        | _ => DEFAULT_SETTINGS
                        end) a, Returns tt)
      end
  end.

(** Lines 52-100: the state in which the call leaves the component, and
    whether its promise fulfils or rejects.  Nothing catches what the
    [catch] or the [else] branch throws, and there is no [finally]: on a
    rejection line 100 is not reached. *)
Definition fetchData_run (supabase : option SupabaseClient) (localStorage : LocalStorage)
           (a : App) : App * Result unit :=
  let a := setIsLoading true a in
  let (a, done) :=
    match supabase with
    | Some client =>
        match fetchData_try client a with
        | (a, Returns _) => (a, Returns tt)
        | (a, Throws _) => fetchData_catch localStorage a
        end
    | None => fetchData_else localStorage a
    end in
  match done with
  | Returns _ => (setIsLoading false a, Returns tt)
  | Throws e => (a, Throws e)
  end.

(** The state after the call of line 102. *)
Definition fetchData (supabase : option SupabaseClient) (localStorage : LocalStorage)
           (a : App) : App :=
  fst (fetchData_run supabase localStorage a).

(* ================================================================= *)
(** ** Concrete worlds and states used to exercise the model *)

(** A response that carries the audio [d] where line 27 looks for it. *)
Definition audioResponse (d : string) : GenerateContentResponse :=
  mkResponse
    (Some [mkCandidate (Some (mkContent (Some [mkPart (Some (mkBlob (Some d)))])))]).

(** A response without candidates. *)
Definition emptyResponse : GenerateContentResponse := mkResponse None.

Definition syncFine (o : SyncOp) : Result (sret o) :=
  match o return Result (sret o) with
  | ReadGeminiApiKey => Returns (Some "key")
  | SetIsAnnouncing _ => Returns tt
  | NewAudio _ => Returns tt
  | ConsoleWarn _ => Returns tt
  | ConsoleError _ => Returns tt
  | Speak _ _ => Returns tt
  end.

(** Everything works: the chime ends, the provider returns audio, the
    audio plays. *)
Definition fineWorld : World :=
  mkWorld syncFine
    (fun o => match o return option (Result (aret o)) with
              | ChimePromise => Some (Returns OnEnded)
              | GenerateContent _ _ => Some (Returns (audioResponse "QUJD"))
              | AudioEvent _ => Some (Returns CanPlayThrough)
              | AudioPlay _ => Some (Returns Playing)
              end).

(** The provider answers without audio. *)
Definition muteWorld : World :=
  mkWorld syncFine
    (fun o => match o return option (Result (aret o)) with
              | ChimePromise => Some (Returns OnEnded)
              | GenerateContent _ _ => Some (Returns emptyResponse)
              | AudioEvent _ => Some (Returns CanPlayThrough)
              | AudioPlay _ => Some (Returns Playing)
              end).

(** The provider returns audio that the browser cannot play. *)
Definition brokenAudioWorld : World :=
  mkWorld syncFine
    (fun o => match o return option (Result (aret o)) with
              | ChimePromise => Some (Returns OnEnded)
              | GenerateContent _ _ => Some (Returns (audioResponse "QUJD"))
              | AudioEvent _ => Some (Returns MediaError)
              | AudioPlay _ => Some (Returns Playing)
              end).

Definition budi : ScheduleItem :=
  mkScheduleItem "1" 1 "07:00" "07:45" "Budi Santoso" Bapak "Matematika" "X-A" true.

Definition siti : ScheduleItem :=
  mkScheduleItem "2" 2 "07:45" "08:30" "Siti Aminah" Ibu "Bahasa Indonesia" "XI-B" true.

(** The component once the default schedule is loaded, idle, shortly
    before seven. *)
Definition idleRender : Render :=
  mkRender (mkDate 6 59 58) DEFAULT_SCHEDULE DEFAULT_SETTINGS None false false.

Definition idleApp : App := mkApp idleRender idleRender [] [] [].

Definition sevenSharp : Date := mkDate 7 0 0.
Definition sevenAndOneSecond : Date := mkDate 7 0 1.
Definition quarterToEight : Date := mkDate 7 45 0.

(* ================================================================= *)
(** ** Vocabulary of the properties *)

(** The event is a write of the [isAnnouncing] state. *)
Definition writesIsAnnouncing (ev : Event) : bool :=
  match ev with
  | Did (SetIsAnnouncing _) => true
  | _ => false
  end.

(** The event is a call of the browser's speech synthesis. *)
Definition speaks (ev : Event) : bool :=
  match ev with
  | Did (Speak _ _) => true
  | _ => false
  end.

(** The event hands a text other than [text] to the speech provider or to
    the browser's speech synthesis. *)
Definition saysOtherThan (text : string) (ev : Event) : bool :=
  match ev with
  | Awaited (GenerateContent t _) => negb (t =? text)%string
  | Did (Speak t _) => negb (t =? text)%string
  | _ => false
  end.

(** The function makes no call of the kind [bad]. *)
Fixpoint avoids {A : Type} (bad : Event -> bool) (p : Async A) : Prop :=
  match p with
  | Ret _ => True
  | Throw _ => True
  | Do o k => bad (Did o) = false /\ forall r, avoids bad (k r)
  | Await o k => bad (Awaited o) = false /\ forall r, avoids bad (k r)
  end.

(** The function never rejects: every exception is caught inside. *)
Fixpoint neverThrows {A : Type} (p : Async A) : Prop :=
  match p with
  | Ret _ => True
  | Throw _ => False
  | Do o k => forall r, neverThrows (k r)
  | Await o k => forall r, neverThrows (k r)
  end.

(** What the trigger engine reads and records: the closures of the
    interval, the history of its triggers, and the state it matches
    against.  The announcement sequence touches none of it. *)
Definition engineView (a : App)
  : Render * list (string * ScheduleItem) * list ScheduleItem * AppSettings
    * option string :=
  (timer a, triggered a, schedule (latest a), settings (latest a),
   lastTriggered (latest a)).

(** The suspended call is inside the [try] of [triggerBell]: when it
    leaves, it runs the [finally] of line 193. *)
Definition inSequence (pk : Parked) : Prop :=
  exists k, resume pk = fun r => finally (k r) (perform (SetIsAnnouncing false)).

(** The suspended calls are announcement sequences, and [isAnnouncing] is
    false when none is in flight. *)
Definition consistent (a : App) : Prop :=
  Forall inSequence (inflight a)
  /\ (inflight a = [] -> isAnnouncing (latest a) = false).


(** All the clock ticks among the happenings read the minute [m]. *)
Definition sameMinute (m : string) (hs : list (World * Happening)) : Prop :=
  forall w now, In (w, Tick now) hs -> format_HHmm now = m.

(** The remote read of the loader fails: a query rejects or answers with
    an error. *)
Definition remoteReadFails (client : SupabaseClient) (a : App) : Prop :=
  exists e, snd (fetchData_try client a) = Throws e.

(** The remote read succeeds and finds no schedule rows. *)
Definition remoteHasNoRows (client : SupabaseClient) (a : App) : Prop :=
  (select_schedules client = Replied None None
   \/ select_schedules client = Replied (Some []) None)
  /\ snd (fetchData_try client a) = Returns tt.

(** What the loader would show if it fell back to the local snapshot and
    then to the built-in defaults. *)
Definition snapshotOrDefaults (localStorage : LocalStorage) : list ScheduleItem :=
  match school_bell_schedule localStorage with
  | Stored s => s
  | _ => DEFAULT_SCHEDULE
  end.

(** A schedule with two active entries at eight. *)
Definition budiAtEight : ScheduleItem :=
  mkScheduleItem "a" 1 "08:00" "08:45" "Budi Santoso" Bapak "Matematika" "X-A" true.

Definition sitiAtEight : ScheduleItem :=
  mkScheduleItem "b" 2 "08:00" "08:45" "Siti Aminah" Ibu "Bahasa Indonesia" "XI-B" true.

Definition twoAtEight : list ScheduleItem := [budiAtEight; sitiAtEight].

(** A sorted schedule in which two entries carry the same id. *)
Definition sharedIdSchedule : list ScheduleItem :=
  [ mkScheduleItem "x" 1 "07:00" "07:45" "Budi Santoso" Bapak "Matematika" "X-A" true;
    mkScheduleItem "y" 2 "07:30" "08:15" "Siti Aminah" Ibu "Bahasa Indonesia" "XI-B" true;
    mkScheduleItem "x" 3 "08:00" "08:45" "Joko Widodo" Bapak "Fisika" "XII-C" true ].

(** A new entry at noon. *)
Definition noonLesson : NewScheduleItem :=
  mkNewScheduleItem 6 "12:00" "12:45" "Joko Widodo" Bapak "Fisika" "XII-C".



(** Settings of another school. *)
Definition otherSchool : AppSettings := mkAppSettings "SMA Negeri 1" true Kore.

(** A remote store with empty tables: no schedule rows, and the error
    PGRST116 of [single()] on an empty result. *)
Definition emptyRemote : SupabaseClient :=
  mkSupabaseClient (Replied (Some []) None)
                   (Replied None (Some (mkPostgrestError "PGRST116"))).

(** A remote store whose schedule query fails. *)
Definition failingRemote : SupabaseClient :=
  mkSupabaseClient (Rejected "Failed to fetch") (Replied None None).

(** A local snapshot with one entry. *)
Definition oneEntrySnapshot : LocalStorage :=
  mkLocalStorage (Stored [siti]) NoItem.

(* ================================================================= *)
(** ** The rest of the component: persistence effects and the form *)

(** Lines 106-110: the effect that mirrors the schedule to [localStorage]
    once loading is over.  [JSON.parse] gives back the value of which
    [JSON.stringify] wrote the text. *)
Definition persistSchedule (r : Render) (localStorage : LocalStorage) : LocalStorage :=
  if negb (isLoading r) then
    mkLocalStorage (Stored (schedule r)) (school_bell_settings localStorage)
  else localStorage.

(** Lines 112-116: the same for the settings. *)
Definition persistSettings (r : Render) (localStorage : LocalStorage) : LocalStorage :=
  if negb (isLoading r) then
    mkLocalStorage (school_bell_schedule localStorage) (Stored (settings r))
  else localStorage.

(** Both effects, after a render in which their dependencies changed. *)
Definition persist (r : Render) (localStorage : LocalStorage) : LocalStorage :=
  persistSettings r (persistSchedule r localStorage).

(** Line 543: [{ ...editingItem, ...data }]; [data] has every field but
    [id] and [isActive]. *)
Definition spreadEdit (editingItem : ScheduleItem) (data : NewScheduleItem)
  : ScheduleItem :=
  mkScheduleItem (id editingItem) (new_period data) (new_startTime data)
                 (new_endTime data) (new_teacher data) (new_gender data)
                 (new_subject data) (new_className data) (isActive editingItem).

(** Lines 529-546: the submit handler of the form, once the fields are
    read; [rnd] is the random id drawn by [handleAddSchedule]. *)
Definition onSubmit (editingItem : option ScheduleItem) (rnd : string)
           (data : NewScheduleItem) : Mutation :=
  match editingItem with
  | Some item => Edit (spreadEdit item data)
  | None => Add rnd data
  end.

(** Line 307: the Auto ON / Auto OFF button,
    [updateSettings({ ...settings, isAutoEnabled: !settings.isAutoEnabled })]. *)
Definition toggleAuto (a : App) : App :=
  let s := settings (latest a) in
  updateSettings (mkAppSettings (schoolName s) (negb (isAutoEnabled s)) (voiceName s)) a.

(** *** More vocabulary *)

(** Minutes since midnight. *)
Definition minuteOfDay (d : Date) : nat := hours d * 60 + minutes d.

(** A time of day that a clock shows. *)
Definition validTime (d : Date) : Prop := (hours d < 24 /\ minutes d < 60)%nat.

(** Every recorded trigger is of an entry that was active and started at
    the recorded minute. *)
Definition wellTriggered (a : App) : Prop :=
  Forall (fun p => isActive (snd p) = true /\ startTime (snd p) = fst p)
         (triggered a).

(** No happening changes the settings. *)
Definition settingsUntouched (hs : list (World * Happening)) : Prop :=
  forall w newSettings, ~ In (w, UpdateSettings newSettings) hs.

(** No happening is a schedule command. *)
Definition scheduleUntouched (hs : list (World * Happening)) : Prop :=
  forall w m, ~ In (w, Command m) hs.

(** Only manual tests and the progress of announcements happen. *)
Definition onlyAnnouncements (hs : list (World * Happening)) : Prop :=
  forall w h, In (w, h) hs ->
              (exists item, h = TestBell item) \/ (exists n, h = Settled n).

(** Only schedule commands and settings changes happen. *)
Definition onlyEdits (hs : list (World * Happening)) : Prop :=
  forall w h, In (w, h) hs ->
              (exists m, h = Command m) \/ (exists s, h = UpdateSettings s).

(** *** More worlds *)

(** No API key is configured. *)
Definition noKeyWorld : World :=
  mkWorld
    (fun o => match o return Result (sret o) with
              | ReadGeminiApiKey => Returns None
              | SetIsAnnouncing _ => Returns tt
              | NewAudio _ => Returns tt
              | ConsoleWarn _ => Returns tt
              | ConsoleError _ => Returns tt
              | Speak _ _ => Returns tt
              end)
    (await_result fineWorld).

(** The browser has no [Audio]. *)
Definition noAudioWorld : World :=
  mkWorld
    (fun o => match o return Result (sret o) with
              | ReadGeminiApiKey => Returns (Some "key")
              | SetIsAnnouncing _ => Returns tt
              | NewAudio _ => Throws "Audio is not defined"
              | ConsoleWarn _ => Returns tt
              | ConsoleError _ => Returns tt
              | Speak _ _ => Returns tt
              end)
    (await_result fineWorld).

(** *** More remote stores and snapshots *)

(** A remote store with two schedule rows and no settings row. *)
Definition remoteWithRows : SupabaseClient :=
  mkSupabaseClient (Replied (Some [budi; siti]) None)
                   (Replied None (Some (mkPostgrestError "PGRST116"))).

(** A remote store whose schedule rows arrive but whose settings query
    fails. *)
Definition remoteWithBrokenSettings : SupabaseClient :=
  mkSupabaseClient (Replied (Some [budi; siti]) None)
                   (Replied None (Some (mkPostgrestError "42501"))).

(** A local snapshot whose schedule text is not JSON. *)
Definition brokenSnapshot : LocalStorage :=
  mkLocalStorage (Unparsable "SyntaxError: Unexpected token") NoItem.

(** A local snapshot with a schedule and settings. *)
Definition fullSnapshot : LocalStorage :=
  mkLocalStorage (Stored [siti]) (Stored otherSchool).

(** *** More states *)

(** A schedule with a single bell, at seven. *)
Definition oneBellApp : App :=
  let r := mkRender (mkDate 6 59 58) [budi] DEFAULT_SETTINGS None false false in
  mkApp r r [] [] [].

(** The same settings with another voice. *)
Definition puckVoice : AppSettings := mkAppSettings "SMP ISLAM ARRAUDHOH" true Puck.

(** A new entry at 06:30. *)
Definition earlyLesson : NewScheduleItem :=
  mkNewScheduleItem 0 "06:30" "07:00" "Joko Widodo" Bapak "Fisika" "XII-C".



(* ================================================================= *)
(** * Properties *)

(** ** [Array.prototype.sort] with a consistent comparator *)

Section SortFacts.
Variable A : Type.
Variable compareFn : A -> A -> Z.

Local Abbreviation le := (inOrder compareFn).

(** Consistency of the comparator, as the language requires of it. *)
Hypothesis compareFn_total : forall x y, (0 < compareFn x y)%Z -> le y x.
Hypothesis compareFn_trans : forall x y z, le x y -> le y z -> le x z.

Lemma insert_perm (x : A) (l : list A) : Permutation (insert compareFn x l) (x :: l).
Proof.
  induction l as [|y l IH]; simpl.
  - apply Permutation_refl.
  - destruct (compareFn x y <=? 0)%Z.
    + apply Permutation_refl.
    + eapply perm_trans; [apply perm_skip, IH | apply perm_swap].
Qed.

Lemma sort_perm (l : list A) : Permutation (sort compareFn l) l.
Proof.
  induction l as [|x l IH]; simpl.
  - constructor.
  - eapply perm_trans; [apply insert_perm | apply perm_skip, IH].
Qed.

Lemma sort_In (x : A) (l : list A) : In x (sort compareFn l) <-> In x l.
Proof.
  split; apply Permutation_in;
    [apply sort_perm | apply Permutation_sym, sort_perm].
Qed.

Lemma insert_strongly (x : A) (l : list A) :
  StronglySorted le l -> StronglySorted le (insert compareFn x l).
Proof.
  induction 1 as [|y l Hl IH Hy]; simpl.
  - repeat constructor.
  - destruct (compareFn x y <=? 0)%Z eqn:E.
    + apply Z.leb_le in E.
      constructor; [constructor; assumption|].
      constructor; [exact E|].
      eapply Forall_impl; [|exact Hy].
      intros z Hz. eapply compareFn_trans; eassumption.
    + apply Z.leb_gt in E.
      constructor; [exact IH|].
      apply (Permutation_Forall (Permutation_sym (insert_perm x l))).
      constructor; [apply compareFn_total; exact E | exact Hy].
Qed.

Lemma sort_strongly (l : list A) : StronglySorted le (sort compareFn l).
Proof.
  induction l as [|x l IH]; simpl.
  - constructor.
  - apply insert_strongly, IH.
Qed.

Lemma strongly_of_sorted (l : list A) : Sorted le l -> StronglySorted le l.
Proof.
  apply Sorted_StronglySorted. intros x y z; apply compareFn_trans.
Qed.

Lemma filter_strongly (f : A -> bool) (l : list A) :
  StronglySorted le l -> StronglySorted le (filter f l).
Proof.
  induction 1 as [|y l Hl IH Hy]; simpl.
  - constructor.
  - destruct (f y).
    + constructor; [exact IH|].
      rewrite Forall_forall in *. intros z Hz.
      apply Hy. apply filter_In in Hz. tauto.
    + exact IH.
Qed.

(** Replacing elements by elements the comparator cannot tell from them
    keeps the order. *)
Lemma map_strongly (f : A -> A) (l : list A) :
  (forall x y, In x l -> In y l -> compareFn (f x) (f y) = compareFn x y) ->
  StronglySorted le l -> StronglySorted le (map f l).
Proof.
  intros Hf Hs. induction Hs as [|y l Hl IH Hy]; simpl.
  - constructor.
  - constructor.
    + apply IH. intros x z Hx Hz. apply Hf; right; assumption.
    + rewrite Forall_forall in *. intros z Hz.
      apply in_map_iff in Hz. destruct Hz as [z' [<- Hz']].
      unfold inOrder.
      rewrite Hf; [apply Hy, Hz' | left; reflexivity | right; exact Hz'].
Qed.

(** The first element of the sorted array is a least element of the
    array. *)
Lemma sort_head_least (l : list A) (x : A) :
  (forall y, compareFn y y = 0%Z) ->
  hd_error (sort compareFn l) = Some x ->
  In x l /\ forall y, In y l -> le x y.
Proof.
  intros Hrefl Hhd.
  pose proof (sort_strongly l) as Hs.
  destruct (sort compareFn l) as [|x' s] eqn:E; [discriminate|].
  injection Hhd as ->.
  split.
  - apply sort_In. rewrite E. left; reflexivity.
  - intros y Hy. apply sort_In in Hy. rewrite E in Hy.
    destruct Hy as [<-|Hy].
    + unfold inOrder. rewrite Hrefl. lia.
    + inversion Hs as [|? ? _ Hall]; subst.
      rewrite Forall_forall in Hall. apply Hall, Hy.
Qed.

Lemma sort_nil_iff (l : list A) : sort compareFn l = [] <-> l = [].
Proof.
  split; intros H.
  - apply Permutation_nil. rewrite <- H. apply sort_perm.
  - subst. reflexivity.
Qed.

End SortFacts.

(** ** The schedule store *)

Section StoreFacts.

Variable localeCompare : string -> string -> Z.

(** The collation is a consistent comparator: swapping the arguments
    flips the sign, and the order is transitive. *)
Hypothesis localeCompare_antisym :
  forall a b, Z.sgn (localeCompare a b) = (- Z.sgn (localeCompare b a))%Z.
Hypothesis localeCompare_trans :
  forall a b c, (localeCompare a b <= 0)%Z -> (localeCompare b c <= 0)%Z ->
                (localeCompare a c <= 0)%Z.

Local Abbreviation cmp := (byStartTime localeCompare).

Lemma byStartTime_refl (x : ScheduleItem) : cmp x x = 0%Z.
Proof.
  unfold byStartTime.
  pose proof (localeCompare_antisym (startTime x) (startTime x)). lia.
Qed.

Lemma byStartTime_total (x y : ScheduleItem) :
  (0 < cmp x y)%Z -> inOrder cmp y x.
Proof.
  unfold inOrder, byStartTime. intros H.
  pose proof (localeCompare_antisym (startTime x) (startTime y)). lia.
Qed.

Lemma byStartTime_trans (x y z : ScheduleItem) :
  inOrder cmp x y -> inOrder cmp y z -> inOrder cmp x z.
Proof. unfold inOrder, byStartTime. apply localeCompare_trans. Qed.

Lemma sort_sortedByStartTime (l : list ScheduleItem) :
  sortedByStartTime localeCompare (sort cmp l).
Proof.
  apply StronglySorted_Sorted, sort_strongly.
  - exact byStartTime_total.
  - exact byStartTime_trans.
Qed.

(** With unique ids, [find] by id returns the only entry with that id. *)
Lemma find_by_id_unique (id' : string) (schedule : list ScheduleItem)
      (found : ScheduleItem) :
  NoDup (map id schedule) ->
  find (fun item => (id item =? id')%string) schedule = Some found ->
  forall x, In x schedule -> id x = id' -> x = found.
Proof.
  induction schedule as [|y l IH]; simpl; intros Hnd Hfind x Hx Hid.
  - contradiction.
  - simpl in Hnd. apply NoDup_cons_iff in Hnd. destruct Hnd as [Hnotin Hnd'].
    destruct (id y =? id')%string eqn:E.
    + injection Hfind as <-. apply String.eqb_eq in E.
      destruct Hx as [->|Hx]; [reflexivity|].
      exfalso. apply Hnotin. rewrite E, <- Hid. apply in_map, Hx.
    + destruct Hx as [->|Hx].
      * rewrite Hid, String.eqb_refl in E. discriminate.
      * apply IH; assumption.
Qed.

Lemma toggleActive_sorted (id' : string) (schedule newSchedule : list ScheduleItem) :
  NoDup (map id schedule) ->
  sortedByStartTime localeCompare schedule ->
  toggleActive id' schedule = Some newSchedule ->
  sortedByStartTime localeCompare newSchedule.
Proof.
  unfold toggleActive, sortedByStartTime. intros Hnd Hs Ht.
  destruct (find _ schedule) as [found|] eqn:Hfind; [|discriminate].
  injection Ht as <-.
  apply StronglySorted_Sorted, map_strongly.
  - assert (Hst : forall x, In x schedule ->
              startTime (if (id x =? id')%string
                         then withIsActive (negb (isActive found)) found
                         else x) = startTime x).
    { intros x Hx. destruct (id x =? id')%string eqn:E; [|reflexivity].
      apply String.eqb_eq in E.
      rewrite (find_by_id_unique _ Hnd Hfind x Hx E). reflexivity. }
    intros x y Hx Hy. unfold byStartTime.
    rewrite (Hst x Hx), (Hst y Hy). reflexivity.
  - apply strongly_of_sorted; [exact byStartTime_trans | exact Hs].
Qed.

(** *** The ids along the mutations *)

Lemma ids_handleAddSchedule (rnd : string) (newItem : NewScheduleItem)
      (schedule : list ScheduleItem) :
  Permutation (map id (handleAddSchedule localeCompare rnd newItem schedule))
              (rnd :: map id schedule).
Proof.
  unfold handleAddSchedule.
  eapply perm_trans; [apply Permutation_map, sort_perm|].
  rewrite map_app. simpl. apply Permutation_sym, Permutation_cons_append.
Qed.

Lemma ids_handleEditSchedule (updatedItem : ScheduleItem) (schedule : list ScheduleItem) :
  Permutation (map id (handleEditSchedule localeCompare updatedItem schedule))
              (map id schedule).
Proof.
  unfold handleEditSchedule.
  eapply perm_trans; [apply Permutation_map, sort_perm|].
  rewrite map_map.
  erewrite map_ext; [apply Permutation_refl|].
  intros x. simpl. destruct (id x =? id updatedItem)%string eqn:E; [|reflexivity].
  apply String.eqb_eq in E. symmetry. exact E.
Qed.

Lemma ids_handleDelete (id' : string) (schedule : list ScheduleItem) :
  NoDup (map id schedule) -> NoDup (map id (handleDelete id' schedule)).
Proof.
  unfold handleDelete. induction schedule as [|x l IH]; simpl; intros Hnd.
  - constructor.
  - apply NoDup_cons_iff in Hnd. destruct Hnd as [Hnotin Hnd].
    destruct (negb (id x =? id')%string); simpl; [|apply IH, Hnd].
    constructor; [|apply IH, Hnd].
    intros Hin. apply Hnotin.
    apply in_map_iff in Hin. destruct Hin as [y [Hy Hin]].
    apply filter_In in Hin. rewrite <- Hy. apply in_map, Hin.
Qed.

Lemma ids_toggleActive (id' : string) (schedule newSchedule : list ScheduleItem) :
  toggleActive id' schedule = Some newSchedule ->
  map id newSchedule = map id schedule.
Proof.
  unfold toggleActive. intros Ht.
  destruct (find _ schedule) as [found|] eqn:Hfind; [|discriminate].
  injection Ht as <-. rewrite map_map. apply map_ext. intros x.
  destruct (id x =? id')%string eqn:E; [|reflexivity].
  apply String.eqb_eq in E. apply find_some in Hfind. destruct Hfind as [_ Hid].
  apply String.eqb_eq in Hid. simpl. congruence.
Qed.

(** One mutation: the order, and the unique ids when an add draws a new
    one. *)
Lemma scheduleAfter_sorted_unique (m : Mutation) (schedule : list ScheduleItem) :
  sortedByStartTime localeCompare schedule ->
  NoDup (map id schedule) ->
  (forall rnd newItem, m = Add rnd newItem -> ~ In rnd (map id schedule)) ->
  sortedByStartTime localeCompare (scheduleAfter localeCompare m schedule)
  /\ NoDup (map id (scheduleAfter localeCompare m schedule)).
Proof.
  intros Hs Hnd Hfresh. unfold scheduleAfter.
  destruct m as [rnd newItem|updatedItem|id'|id']; simpl.
  - split; [apply sort_sortedByStartTime|].
    apply (Permutation_NoDup (Permutation_sym (ids_handleAddSchedule rnd newItem schedule))).
    constructor; [apply (Hfresh rnd newItem); reflexivity | exact Hnd].
  - split; [apply sort_sortedByStartTime|].
    apply (Permutation_NoDup (Permutation_sym (ids_handleEditSchedule updatedItem schedule))).
    exact Hnd.
  - split; [|apply ids_handleDelete, Hnd].
    unfold handleDelete.
    apply StronglySorted_Sorted, filter_strongly,
          strongly_of_sorted; [exact byStartTime_trans | exact Hs].
  - destruct (toggleActive id' schedule) as [newSchedule|] eqn:Ht; [|split; assumption].
    split; [eapply toggleActive_sorted; [exact Hnd | exact Hs | exact Ht]|].
    rewrite (ids_toggleActive _ _ Ht). exact Hnd.
Qed.

(** C8, as the code has it.  Add, edit and delete applied to a schedule
    that is sorted ascending by [startTime] yield a schedule that is again
    sorted.  Toggle-active does so when the entries are unique by [id].
    Along any sequence of mutations that starts from a sorted schedule with
    unique ids, and in which every add draws an id that is not in use, the
    schedule stays sorted and its ids stay unique. *)
Theorem mutation_keeps_schedule_sorted (ms : list Mutation) (schedule : list ScheduleItem) :
  sortedByStartTime localeCompare schedule ->
  (forall m, (forall id', m <> Toggle id') ->
             sortedByStartTime localeCompare (scheduleAfter localeCompare m schedule))
  /\ (NoDup (map id schedule) ->
      (forall id', sortedByStartTime localeCompare
                     (scheduleAfter localeCompare (Toggle id') schedule))
      /\ (freshIds localeCompare ms schedule ->
          sortedByStartTime localeCompare (scheduleAfterAll localeCompare ms schedule)
          /\ NoDup (map id (scheduleAfterAll localeCompare ms schedule)))).
Proof.
  intros Hs. split; [|intros Hnd; split].
  - intros m Hm. unfold scheduleAfter.
    destruct m as [rnd newItem|updatedItem|id'|id']; simpl.
    + apply sort_sortedByStartTime.
    + apply sort_sortedByStartTime.
    + unfold handleDelete.
      apply StronglySorted_Sorted, filter_strongly,
            strongly_of_sorted; [exact byStartTime_trans | exact Hs].
    + exfalso. apply (Hm id'). reflexivity.
  - intros id'.
    apply (@scheduleAfter_sorted_unique (Toggle id') schedule Hs Hnd).
    intros rnd newItem H. discriminate H.
  - revert schedule Hs Hnd.
    induction ms as [|m ms IH]; intros schedule Hs Hnd Hfresh; simpl.
    + split; assumption.
    + destruct Hfresh as [Hm Hrest].
      destruct (@scheduleAfter_sorted_unique m schedule Hs Hnd Hm) as [Hs' Hnd'].
      apply IH; assumption.
Qed.

(** C9.  The "next bell" view is an active entry of the schedule whose
    [startTime] is strictly greater than the current HH:mm string and is
    the smallest among the [startTime]s of all such entries; it is none
    exactly when no active entry has a [startTime] strictly greater than
    the current time. *)
Theorem nextBell_is_earliest_upcoming (schedule : list ScheduleItem) (currentTime : Date) :
  (forall e, nextBell localeCompare schedule currentTime = Some e ->
     In e schedule /\ isActive e = true
     /\ gtb (startTime e) (format_HHmm currentTime) = true
     /\ forall e', In e' schedule -> isActive e' = true ->
                   gtb (startTime e') (format_HHmm currentTime) = true ->
                   (localeCompare (startTime e) (startTime e') <= 0)%Z)
  /\ (nextBell localeCompare schedule currentTime = None <->
      forall e, In e schedule -> isActive e = true ->
                gtb (startTime e) (format_HHmm currentTime) = false).
Proof.
  unfold nextBell.
  set (upcoming := fun i => isActive i && gtb (startTime i) (format_HHmm currentTime)).
  split.
  - intros e Hhd.
    apply (sort_head_least byStartTime_total byStartTime_trans) in Hhd;
      [|exact byStartTime_refl].
    destruct Hhd as [Hin Hleast].
    apply filter_In in Hin. destruct Hin as [Hin Hup].
    unfold upcoming in Hup. apply andb_true_iff in Hup. destruct Hup as [Ha Hg].
    repeat split; try assumption.
    intros e' Hin' Ha' Hg'.
    apply (Hleast e'). apply filter_In. split; [exact Hin'|].
    unfold upcoming. rewrite Ha', Hg'. reflexivity.
  - split.
    + intros Hnone e Hin Ha.
      destruct (gtb (startTime e) (format_HHmm currentTime)) eqn:Hg; [|reflexivity].
      exfalso.
      assert (Hf : In e (filter upcoming schedule)).
      { apply filter_In. split; [exact Hin|]. unfold upcoming. rewrite Ha, Hg. reflexivity. }
      destruct (sort cmp (filter upcoming schedule)) as [|x s] eqn:E; [|discriminate].
      apply sort_nil_iff in E. rewrite E in Hf. contradiction.
    + intros Hall.
      assert (E : filter upcoming schedule = []).
      { destruct (filter upcoming schedule) as [|x s] eqn:E; [reflexivity|].
        assert (Hx : In x (filter upcoming schedule)) by (rewrite E; left; reflexivity).
        apply filter_In in Hx. destruct Hx as [Hin Hup].
        unfold upcoming in Hup. apply andb_true_iff in Hup. destruct Hup as [Ha Hg].
        rewrite (Hall x Hin Ha) in Hg. discriminate. }
      rewrite E. reflexivity.
Qed.

End StoreFacts.

(** *** The code-unit order is a consistent comparator *)

Lemma codeUnitCompare_antisym (a b : string) :
  Z.sgn (codeUnitCompare a b) = (- Z.sgn (codeUnitCompare b a))%Z.
Proof.
  unfold codeUnitCompare. rewrite String.compare_antisym.
  destruct (b ?= a)%string; reflexivity.
Qed.

Lemma string_compare_not_gt_trans (a : string) :
  forall b c, (a ?= b)%string <> Gt -> (b ?= c)%string <> Gt -> (a ?= c)%string <> Gt.
Proof.
  induction a as [|x a IH]; intros [|y b] [|z c]; simpl; try congruence.
  unfold Ascii.compare.
  destruct (N.compare_spec (N_of_ascii x) (N_of_ascii y)) as [Hxy|Hxy|Hxy];
    destruct (N.compare_spec (N_of_ascii y) (N_of_ascii z)) as [Hyz|Hyz|Hyz];
    destruct (N.compare_spec (N_of_ascii x) (N_of_ascii z)) as [Hxz|Hxz|Hxz];
    try congruence; try lia.
  apply IH.
Qed.

Lemma codeUnitCompare_trans (a b c : string) :
  (codeUnitCompare a b <= 0)%Z -> (codeUnitCompare b c <= 0)%Z ->
  (codeUnitCompare a c <= 0)%Z.
Proof.
  unfold codeUnitCompare. intros Hab Hbc.
  pose proof (@string_compare_not_gt_trans a b c) as H.
  destruct (a ?= b)%string, (b ?= c)%string, (a ?= c)%string;
    try lia; exfalso; apply H; congruence.
Qed.

Lemma mutation_keeps_schedule_sorted_witness :
  sortedByStartTime codeUnitCompare
    (scheduleAfterAll codeUnitCompare
       [Add "k3x9" noonLesson; Toggle "3"; Edit (withIsActive false budi); Delete "2"]
       DEFAULT_SCHEDULE).
Proof.
  refine (proj1 (proj2 (proj2 (@mutation_keeps_schedule_sorted codeUnitCompare
                                 codeUnitCompare_antisym codeUnitCompare_trans
                                 [Add "k3x9" noonLesson; Toggle "3";
                                  Edit (withIsActive false budi); Delete "2"]
                                 DEFAULT_SCHEDULE _) _) _)).
  - repeat constructor; vm_compute; discriminate.
  - repeat constructor; simpl; intuition discriminate.
  - simpl. repeat split; try (intros rnd newItem H; discriminate H).
    intros rnd newItem H. injection H as <- _. simpl. intuition discriminate.
Defined.

(** A sorted array is in order at every two neighbours. *)
Ltac unsorted H :=
  repeat match type of H with
         | Sorted _ (_ :: _) =>
             let Hhd := fresh "Hhd" in
             apply Sorted_inv in H; destruct H as [H Hhd];
             try (apply HdRel_inv in Hhd; vm_compute in Hhd; exfalso; apply Hhd;
                  reflexivity)
         end.

(** C8, counterexample: a sorted schedule in which two entries carry the
    same id is out of order after toggle-active, because line 258 replaces
    every entry that carries the id by the toggled copy of the first one,
    start time included.  Such a schedule is what an add that draws an id
    already in use leaves behind. *)
Lemma toggle_with_shared_id_breaks_order :
  (sortedByStartTime codeUnitCompare sharedIdSchedule
   /\ map startTime (scheduleAfter codeUnitCompare (Toggle "x") sharedIdSchedule)
      = ["07:00"; "07:30"; "07:00"]
   /\ ~ sortedByStartTime codeUnitCompare
         (scheduleAfter codeUnitCompare (Toggle "x") sharedIdSchedule))
  /\ (sortedByStartTime codeUnitCompare DEFAULT_SCHEDULE
      /\ NoDup (map id DEFAULT_SCHEDULE)
      /\ ~ sortedByStartTime codeUnitCompare
            (scheduleAfterAll codeUnitCompare [Add "1" noonLesson; Toggle "1"]
                              DEFAULT_SCHEDULE)).
Proof.
  split; split.
  - repeat constructor; vm_compute; discriminate.
  - split; [reflexivity|].
    intros H. vm_compute in H. unsorted H.
  - repeat constructor; vm_compute; discriminate.
  - split; [repeat constructor; simpl; intuition discriminate|].
    intros H. vm_compute in H. unsorted H.
Qed.

Lemma nextBell_is_earliest_upcoming_witness :
  nextBell codeUnitCompare DEFAULT_SCHEDULE (mkDate 7 50 0) = nth_error DEFAULT_SCHEDULE 2
  /\ (forall e', In e' DEFAULT_SCHEDULE -> isActive e' = true ->
                 gtb (startTime e') "07:50" = true ->
                 (codeUnitCompare "08:30" (startTime e') <= 0)%Z)
  /\ (nextBell codeUnitCompare DEFAULT_SCHEDULE (mkDate 11 0 0) = None <->
      forall e, In e DEFAULT_SCHEDULE -> isActive e = true ->
                gtb (startTime e) "11:00" = false).
Proof.
  pose proof (@nextBell_is_earliest_upcoming codeUnitCompare
                codeUnitCompare_antisym codeUnitCompare_trans) as H.
  split; [reflexivity|]. split.
  - destruct (H DEFAULT_SCHEDULE (mkDate 7 50 0)) as [Hsome _].
    apply (Hsome (mkScheduleItem "3" 3 "08:30" "09:15" "Siti Aminah" Ibu
                                 "Bahasa Indonesia" "XI-B" true) eq_refl).
  - apply (H DEFAULT_SCHEDULE (mkDate 11 0 0)).
Defined.

(** ** Resumption trees *)

Section RunFacts.
Variable w : World.

Lemma run_bind {A B : Type} (p : Async A) (f : A -> Async B) :
  run w (bind p f) =
  match run w p with
  | (t, Done a) => let (t', x) := run w (f a) in (t ++ t', x)
  | (t, Uncaught e) => (t, Uncaught e)
  | (t, Stuck) => (t, Stuck)
  end.
Proof.
  induction p as [a|e|o k IH|o k IH]; simpl.
  - destruct (run w (f a)); reflexivity.
  - reflexivity.
  - rewrite IH. destruct (run w (k (sync_result w o))) as [t [a|e|]];
      try reflexivity.
    destruct (run w (f a)); reflexivity.
  - destruct (await_result w o) as [r|]; [|reflexivity].
    rewrite IH. destruct (run w (k r)) as [t [a|e|]]; try reflexivity.
    destruct (run w (f a)); reflexivity.
Qed.

Lemma run_tryCatch {A : Type} (p : Async A) (h : JsError -> Async A) :
  run w (tryCatch p h) =
  match run w p with
  | (t, Done a) => (t, Done a)
  | (t, Uncaught e) => let (t', x) := run w (h e) in (t ++ t', x)
  | (t, Stuck) => (t, Stuck)
  end.
Proof.
  induction p as [a|e|o k IH|o k IH]; simpl.
  - reflexivity.
  - destruct (run w (h e)); reflexivity.
  - rewrite IH. destruct (run w (k (sync_result w o))) as [t [a|e|]];
      try reflexivity.
    destruct (run w (h e)); reflexivity.
  - destruct (await_result w o) as [r|]; [|reflexivity].
    rewrite IH. destruct (run w (k r)) as [t [a|e|]]; try reflexivity.
    destruct (run w (h e)); reflexivity.
Qed.

(** [finally] with a block that makes one call that cannot throw. *)
Lemma run_finally_perform {A : Type} (p : Async A) (o : SyncOp) :
  run w (finally p (perform o)) =
  match run w p with
  | (t, Done a) => (t ++ [Did o], Done a)
  | (t, Uncaught e) => (t ++ [Did o], Uncaught e)
  | (t, Stuck) => (t, Stuck)
  end.
Proof.
  induction p as [a|e|o' k IH|o' k IH]; simpl.
  - reflexivity.
  - reflexivity.
  - rewrite IH. destruct (run w (k (sync_result w o'))) as [t [a|e|]];
      reflexivity.
  - destruct (await_result w o') as [r|]; [|reflexivity].
    rewrite IH. destruct (run w (k r)) as [t [a|e|]]; reflexivity.
Qed.

(** A run is stuck only on a promise that never settles. *)
Lemma run_stuck {A : Type} (p : Async A) :
  snd (run w p) = Stuck -> exists o, await_result w o = None.
Proof.
  induction p as [a|e|o k IH|o k IH]; simpl; try discriminate.
  - destruct (run w (k (sync_result w o))) as [t x] eqn:E. simpl.
    intros ->. apply (IH (sync_result w o)). rewrite E. reflexivity.
  - destruct (await_result w o) as [r|] eqn:Eo.
    + destruct (run w (k r)) as [t x] eqn:E. simpl.
      intros ->. apply (IH r). rewrite E. reflexivity.
    + intros _. exists o. exact Eo.
Qed.

Lemma run_avoids {A : Type} (bad : Event -> bool) (p : Async A) :
  avoids bad p -> Forall (fun ev => bad ev = false) (fst (run w p)).
Proof.
  induction p as [a|e|o k IH|o k IH]; simpl; intros Hq.
  - constructor.
  - constructor.
  - destruct Hq as [Ho Hk].
    specialize (IH _ (Hk (sync_result w o))).
    destruct (run w (k (sync_result w o))) as [t x]. simpl in *.
    constructor; assumption.
  - destruct Hq as [Ho Hk].
    destruct (await_result w o) as [r|].
    + specialize (IH _ (Hk r)).
      destruct (run w (k r)) as [t x]. simpl in *.
      constructor; assumption.
    + simpl. constructor; [assumption | constructor].
Qed.

Lemma run_neverThrows {A : Type} (p : Async A) :
  neverThrows p -> forall e, snd (run w p) <> Uncaught e.
Proof.
  induction p as [a|e|o k IH|o k IH]; simpl; intros Hn e'.
  - discriminate.
  - contradiction.
  - specialize (IH _ (Hn (sync_result w o)) e').
    destruct (run w (k (sync_result w o))) as [t x]. exact IH.
  - destruct (await_result w o) as [r|]; [|discriminate].
    specialize (IH _ (Hn r) e').
    destruct (run w (k r)) as [t x]. exact IH.
Qed.

End RunFacts.

Lemma filter_none {X : Type} (f : X -> bool) (l : list X) :
  Forall (fun x => f x = false) l -> filter f l = [].
Proof.
  induction 1 as [|x l Hx _ IH]; simpl; [reflexivity|].
  rewrite Hx. exact IH.
Qed.

Lemma avoids_bind {A B : Type} (bad : Event -> bool) (p : Async A) (f : A -> Async B) :
  avoids bad p -> (forall a, avoids bad (f a)) -> avoids bad (bind p f).
Proof.
  intros Hp Hf. induction p as [a|e|o k IH|o k IH]; simpl in *.
  - apply Hf.
  - exact I.
  - destruct Hp as [Ho Hk]. split; [exact Ho|]. intros r. apply IH, Hk.
  - destruct Hp as [Ho Hk]. split; [exact Ho|]. intros r. apply IH, Hk.
Qed.

Lemma avoids_tryCatch {A : Type} (bad : Event -> bool) (p : Async A)
      (h : JsError -> Async A) :
  avoids bad p -> (forall e, avoids bad (h e)) -> avoids bad (tryCatch p h).
Proof.
  intros Hp Hh. induction p as [a|e|o k IH|o k IH]; simpl in *.
  - exact I.
  - apply Hh.
  - destruct Hp as [Ho Hk]. split; [exact Ho|]. intros r. apply IH, Hk.
  - destruct Hp as [Ho Hk]. split; [exact Ho|]. intros r. apply IH, Hk.
Qed.

Lemma avoids_settle {X : Type} (bad : Event -> bool) (r : Result X) :
  avoids bad (settle r).
Proof. destruct r; exact I. Qed.

Lemma neverThrows_tryCatch {A : Type} (p : Async A) (h : JsError -> Async A) :
  (forall e, neverThrows (h e)) -> neverThrows (tryCatch p h).
Proof.
  intros Hh. induction p as [a|e|o k IH|o k IH]; simpl.
  - exact I.
  - apply Hh.
  - intros r. apply IH.
  - intros r. apply IH.
Qed.

(** Splits a goal [avoids bad p] along the structure of [p]. *)
Ltac avoids_step :=
  first
    [ exact I
    | reflexivity
    | apply avoids_settle
    | apply avoids_tryCatch
    | apply avoids_bind
    | match goal with
      | |- _ /\ _ => split
      | |- forall _, _ => intro
      | |- context [match ?x with _ => _ end] => destruct x
      end
    | progress simpl ].

Ltac avoids_tac := repeat avoids_step.

(** ** The services *)

(** Neither service writes the state of the component or speaks. *)
Lemma generateAnnouncementAudio_quiet (text : string) (voice : VoiceName) :
  avoids writesIsAnnouncing (generateAnnouncementAudio text voice)
  /\ avoids speaks (generateAnnouncementAudio text voice).
Proof. unfold generateAnnouncementAudio, GeminiService.getAI. avoids_tac. Qed.

Lemma playAudioFromBase64_quiet (base64Data : string) :
  avoids writesIsAnnouncing (playAudioFromBase64 base64Data)
  /\ avoids speaks (playAudioFromBase64 base64Data).
Proof. unfold playAudioFromBase64. avoids_tac. Qed.

(** [generateAnnouncementAudio] never rejects (lines 28-31 catch
    everything). *)
Lemma generateAnnouncementAudio_neverThrows (text : string) (voice : VoiceName) :
  neverThrows (generateAnnouncementAudio text voice).
Proof.
  unfold generateAnnouncementAudio. apply neverThrows_tryCatch.
  intros e. simpl. intros _. exact I.
Qed.

Lemma triggerBell_play_quiet (text : string) (audioData : option string) :
  avoids writesIsAnnouncing (triggerBell_play text audioData).
Proof.
  unfold triggerBell_play. destruct (usable audioData) as [audio|].
  - apply avoids_tryCatch; [apply playAudioFromBase64_quiet|].
    intros e. unfold browserTTS. avoids_tac.
  - unfold browserTTS. avoids_tac.
Qed.

Lemma triggerBell_try_quiet (r : Render) (item : ScheduleItem) :
  avoids writesIsAnnouncing (triggerBell_try r item).
Proof.
  unfold triggerBell_try.
  apply avoids_bind; [avoids_tac|]. intros _.
  apply avoids_bind; [avoids_tac|]. intros _.
  apply avoids_bind; [apply generateAnnouncementAudio_quiet|]. intros audioData.
  apply triggerBell_play_quiet.
Qed.

(** ** The announcement sequence *)

Lemma isAnnouncingAfter_app (t1 t2 : list Event) (b : bool) :
  isAnnouncingAfter (t1 ++ t2) b = isAnnouncingAfter t2 (isAnnouncingAfter t1 b).
Proof.
  revert b. induction t1 as [|ev t1 IH]; intros b; simpl; [reflexivity|].
  destruct ev as [[]|]; apply IH.
Qed.

Lemma isAnnouncingAfter_quiet (t : list Event) (b : bool) :
  Forall (fun ev => writesIsAnnouncing ev = false) t -> isAnnouncingAfter t b = b.
Proof.
  induction 1 as [|ev t Hev _ IH]; simpl; [reflexivity|].
  destruct ev as [[]|]; try discriminate; exact IH.
Qed.

Lemma run_perform_then {B : Type} (w : World) (o : SyncOp) (f : unit -> Async B) :
  run w (bind (perform o) f) = let (t, x) := run w (f tt) in (Did o :: t, x).
Proof. reflexivity. Qed.

(** The run of a call that passes the guard of line 157, in terms of the
    run of the guarded body. *)
Lemma run_triggerBell (w : World) (r : Render) (item : ScheduleItem) :
  isAnnouncing r = false ->
  run w (triggerBell r item) =
  match run w (tryCatch (triggerBell_try r item)
                        (fun _ => perform (ConsoleError "Failed to trigger bell:"))) with
  | (t, Done a) =>
      (Did (SetIsAnnouncing true) :: t ++ [Did (SetIsAnnouncing false)], Done a)
  | (t, Uncaught e) =>
      (Did (SetIsAnnouncing true) :: t ++ [Did (SetIsAnnouncing false)], Uncaught e)
  | (t, Stuck) => (Did (SetIsAnnouncing true) :: t, Stuck)
  end.
Proof.
  intros Hr. unfold triggerBell. rewrite Hr.
  rewrite run_perform_then, run_finally_perform.
  destruct (run w (tryCatch _ _)) as [t [a|e|]]; reflexivity.
Qed.

Lemma triggerBell_guarded_quiet (r : Render) (item : ScheduleItem) :
  avoids writesIsAnnouncing
    (tryCatch (triggerBell_try r item)
              (fun _ => perform (ConsoleError "Failed to trigger bell:"))).
Proof.
  apply avoids_tryCatch; [apply triggerBell_try_quiet|]. avoids_tac.
Qed.

Lemma triggerBell_guarded_neverThrows (r : Render) (item : ScheduleItem) :
  neverThrows
    (tryCatch (triggerBell_try r item)
              (fun _ => perform (ConsoleError "Failed to trigger bell:"))).
Proof. apply neverThrows_tryCatch. intros e. simpl. intros _. exact I. Qed.

(** C4.  A run of [triggerBell] that passes the guard writes
    [isAnnouncing = true] as its very first call, before any suspension
    point, and makes no other write of [isAnnouncing] until it exits.
    Whenever it exits -- and it can only exit by returning: whatever the
    body throws, after a failed synthesis, a failed playback or a failing
    fallback, is caught -- its last call is the write of
    [isAnnouncing = false].  The only runs that do not exit are those
    suspended on a promise that never settles. *)
Theorem triggerBell_sets_then_clears_isAnnouncing
        (w : World) (r : Render) (item : ScheduleItem) :
  isAnnouncing r = false ->
  exists body,
    Forall (fun ev => writesIsAnnouncing ev = false) body
    /\ match run w (triggerBell r item) with
       | (trace, Done _) =>
           trace = Did (SetIsAnnouncing true) :: body ++ [Did (SetIsAnnouncing false)]
           /\ forall b, isAnnouncingAfter trace b = false
       | (trace, Uncaught _) => False
       | (trace, Stuck) =>
           trace = Did (SetIsAnnouncing true) :: body
           /\ (forall b, isAnnouncingAfter trace b = true)
           /\ exists o, await_result w o = None
       end.
Proof.
  intros Hr. rewrite (@run_triggerBell w r item Hr).
  pose proof (run_avoids w _ _ (triggerBell_guarded_quiet r item)) as Hq.
  pose proof (run_neverThrows w _ (triggerBell_guarded_neverThrows r item)) as Hn.
  pose proof (@run_stuck w _ (tryCatch (triggerBell_try r item)
                (fun _ => perform (ConsoleError "Failed to trigger bell:")))) as Hs.
  destruct (run w (tryCatch _ _)) as [t [a|e|]]; simpl in *.
  - exists t. split; [exact Hq|]. split; [reflexivity|].
    intros b. rewrite isAnnouncingAfter_app. reflexivity.
  - exfalso. apply (Hn e). reflexivity.
  - exists t. split; [exact Hq|]. split; [reflexivity|]. split.
    + intros b. apply isAnnouncingAfter_quiet. exact Hq.
    + apply Hs. reflexivity.
Qed.

Lemma triggerBell_sets_then_clears_isAnnouncing_witness :
  exists body,
    Forall (fun ev => writesIsAnnouncing ev = false) body
    /\ match run brokenAudioWorld (triggerBell idleRender budi) with
       | (trace, Done _) =>
           trace = Did (SetIsAnnouncing true) :: body ++ [Did (SetIsAnnouncing false)]
           /\ forall b, isAnnouncingAfter trace b = false
       | (trace, Uncaught _) => False
       | (trace, Stuck) =>
           trace = Did (SetIsAnnouncing true) :: body
           /\ (forall b, isAnnouncingAfter trace b = true)
           /\ exists o, await_result brokenAudioWorld o = None
       end.
Proof.
  apply (@triggerBell_sets_then_clears_isAnnouncing brokenAudioWorld idleRender budi).
  reflexivity.
Defined.

(** *** The announcement text *)

Lemma prefix_append (s t : string) : prefix s (s ++ t)%string = true.
Proof.
  induction s as [|c s IH]; simpl; [destruct t; reflexivity|].
  destruct (ascii_dec c c) as [_|n]; [exact IH | exfalso; apply n; reflexivity].
Qed.

Lemma prefix_append_left (s a t : string) :
  prefix s a = true -> prefix s (a ++ t)%string = true.
Proof.
  revert a. induction s as [|c s IH]; intros a H;
    [destruct (a ++ t)%string; reflexivity|].
  destruct a as [|d a]; simpl in *; [discriminate|].
  destruct (ascii_dec c d); [apply IH; exact H | discriminate].
Qed.

Lemma includes_unfold (s : string) (c : ascii) (hay : string) :
  includes s (String c hay) = if prefix s (String c hay) then true else includes s hay.
Proof. reflexivity. Qed.

Lemma includes_prefix (s hay : string) : prefix s hay = true -> includes s hay = true.
Proof. intros H. destruct hay; simpl in *; rewrite H; reflexivity. Qed.

Lemma includes_here (s t : string) : includes s (s ++ t)%string = true.
Proof. apply includes_prefix, prefix_append. Qed.

Lemma includes_skip (s a t : string) :
  includes s t = true -> includes s (a ++ t)%string = true.
Proof.
  intros H. induction a as [|c a IH]; [exact H|].
  change (String c a ++ t)%string with (String c (a ++ t)%string).
  rewrite includes_unfold, IH. destruct (prefix s _); reflexivity.
Qed.

Lemma includes_append_left (s a t : string) :
  includes s a = true -> includes s (a ++ t)%string = true.
Proof.
  induction a as [|c a IH]; intros H.
  - destruct s; [simpl; destruct t; reflexivity | discriminate].
  - change (String c a ++ t)%string with (String c (a ++ t)%string).
    rewrite includes_unfold in H. rewrite includes_unfold.
    destruct (prefix s (String c a)) eqn:E.
    + change (String c (a ++ t)%string) with (String c a ++ t)%string.
      rewrite (@prefix_append_left s (String c a) t E). reflexivity.
    + rewrite (IH H). destruct (prefix s (String c (a ++ t)%string)); reflexivity.
Qed.

Lemma avoids_finally {A : Type} (bad : Event -> bool) (p : Async A) (f : Async unit) :
  avoids bad p -> avoids bad f -> avoids bad (finally p f).
Proof.
  intros Hp Hf. induction p as [a|e|o k IH|o k IH]; simpl in *.
  - apply avoids_bind; [exact Hf | intros _; exact I].
  - apply avoids_bind; [exact Hf | intros _; exact I].
  - destruct Hp as [Ho Hk]. split; [exact Ho|]. intros r. apply IH, Hk.
  - destruct Hp as [Ho Hk]. split; [exact Ho|]. intros r. apply IH, Hk.
Qed.

(** The only text that leaves [triggerBell], to the provider or to the
    browser's speech synthesis, is the announcement text of the entry. *)
Lemma triggerBell_says_announcementText (r : Render) (item : ScheduleItem) :
  avoids (saysOtherThan (announcementText item)) (triggerBell r item).
Proof.
  assert (Hspeak : avoids (saysOtherThan (announcementText item))
                          (browserTTS (announcementText item))).
  { unfold browserTTS, call. simpl. rewrite String.eqb_refl.
    split; [reflexivity | intros res; apply avoids_settle]. }
  unfold triggerBell. destruct (isAnnouncing r); [exact I|].
  apply avoids_bind; [avoids_tac|]. intros _.
  apply avoids_finally; [|avoids_tac].
  apply avoids_tryCatch; [|avoids_tac].
  unfold triggerBell_try.
  apply avoids_bind; [avoids_tac|]. intros _.
  apply avoids_bind; [avoids_tac|]. intros _.
  apply avoids_bind.
  - unfold generateAnnouncementAudio, GeminiService.getAI.
    apply avoids_tryCatch; [|avoids_tac].
    apply avoids_bind; [avoids_tac|]. intros key.
    apply avoids_bind; [|intros response; exact I].
    unfold await. simpl. rewrite String.eqb_refl.
    split; [reflexivity | intros res; apply avoids_settle].
  - intros audioData. unfold triggerBell_play.
    destruct (usable audioData) as [audio|].
    + apply avoids_tryCatch.
      * unfold playAudioFromBase64, oncanplaythrough. avoids_tac.
      * intros playError. apply avoids_bind; [avoids_tac | intros _; exact Hspeak].
    + apply avoids_bind; [avoids_tac | intros _; exact Hspeak].
Qed.

(** C5, as the code has it.  The announcement text is the template literal
    of line 171 filled with the entry: the fixed greeting of line 170,
    which names the school "SMP ISLAM ARRAUDHOH" whatever the settings
    say, followed by the attention sentence with the entry's period (as
    JavaScript prints the number), startTime, honorific, teacher, subject
    and className, in this order and none omitted.  Whatever the outside
    does and whatever the render holds, this is the only text that
    [triggerBell] hands to the speech provider and to the browser's speech
    synthesis; two renders that differ in their settings' schoolName make
    the same calls for the same entry. *)
Theorem announcementText_fixed_template (item : ScheduleItem) :
  announcementText item
  = ("Assalamualaikum warahmatullohi wabarokatuh, kepada siswa SMP ISLAM ARRAUDHOH. "
     ++ " Perhatian. Jam ke " ++ numberToString (period item)
     ++ ". Pukul " ++ startTime item
     ++ ". " ++ genderToString (gender item)
     ++ " Guru " ++ teacher item
     ++ ", pengampu mata pelajaran " ++ subject item
     ++ ", dipersilakan masuk kelas " ++ className item
     ++ ". Selamat belajar.")%string
  /\ prefix greeting (announcementText item) = true
  /\ includes "SMP ISLAM ARRAUDHOH" (announcementText item) = true
  /\ includes " Perhatian. Jam ke " (announcementText item) = true
  /\ includes (numberToString (period item)) (announcementText item) = true
  /\ includes (startTime item) (announcementText item) = true
  /\ includes (genderToString (gender item)) (announcementText item) = true
  /\ includes (teacher item) (announcementText item) = true
  /\ includes (subject item) (announcementText item) = true
  /\ includes (className item) (announcementText item) = true
  /\ (forall w r ev,
         In ev (fst (run w (triggerBell r item))) ->
         (forall text voice,
             ev = Awaited (GenerateContent text voice) -> text = announcementText item)
         /\ (forall text lang,
                ev = Did (Speak text lang) -> text = announcementText item))
  /\ forall r name,
       triggerBell
         (mkRender (currentTime r) (schedule r)
                   (mkAppSettings name (isAutoEnabled (settings r))
                                  (voiceName (settings r)))
                   (lastTriggered r) (isAnnouncing r) (isLoading r)) item
       = triggerBell r item.
Proof.
  split; [reflexivity|].
  unfold announcementText.
  split; [apply prefix_append|].
  split; [apply includes_append_left; reflexivity|].
  repeat match goal with
         | |- includes _ _ = true /\ _ => split
         end;
    try (repeat first [apply includes_here | apply includes_skip]).
  split; [|intros r name; reflexivity].
  intros w r ev Hin.
  pose proof (run_avoids w _ _ (triggerBell_says_announcementText r item)) as Hall.
  rewrite Forall_forall in Hall. specialize (Hall ev Hin).
  split.
  - intros text voice ->. simpl in Hall.
    apply negb_false_iff, String.eqb_eq in Hall. exact Hall.
  - intros text lang ->. simpl in Hall.
    apply negb_false_iff, String.eqb_eq in Hall. exact Hall.
Qed.

(** C5, counterexample: with the settings of another
    school, the text handed to the synthesis does not name that school; it
    names the school of line 170. *)
Lemma greeting_is_not_taken_from_settings :
  let r := mkRender sevenSharp DEFAULT_SCHEDULE otherSchool None false false in
  In (Awaited (GenerateContent (announcementText budi) (voiceName (settings r))))
     (fst (run fineWorld (triggerBell r budi)))
  /\ includes (schoolName (settings r)) (announcementText budi) = false
  /\ includes "SMP ISLAM ARRAUDHOH" (announcementText budi) = true.
Proof.
  simpl. split; [|split; reflexivity].
  vm_compute. tauto.
Qed.

(** *** Synthesis, playback and the fallback *)

(** The body of the [try], once the chime is over. *)
Lemma run_triggerBell_try (w : World) (r : Render) (item : ScheduleItem)
      (c : ChimeResolution) :
  sync_result w (NewAudio (Some CHIME_URL)) = Returns tt ->
  await_result w ChimePromise = Some (Returns c) ->
  run w (triggerBell_try r item) =
  match run w (generateAnnouncementAudio (announcementText item)
                                         (voiceName (settings r))) with
  | (ts, Done audioData) =>
      let (tp, x) := run w (triggerBell_play (announcementText item) audioData) in
      (Did (NewAudio (Some CHIME_URL)) :: Awaited ChimePromise :: ts ++ tp, x)
  | (ts, Uncaught e) =>
      (Did (NewAudio (Some CHIME_URL)) :: Awaited ChimePromise :: ts, Uncaught e)
  | (ts, Stuck) =>
      (Did (NewAudio (Some CHIME_URL)) :: Awaited ChimePromise :: ts, Stuck)
  end.
Proof.
  intros Hnew Hchime. unfold triggerBell_try, call, await.
  cbn [bind run]. rewrite Hnew. cbn [settle bind run]. rewrite Hchime.
  cbn [settle bind]. rewrite run_bind.
  destruct (run w (generateAnnouncementAudio _ _)) as [ts [audioData|e|]];
    try reflexivity.
  destruct (run w (triggerBell_play _ _)) as [tp x]. reflexivity.
Qed.

(** What the browser's speech synthesis is asked to say while the audio is
    played or replaced. *)
Lemma said_triggerBell_play (w : World) (text : string) (audioData : option string) :
  filter speaks (fst (run w (triggerBell_play text audioData))) =
  match usable audioData with
  | None => [Did (Speak text "id-ID")]
  | Some audio =>
      match snd (run w (playAudioFromBase64 audio)) with
      | Uncaught _ => [Did (Speak text "id-ID")]
      | _ => []
      end
  end.
Proof.
  unfold triggerBell_play. destruct (usable audioData) as [audio|].
  - rewrite run_tryCatch.
    pose proof (filter_none _ (run_avoids w _ _ (proj2 (playAudioFromBase64_quiet audio))))
      as Hsilent.
    destruct (run w (playAudioFromBase64 audio)) as [tp [u|e|]]; simpl in *;
      try exact Hsilent.
    destruct (sync_result w (Speak text "id-ID")) as [u|e']; simpl;
      rewrite filter_app, Hsilent; reflexivity.
  - simpl. destruct (sync_result w (Speak text "id-ID")); reflexivity.
Qed.

(** The speech calls of a whole run are those of its last stage. *)
Lemma said_triggerBell (w : World) (r : Render) (item : ScheduleItem)
      (c : ChimeResolution) (ts : list Event) (audioData : option string) :
  isAnnouncing r = false ->
  sync_result w (NewAudio (Some CHIME_URL)) = Returns tt ->
  await_result w ChimePromise = Some (Returns c) ->
  run w (generateAnnouncementAudio (announcementText item) (voiceName (settings r)))
  = (ts, Done audioData) ->
  filter speaks (fst (run w (triggerBell r item))) =
  filter speaks (fst (run w (triggerBell_play (announcementText item) audioData))).
Proof.
  intros Hr Hnew Hchime Hgen.
  pose proof (filter_none _ (run_avoids w _ _
                (proj2 (generateAnnouncementAudio_quiet (announcementText item)
                                                        (voiceName (settings r))))))
    as Hsilent.
  rewrite Hgen in Hsilent. simpl in Hsilent.
  rewrite (@run_triggerBell w r item Hr), run_tryCatch,
          (@run_triggerBell_try w r item c Hnew Hchime), Hgen.
  destruct (run w (triggerBell_play _ _)) as [tp [u|e|]]; simpl;
    rewrite ?filter_app, ?Hsilent; simpl; rewrite ?app_nil_r; reflexivity.
Qed.

(** C6.  Once the chime is over and the synthesis call has returned: if it
    returned no usable audio, or if the playback of the returned audio
    fails, the browser's speech synthesis is invoked, once, with exactly
    the composed text and the locale "id-ID" -- the sequence goes on
    instead of stopping there; if the synthesis returned usable audio and
    the playback succeeds (or is still going on), the fallback is not
    invoked. *)
Theorem fallback_speech_iff_synthesis_or_playback_fails
        (w : World) (r : Render) (item : ScheduleItem) (c : ChimeResolution)
        (ts : list Event) (audioData : option string) :
  isAnnouncing r = false ->
  sync_result w (NewAudio (Some CHIME_URL)) = Returns tt ->
  await_result w ChimePromise = Some (Returns c) ->
  run w (generateAnnouncementAudio (announcementText item) (voiceName (settings r)))
  = (ts, Done audioData) ->
  let said := filter speaks (fst (run w (triggerBell r item))) in
  match usable audioData with
  | None => said = [Did (Speak (announcementText item) "id-ID")]
  | Some audio =>
      match snd (run w (playAudioFromBase64 audio)) with
      | Uncaught _ => said = [Did (Speak (announcementText item) "id-ID")]
      | Done _ => said = []
      | Stuck => said = []
      end
  end.
Proof.
  intros Hr Hnew Hchime Hgen said. subst said.
  rewrite (@said_triggerBell w r item c ts audioData Hr Hnew Hchime Hgen),
          said_triggerBell_play.
  destruct (usable audioData) as [audio|]; [|reflexivity].
  destruct (snd (run w (playAudioFromBase64 audio))); reflexivity.
Qed.

Lemma fallback_speech_iff_synthesis_or_playback_fails_witness :
  filter speaks (fst (run muteWorld (triggerBell idleRender budi)))
  = [Did (Speak (announcementText budi) "id-ID")]
  /\ filter speaks (fst (run brokenAudioWorld (triggerBell idleRender budi)))
     = [Did (Speak (announcementText budi) "id-ID")]
  /\ filter speaks (fst (run fineWorld (triggerBell idleRender budi))) = [].
Proof.
  split; [|split].
  - exact (@fallback_speech_iff_synthesis_or_playback_fails
             muteWorld idleRender budi OnEnded _ None
             eq_refl eq_refl eq_refl eq_refl).
  - exact (@fallback_speech_iff_synthesis_or_playback_fails
             brokenAudioWorld idleRender budi OnEnded _ (Some "QUJD")
             eq_refl eq_refl eq_refl eq_refl).
  - exact (@fallback_speech_iff_synthesis_or_playback_fails
             fineWorld idleRender budi OnEnded _ (Some "QUJD")
             eq_refl eq_refl eq_refl eq_refl).
Defined.

(** *** Announcements in flight *)

(** Running a function that is inside the [try] of [triggerBell]: it
    either leaves, and [isAnnouncing] is false, or suspends again, still
    inside the [try]. *)
Lemma exec_in_sequence (w : World) (p : Async unit) :
  forall a,
    let a' := exec w (finally p (perform (SetIsAnnouncing false))) a in
    (inflight a' = inflight a /\ isAnnouncing (latest a') = false)
    \/ (exists pk, inSequence pk /\ inflight a' = inflight a ++ [pk]).
Proof.
  induction p as [u|e|o k IH|o k IH]; intros a; simpl.
  - left. split; reflexivity.
  - left. split; reflexivity.
  - destruct (IH (sync_result w o) (did o a)) as [[Hin Hflag]|[pk [Hpk Hin]]].
    + left. split; [|exact Hflag]. rewrite Hin. destruct o; reflexivity.
    + right. exists pk. split; [exact Hpk|]. rewrite Hin. destruct o; reflexivity.
  - right. exists (@mkParked o (fun r => finally (k r) (perform (SetIsAnnouncing false)))).
    split; [exists k; reflexivity | reflexivity].
Qed.

Lemma exec_triggerBell_consistent (w : World) (r : Render) (item : ScheduleItem) (a : App) :
  consistent a -> consistent (exec w (triggerBell r item) a).
Proof.
  intros [Hall Hidle]. unfold triggerBell.
  destruct (isAnnouncing r); [split; assumption|].
  cbn [perform bind exec].
  destruct (exec_in_sequence w
              (tryCatch (triggerBell_try r item)
                        (fun _ => perform (ConsoleError "Failed to trigger bell:")))
              (did (SetIsAnnouncing true) a)) as [[Hin Hflag]|[pk [Hpk Hin]]].
  - split.
    + rewrite Hin. exact Hall.
    + intros _. exact Hflag.
  - split.
    + rewrite Hin. apply Forall_app. split; [exact Hall | repeat constructor; exact Hpk].
    + rewrite Hin. intros H. apply app_eq_nil in H. destruct H as [_ H]. discriminate.
Qed.

Lemma removeNth_Forall {X : Type} (P : X -> Prop) (n : nat) (l : list X) :
  Forall P l -> Forall P (removeNth n l).
Proof.
  revert n. induction l as [|x l IH]; intros n H; [destruct n; constructor|].
  inversion H as [|? ? Hx Hl]; subst.
  destruct n; simpl; [exact Hl|]. constructor; [exact Hx | apply IH, Hl].
Qed.

Lemma settled_consistent (w : World) (n : nat) (a : App) :
  consistent a -> consistent (settled w n a).
Proof.
  intros [Hall Hidle]. unfold settled.
  destruct (nth_error (inflight a) n) as [pk|] eqn:En; [|split; assumption].
  destruct (await_result w (awaited pk)) as [r|]; [|split; assumption].
  assert (Hpk : inSequence pk).
  { rewrite Forall_forall in Hall. apply Hall. eapply nth_error_In, En. }
  destruct Hpk as [k Hk]. rewrite Hk.
  set (a0 := mkApp (latest a) (timer a) (removeNth n (inflight a)) (output a)
                   (triggered a)).
  destruct (exec_in_sequence w (k r) a0) as [[Hin Hflag]|[pk' [Hpk' Hin]]].
  - split.
    + rewrite Hin. apply removeNth_Forall, Hall.
    + intros _. exact Hflag.
  - split.
    + rewrite Hin. apply Forall_app.
      split; [apply removeNth_Forall, Hall | repeat constructor; exact Hpk'].
    + rewrite Hin. intros H. apply app_eq_nil in H. destruct H as [_ H]. discriminate.
Qed.

Lemma consistent_mount (now : Date) : consistent (mount now).
Proof. split; [constructor | reflexivity]. Qed.

(** What every state setter of the loader preserves, the loader
    preserves, on each of its ways out. *)
Section LoaderInvariant.

Variable P : App -> Prop.
Hypothesis P_setSchedule : forall l a, P a -> P (setSchedule l a).
Hypothesis P_setSettings : forall s a, P a -> P (setSettings s a).
Hypothesis P_setIsLoading : forall b a, P a -> P (setIsLoading b a).

Lemma fetchData_try_preserves (client : SupabaseClient) (a : App) :
  P a -> P (fst (fetchData_try client a)).
Proof.
  intros H. unfold fetchData_try.
  destruct (select_schedules client) as [e|scheduleData [scheduleError|]];
    try exact H.
  set (a1 := match scheduleData with
             | Some (row :: rows) => setSchedule (row :: rows) a
             | _ => setSchedule DEFAULT_SCHEDULE a
             end).
  assert (H1 : P a1)
    by (unfold a1; destruct scheduleData as [[|row rows]|];
        apply P_setSchedule, H).
  destruct (select_settings client) as [e|settingsData [err|]]; simpl;
    try exact H1;
    try (destruct (negb (code err =? "PGRST116")%string); simpl; try exact H1);
    destruct settingsData; try exact H1; apply P_setSettings, H1.
Qed.

Lemma fetchData_catch_preserves (localStorage : LocalStorage) (a : App) :
  P a -> P (fst (fetchData_catch localStorage a)).
Proof.
  intros H. unfold fetchData_catch.
  destruct (school_bell_schedule localStorage) as [|e|s],
           (school_bell_settings localStorage) as [|e'|s']; simpl;
    repeat first [exact H | apply P_setSettings | apply P_setSchedule].
Qed.

Lemma fetchData_else_preserves (localStorage : LocalStorage) (a : App) :
  P a -> P (fst (fetchData_else localStorage a)).
Proof.
  intros H. unfold fetchData_else.
  destruct (school_bell_schedule localStorage) as [|e|s],
           (school_bell_settings localStorage) as [|e'|s']; simpl;
    repeat first [exact H | apply P_setSettings | apply P_setSchedule].
Qed.

Lemma fetchData_preserves (client : option SupabaseClient) (localStorage : LocalStorage)
      (a : App) :
  P a -> P (fetchData client localStorage a).
Proof.
  intros H. unfold fetchData, fetchData_run.
  pose proof (P_setIsLoading true H) as H0.
  destruct client as [client|].
  - pose proof (fetchData_try_preserves client H0) as H1.
    destruct (fetchData_try client (setIsLoading true a)) as [a1 [u|e]]; simpl in H1.
    + apply P_setIsLoading, H1.
    + pose proof (fetchData_catch_preserves localStorage H1) as H2.
      destruct (fetchData_catch localStorage a1) as [a2 [u|e']]; simpl in H2.
      * apply P_setIsLoading, H2.
      * exact H2.
  - pose proof (fetchData_else_preserves localStorage H0) as H2.
    destruct (fetchData_else localStorage (setIsLoading true a)) as [a2 [u|e']];
      simpl in H2.
    + apply P_setIsLoading, H2.
    + exact H2.
Qed.

End LoaderInvariant.

Lemma consistent_fetchData (client : option SupabaseClient) (localStorage : LocalStorage)
      (a : App) :
  consistent a -> consistent (fetchData client localStorage a).
Proof.
  apply (@fetchData_preserves consistent); intros ? ? H; exact H.
Qed.

Section InFlight.

Variable localeCompare : string -> string -> Z.

Lemma consistent_step (w : World) (h : Happening) (a : App) :
  consistent a -> consistent (step localeCompare w h a).
Proof.
  intros H. destruct h as [now|item|n|m|newSettings]; simpl.
  - unfold tick.
    destruct (isAutoEnabled _); [|exact H].
    destruct (strictNotEqual _ _); [|exact H].
    destruct (find _ _) as [matchingItem|]; [|exact H].
    apply (@exec_triggerBell_consistent w (timer a) matchingItem
             (noteTrigger (format_HHmm now) matchingItem (setCurrentTime now a))).
    exact H.
  - apply exec_triggerBell_consistent, H.
  - apply settled_consistent, H.
  - unfold command. destruct (mutate _ _ _); exact H.
  - exact H.
Qed.

(** In every state that the component can reach, [isAnnouncing] is false
    when no announcement is in flight. *)
Lemma consistent_steps (hs : list (World * Happening)) :
  forall a, consistent a -> consistent (steps localeCompare hs a).
Proof.
  induction hs as [|[w h] hs IH]; intros a H; simpl; [exact H|].
  apply IH, consistent_step, H.
Qed.

End InFlight.

(** *** The manual test *)

(** C10.  The "Test Bell" button calls [triggerBell] on the chosen entry
    without looking at its [isActive] flag: the call is the same as for the
    entry with the flag set or cleared.  While no announcement is in
    flight, the call passes the guard, sets [isAnnouncing], and starts the
    chime; when the chime is over, the synthesis returns usable audio and
    the audio plays, the run is the full sequence for that entry: chime,
    synthesis of the entry's announcement text, playback, and the final
    write of [isAnnouncing = false]. *)
Theorem testBell_ignores_isActive
        (w : World) (a : App) (item : ScheduleItem) (c : ChimeResolution)
        (ts tp : list Event) (audioData : option string) (audio : string) :
  consistent a ->
  inflight a = [] ->
  sync_result w (NewAudio (Some CHIME_URL)) = Returns tt ->
  await_result w ChimePromise = Some (Returns c) ->
  run w (generateAnnouncementAudio (announcementText item)
                                   (voiceName (settings (latest a))))
  = (ts, Done audioData) ->
  usable audioData = Some audio ->
  run w (playAudioFromBase64 audio) = (tp, Done tt) ->
  (forall b, triggerBell (latest a) (withIsActive b item) = triggerBell (latest a) item)
  /\ output (testBell w item a)
     = output a ++ [Did (SetIsAnnouncing true); Did (NewAudio (Some CHIME_URL));
                    Awaited ChimePromise]
  /\ isAnnouncing (latest (testBell w item a)) = true
  /\ length (inflight (testBell w item a)) = 1%nat
  /\ run w (triggerBell (latest a) item)
     = (Did (SetIsAnnouncing true) :: Did (NewAudio (Some CHIME_URL))
          :: Awaited ChimePromise :: ts ++ tp ++ [Did (SetIsAnnouncing false)],
        Done tt).
Proof.
  intros [_ Hidle] Hnone Hnew Hchime Hgen Husable Hplay.
  pose proof (Hidle Hnone) as Hr.
  split; [intros b; reflexivity|].
  assert (Hexec : testBell w item a =
                  @park ChimePromise (fun res =>
                          finally
                            (tryCatch
                               (bind (settle res)
                                  (fun _ =>
                                     bind (generateAnnouncementAudio
                                             (announcementText item)
                                             (voiceName (settings (latest a))))
                                          (triggerBell_play (announcementText item))))
                               (fun _ => perform (ConsoleError "Failed to trigger bell:")))
                            (perform (SetIsAnnouncing false)))
                       (did (NewAudio (Some CHIME_URL)) (did (SetIsAnnouncing true) a))).
  { unfold testBell, triggerBell, triggerBell_try, call, await, perform.
    rewrite Hr. cbn [bind finally tryCatch exec]. rewrite Hnew.
    cbn [settle bind finally tryCatch exec]. reflexivity. }
  rewrite Hexec. cbn [park did output latest inflight setIsAnnouncing commit isAnnouncing].
  split; [rewrite <- !app_assoc; reflexivity|].
  split; [reflexivity|].
  split; [rewrite Hnone; reflexivity|].
  rewrite (@run_triggerBell w (latest a) item Hr), run_tryCatch,
          (@run_triggerBell_try w (latest a) item c Hnew Hchime), Hgen.
  unfold triggerBell_play. rewrite Husable, run_tryCatch, Hplay.
  cbn. rewrite <- app_assoc. reflexivity.
Qed.

Lemma testBell_ignores_isActive_witness :
  isActive (withIsActive false budi) = false
  /\ run fineWorld (triggerBell (latest idleApp) (withIsActive false budi))
     = (Did (SetIsAnnouncing true) :: Did (NewAudio (Some CHIME_URL))
          :: Awaited ChimePromise
          :: [Did ReadGeminiApiKey;
              Awaited (GenerateContent (announcementText budi) Kore)]
          ++ [Did (NewAudio None);
              Awaited (AudioEvent "data:audio/mpeg;base64,QUJD");
              Awaited (AudioPlay "data:audio/mpeg;base64,QUJD")]
          ++ [Did (SetIsAnnouncing false)],
        Done tt).
Proof.
  split; [reflexivity|].
  assert (Hidle : consistent idleApp) by (split; [constructor | reflexivity]).
  exact (proj2 (proj2 (proj2 (proj2
    (@testBell_ignores_isActive fineWorld idleApp (withIsActive false budi) OnEnded
       _ _ (Some "QUJD") "QUJD" Hidle eq_refl eq_refl eq_refl eq_refl eq_refl
       eq_refl))))).
Defined.

(** ** The trigger engine *)

Lemma strictNotEqual_false_iff (lastTriggered : option string) (timeStr : string) :
  strictNotEqual lastTriggered timeStr = false <-> lastTriggered = Some timeStr.
Proof.
  unfold strictNotEqual. destruct lastTriggered as [s|].
  - rewrite negb_false_iff, String.eqb_eq. split; congruence.
  - split; discriminate.
Qed.

Lemma strictNotEqual_true_iff (lastTriggered : option string) (timeStr : string) :
  strictNotEqual lastTriggered timeStr = true <-> lastTriggered <> Some timeStr.
Proof.
  rewrite <- strictNotEqual_false_iff.
  destruct (strictNotEqual lastTriggered timeStr); split; congruence.
Qed.



(** The announcement sequence changes nothing that the engine reads. *)
Lemma did_engineView (o : SyncOp) (a : App) : engineView (did o a) = engineView a.
Proof. destruct o; reflexivity. Qed.

Lemma exec_engineView (w : World) (p : Async unit) :
  forall a, engineView (exec w p a) = engineView a.
Proof.
  induction p as [u|e|o k IH|o k IH]; intros a; simpl; try reflexivity.
  rewrite IH. apply did_engineView.
Qed.

Lemma upToDate_engineView (a a' : App) :
  engineView a' = engineView a -> upToDate a -> upToDate a'.
Proof.
  unfold engineView, upToDate. intros E H.
  injection E as -> _ -> -> ->. exact H.
Qed.

Lemma triggered_engineView (a a' : App) :
  engineView a' = engineView a ->
  triggered a' = triggered a /\ lastTriggered (latest a') = lastTriggered (latest a).
Proof. unfold engineView. intros E. injection E as _ -> _ _ ->. split; reflexivity. Qed.

Lemma testBell_engineView (w : World) (item : ScheduleItem) (a : App) :
  engineView (testBell w item a) = engineView a.
Proof. apply exec_engineView. Qed.

Lemma settled_engineView (w : World) (n : nat) (a : App) :
  engineView (settled w n a) = engineView a.
Proof.
  unfold settled. destruct (nth_error (inflight a) n) as [pk|]; [|reflexivity].
  destruct (await_result w (awaited pk)) as [r|]; [|reflexivity].
  rewrite exec_engineView. reflexivity.
Qed.

(** A tick in a minute that has already triggered only moves the clock. *)
Lemma tick_in_triggered_minute (w : World) (now : Date) (a : App) :
  upToDate a ->
  lastTriggered (latest a) = Some (format_HHmm now) ->
  tick w now a = setCurrentTime now a.
Proof.
  intros [_ [_ Hlast]] Hm. unfold tick. rewrite Hlast, Hm.
  replace (strictNotEqual (Some (format_HHmm now)) (format_HHmm now)) with false
    by (symmetry; apply strictNotEqual_false_iff; reflexivity).
  destruct (isAutoEnabled (settings (timer a))); reflexivity.
Qed.

(** What a tick does to the history and to [lastTriggered]. *)
Lemma tick_outcome (w : World) (now : Date) (a : App) :
  upToDate a ->
  upToDate (tick w now a)
  /\ ((triggered (tick w now a) = triggered a
       /\ lastTriggered (latest (tick w now a)) = lastTriggered (latest a))
      \/ (exists item,
            find (fun item => isActive item && (startTime item =? format_HHmm now)%string)
                 (schedule (latest a)) = Some item
            /\ isAutoEnabled (settings (latest a)) = true
            /\ lastTriggered (latest a) <> Some (format_HHmm now)
            /\ triggered (tick w now a) = triggered a ++ [(format_HHmm now, item)]
            /\ lastTriggered (latest (tick w now a)) = Some (format_HHmm now))).
Proof.
  intros Hup. pose proof Hup as [Hs [Ha Hl]]. unfold tick.
  assert (Hclock : upToDate (setCurrentTime now a)) by exact Hup.
  destruct (isAutoEnabled (settings (timer a))) eqn:Eauto;
    [|split; [exact Hclock | left; split; reflexivity]].
  destruct (strictNotEqual (lastTriggered (timer a)) (format_HHmm now)) eqn:Enew;
    [|split; [exact Hclock | left; split; reflexivity]].
  rewrite Hs.
  destruct (find _ (schedule (latest a))) as [item|] eqn:Efind;
    [|split; [exact Hclock | left; split; reflexivity]].
  set (a1 := exec w (triggerBell (timer a) item)
                  (noteTrigger (format_HHmm now) item (setCurrentTime now a))).
  assert (E1 : engineView a1 =
               engineView (noteTrigger (format_HHmm now) item (setCurrentTime now a)))
    by apply exec_engineView.
  unfold engineView in E1. simpl in E1.
  injection E1 as Etimer Etrig Esched Esett Elast.
  rewrite Hl in Enew. apply strictNotEqual_true_iff in Enew.
  assert (Erun : strictNotEqual (lastTriggered (latest a1)) (format_HHmm now) = true)
    by (rewrite Elast; apply strictNotEqual_true_iff; exact Enew).
  unfold setLastTriggered, commit. rewrite Erun. simpl.
  split.
  - repeat split.
  - right. exists item. rewrite <- Ha.
    repeat split; try assumption.
Qed.

Section EngineFacts.

Variable localeCompare : string -> string -> Z.

(** Everything but a tick leaves the history and [lastTriggered] alone. *)
Lemma step_outcome (w : World) (h : Happening) (a : App) :
  upToDate a ->
  (forall now, h <> Tick now) ->
  upToDate (step localeCompare w h a)
  /\ triggered (step localeCompare w h a) = triggered a
  /\ lastTriggered (latest (step localeCompare w h a)) = lastTriggered (latest a).
Proof.
  intros Hup Hnot. destruct h as [now|item|n|m|newSettings]; simpl.
  - exfalso. apply (Hnot now). reflexivity.
  - pose proof (testBell_engineView w item a) as E.
    split; [eapply upToDate_engineView; eassumption|].
    apply triggered_engineView, E.
  - pose proof (settled_engineView w n a) as E.
    split; [eapply upToDate_engineView; eassumption|].
    apply triggered_engineView, E.
  - unfold command.
    destruct (mutate localeCompare m (schedule (latest a))) as [newSchedule|].
    + repeat split.
    + repeat split; apply Hup.
  - unfold updateSettings, setSettings, commit.
    destruct (Bool.eqb (isAutoEnabled newSettings)
                       (isAutoEnabled (settings (latest a)))) eqn:E; simpl.
    + apply Bool.eqb_prop in E. destruct Hup as [Hs [Ha Hl]].
      repeat split; simpl; congruence.
    + repeat split.
Qed.

Lemma sameMinute_tail (m : string) (wh : World * Happening)
      (hs : list (World * Happening)) :
  sameMinute m (wh :: hs) -> sameMinute m hs.
Proof. intros H w now Hin. apply (H w now). right; exact Hin. Qed.

(** Once [lastTriggered] is the minute, nothing more is triggered in it. *)
Lemma no_trigger_after_first (m : string) (hs : list (World * Happening)) :
  forall a,
    upToDate a -> lastTriggered (latest a) = Some m -> sameMinute m hs ->
    triggered (steps localeCompare hs a) = triggered a.
Proof.
  induction hs as [|[w h] hs IH]; intros a Hup Hlast Hsame; simpl; [reflexivity|].
  pose proof (sameMinute_tail Hsame) as Htail.
  destruct h as [now|item|n|mu|newSettings].
  - assert (Hm : format_HHmm now = m) by (apply (Hsame w now); left; reflexivity).
    simpl. rewrite tick_in_triggered_minute by (rewrite ?Hm; assumption).
    rewrite IH; [reflexivity | exact Hup | exact Hlast | exact Htail].
  - destruct (@step_outcome w (TestBell item) a Hup) as [Hup' [Ht Hl]];
      [discriminate|]. rewrite IH; [exact Ht | exact Hup' | congruence | exact Htail].
  - destruct (@step_outcome w (Settled n) a Hup) as [Hup' [Ht Hl]];
      [discriminate|]. rewrite IH; [exact Ht | exact Hup' | congruence | exact Htail].
  - destruct (@step_outcome w (Command mu) a Hup) as [Hup' [Ht Hl]];
      [discriminate|]. rewrite IH; [exact Ht | exact Hup' | congruence | exact Htail].
  - destruct (@step_outcome w (UpdateSettings newSettings) a Hup) as [Hup' [Ht Hl]];
      [discriminate|]. rewrite IH; [exact Ht | exact Hup' | congruence | exact Htail].
Qed.

Lemma one_trigger_at_most (m : string) (hs : list (World * Happening)) :
  forall a,
    upToDate a -> sameMinute m hs ->
    (length (triggered (steps localeCompare hs a)) <= length (triggered a) + 1)%nat.
Proof.
  induction hs as [|[w h] hs IH]; intros a Hup Hsame; simpl; [lia|].
  pose proof (sameMinute_tail Hsame) as Htail.
  destruct h as [now|item|n|mu|newSettings].
  - assert (Hm : format_HHmm now = m) by (apply (Hsame w now); left; reflexivity).
    simpl. destruct (@tick_outcome w now a Hup) as [Hup' [[Ht Hl]|Hfired]].
    + rewrite <- Ht. apply IH; assumption.
    + destruct Hfired as [item [_ [_ [_ [Ht Hl]]]]].
      rewrite (@no_trigger_after_first m hs _ Hup'); [|congruence|exact Htail].
      rewrite Ht, length_app. simpl. lia.
  - destruct (@step_outcome w (TestBell item) a Hup) as [Hup' [Ht Hl]];
      [discriminate|]. rewrite <- Ht. apply IH; assumption.
  - destruct (@step_outcome w (Settled n) a Hup) as [Hup' [Ht Hl]];
      [discriminate|]. rewrite <- Ht. apply IH; assumption.
  - destruct (@step_outcome w (Command mu) a Hup) as [Hup' [Ht Hl]];
      [discriminate|]. rewrite <- Ht. apply IH; assumption.
  - destruct (@step_outcome w (UpdateSettings newSettings) a Hup) as [Hup' [Ht Hl]];
      [discriminate|]. rewrite <- Ht. apply IH; assumption.
Qed.

(** C1.  Whatever happens during one calendar minute [m] -- any number of
    clock ticks that read [m], interleaved with manual tests, schedule
    commands, settings changes and the progress of running announcements
    -- the tick handler calls [triggerBell] at most once; and once
    [lastTriggered] is [m], it does not call it at all: such a tick only
    moves the clock. *)
Theorem at_most_one_trigger_per_minute
        (m : string) (hs : list (World * Happening)) (a : App) :
  upToDate a ->
  sameMinute m hs ->
  (length (triggered (steps localeCompare hs a)) <= length (triggered a) + 1)%nat
  /\ (lastTriggered (latest a) = Some m ->
      triggered (steps localeCompare hs a) = triggered a
      /\ forall w now, format_HHmm now = m -> tick w now a = setCurrentTime now a).
Proof.
  intros Hup Hsame. split.
  - apply one_trigger_at_most with (m := m); assumption.
  - intros Hlast. split.
    + apply no_trigger_after_first with (m := m); assumption.
    + intros w now Hm. apply tick_in_triggered_minute; [exact Hup | congruence].
Qed.


End EngineFacts.

(** *** The closures of the interval follow the dependencies *)

Lemma upToDate_mount (now : Date) : upToDate (mount now).
Proof. repeat split. Qed.

Lemma upToDate_setSchedule (l : list ScheduleItem) (a : App) : upToDate (setSchedule l a).
Proof. repeat split. Qed.

Lemma upToDate_setSettings (s : AppSettings) (a : App) :
  upToDate a -> upToDate (setSettings s a).
Proof.
  intros [Hs [Ha Hl]]. unfold setSettings, commit.
  destruct (Bool.eqb (isAutoEnabled s) (isAutoEnabled (settings (latest a)))) eqn:E;
    simpl; [|repeat split].
  apply Bool.eqb_prop in E. repeat split; simpl; congruence.
Qed.

Lemma upToDate_setIsLoading (b : bool) (a : App) :
  upToDate a -> upToDate (setIsLoading b a).
Proof. intros H. exact H. Qed.

Lemma upToDate_fetchData_try (client : SupabaseClient) (a : App) :
  upToDate a -> upToDate (fst (fetchData_try client a)).
Proof.
  apply (@fetchData_try_preserves upToDate).
  - intros l a0 _. apply upToDate_setSchedule.
  - intros s a0. apply upToDate_setSettings.
Qed.

(** The loader leaves the interval with the closures of the loaded state. *)
Lemma upToDate_fetchData (client : option SupabaseClient) (localStorage : LocalStorage)
      (a : App) :
  upToDate a -> upToDate (fetchData client localStorage a).
Proof.
  apply (@fetchData_preserves upToDate).
  - intros l a0 _. apply upToDate_setSchedule.
  - intros s a0. apply upToDate_setSettings.
  - intros b a0. apply upToDate_setIsLoading.
Qed.

Section Reachability.

Variable localeCompare : string -> string -> Z.

Lemma upToDate_step (w : World) (h : Happening) (a : App) :
  upToDate a -> upToDate (step localeCompare w h a).
Proof.
  intros Hup. destruct h as [now|item|n|m|newSettings].
  - apply tick_outcome, Hup.
  - apply step_outcome; [exact Hup | discriminate].
  - apply step_outcome; [exact Hup | discriminate].
  - apply step_outcome; [exact Hup | discriminate].
  - apply step_outcome; [exact Hup | discriminate].
Qed.

(** Every state that the mounted and loaded component can reach has the
    interval's closures in step with the three dependencies: only
    [isAnnouncing] (and what the effect does not depend on) can be
    stale. *)
Lemma upToDate_steps (hs : list (World * Happening)) :
  forall a, upToDate a -> upToDate (steps localeCompare hs a).
Proof.
  induction hs as [|[w h] hs IH]; intros a Hup; simpl; [exact Hup|].
  apply IH, upToDate_step, Hup.
Qed.

End Reachability.

Lemma at_most_one_trigger_per_minute_witness :
  (length (triggered
             (steps codeUnitCompare
                    [(fineWorld, Tick sevenSharp);
                     (fineWorld, Tick sevenAndOneSecond);
                     (fineWorld, TestBell siti);
                     (fineWorld, Settled 0);
                     (fineWorld, Tick (mkDate 7 0 59))]
                    idleApp))
   <= length (triggered idleApp) + 1)%nat.
Proof.
  refine (proj1 (@at_most_one_trigger_per_minute codeUnitCompare "07:00" _ idleApp _ _)).
  - repeat split.
  - intros w now Hin. simpl in Hin.
    repeat (destruct Hin as [Hin|Hin];
            [try discriminate Hin; injection Hin as _ <-; reflexivity|]).
    contradiction.
Defined.


(** *** The guard of line 157 and the closure of the interval *)

(** The guard works for the button: a manual test while [isAnnouncing] is
    true changes nothing. *)
Lemma testBell_while_announcing (w : World) (item : ScheduleItem) (a : App) :
  isAnnouncing (latest a) = true -> testBell w item a = a.
Proof. intros H. unfold testBell, triggerBell. rewrite H. reflexivity. Qed.

(** The guard works for a tick whose closure has seen the announcement
    start: the match is dropped, and only [lastTriggered] (and the clock)
    change. *)
Lemma tick_while_announcing_seen (w : World) (now : Date) (a : App) :
  isAnnouncing (timer a) = true ->
  output (tick w now a) = output a /\ inflight (tick w now a) = inflight a
  /\ isAnnouncing (latest (tick w now a)) = isAnnouncing (latest a).
Proof.
  intros H. unfold tick, triggerBell. rewrite H.
  destruct (isAutoEnabled _); [|repeat split].
  destruct (strictNotEqual _ _); [|repeat split].
  destruct (find _ _); repeat split.
Qed.

(** The guard does not work for a tick whose closure predates the start of
    the announcement in flight: whenever the interval's render has
    [isAnnouncing = false], a matching tick starts a sequence, whatever the
    [isAnnouncing] of the state. *)
Lemma tick_with_stale_closure (w : World) (now : Date) (a : App)
      (matchingItem : ScheduleItem) :
  isAutoEnabled (settings (timer a)) = true ->
  strictNotEqual (lastTriggered (timer a)) (format_HHmm now) = true ->
  find (fun item => isActive item && (startTime item =? format_HHmm now)%string)
       (schedule (timer a)) = Some matchingItem ->
  isAnnouncing (timer a) = false ->
  sync_result w (NewAudio (Some CHIME_URL)) = Returns tt ->
  output (tick w now a)
  = output a ++ [Did (SetIsAnnouncing true); Did (NewAudio (Some CHIME_URL));
                 Awaited ChimePromise]
  /\ length (inflight (tick w now a)) = S (length (inflight a)).
Proof.
  intros Hauto Hnew Hfind Hstale Haudio.
  unfold tick. rewrite Hauto, Hnew, Hfind.
  unfold triggerBell, triggerBell_try, call, await, perform. rewrite Hstale.
  cbn [bind finally tryCatch exec]. rewrite Haudio.
  cbn [settle bind finally tryCatch exec].
  cbn. rewrite <- !app_assoc, length_app. simpl. split; [reflexivity | lia].
Qed.

(** C2, the failing run.  A manual test starts an announcement:
    [isAnnouncing] is true in the state, but the interval still holds the
    closures of the render before, where it is false.  The tick of 07:00
    then finds the entry of 07:00 and its [triggerBell] passes the guard: a
    second sequence starts while the first one is in flight. *)
Theorem tick_starts_second_sequence_during_manual_test :
  let a1 := step codeUnitCompare fineWorld (TestBell siti) idleApp in
  let a2 := step codeUnitCompare fineWorld (Tick sevenSharp) a1 in
  isAnnouncing (latest a1) = true
  /\ isAnnouncing (timer a1) = false
  /\ length (inflight a1) = 1%nat
  /\ length (inflight a2) = 2%nat
  /\ output a2 = output a1 ++ [Did (SetIsAnnouncing true);
                               Did (NewAudio (Some CHIME_URL));
                               Awaited ChimePromise]
  /\ triggered a2 = [("07:00", budi)].
Proof. repeat split. Qed.

(** The same stale closure, the other way round: the tick of 07:00 starts
    the announcement and the effect runs again with [isAnnouncing = true];
    the announcement ends, which does not run the effect again; at 07:45
    nothing is in flight and [isAnnouncing] is false, yet the interval's
    [triggerBell] returns at the guard: the bell of 07:45 is recorded as
    triggered and never rings. *)
Lemma bell_after_announcement_is_dropped :
  let a1 := steps codeUnitCompare
                  [(fineWorld, Tick sevenSharp); (fineWorld, Settled 0);
                   (fineWorld, Settled 0); (fineWorld, Settled 0);
                   (fineWorld, Settled 0)] idleApp in
  let a2 := step codeUnitCompare fineWorld (Tick quarterToEight) a1 in
  isAnnouncing (latest a1) = false
  /\ inflight a1 = []
  /\ isAnnouncing (timer a1) = true
  /\ triggered a2 = [("07:00", budi); ("07:45", siti)]
  /\ output a2 = output a1
  /\ inflight a2 = [].
Proof. repeat split. Qed.

(** ** The start-up loader *)

Lemma schedule_setIsLoading (b : bool) (a : App) :
  schedule (latest (setIsLoading b a)) = schedule (latest a).
Proof. reflexivity. Qed.

Lemma schedule_setSettings (s : AppSettings) (a : App) :
  schedule (latest (setSettings s a)) = schedule (latest a).
Proof. reflexivity. Qed.

Lemma schedule_setSchedule (l : list ScheduleItem) (a : App) :
  schedule (latest (setSchedule l a)) = l.
Proof. reflexivity. Qed.

(** A remote read that finds no rows leaves the defaults in the state. *)
Lemma fetchData_try_no_rows (client : SupabaseClient) (a : App) :
  remoteHasNoRows client a ->
  schedule (latest (fst (fetchData_try client a))) = DEFAULT_SCHEDULE.
Proof.
  intros [Hrows _]. unfold fetchData_try.
  destruct Hrows as [-> | ->];
    destruct (select_settings client) as [e|settingsData [err|]]; simpl;
    try reflexivity;
    try (destruct (negb (code err =? "PGRST116")%string); simpl;
         try reflexivity);
    destruct settingsData; reflexivity.
Qed.

(** C7, as the code has it.  Without a remote store (no credentials) the
    loader shows the local snapshot of the schedule, and the built-in
    defaults only if there is no snapshot (a snapshot that is not JSON
    makes line 92 throw, and the schedule stays as it was).  When the
    remote read fails and a local snapshot exists, it shows the snapshot.
    When the remote read succeeds and finds no schedule rows, it shows the
    built-in defaults, whether a local snapshot exists or not. *)
Theorem fetchData_schedule_fallback (localStorage : LocalStorage) (a : App) :
  (forall supabaseUrl supabaseAnonKey client,
      usable supabaseUrl = None \/ usable supabaseAnonKey = None ->
      schedule (latest (fetchData (supabase supabaseUrl supabaseAnonKey client)
                                  localStorage a))
      = match school_bell_schedule localStorage with
        | Unparsable _ => schedule (latest a)
        | _ => snapshotOrDefaults localStorage
        end)
  /\ (forall client s,
         remoteReadFails client (setIsLoading true a) ->
         school_bell_schedule localStorage = Stored s ->
         schedule (latest (fetchData (Some client) localStorage a)) = s)
  /\ (forall client,
         remoteHasNoRows client (setIsLoading true a) ->
         schedule (latest (fetchData (Some client) localStorage a))
         = DEFAULT_SCHEDULE).
Proof.
  split; [|split].
  - intros supabaseUrl supabaseAnonKey client Hmissing.
    assert (Hnull : supabase supabaseUrl supabaseAnonKey client = None).
    { unfold supabase. destruct Hmissing as [-> | ->];
        [|destruct (usable supabaseUrl)]; reflexivity. }
    rewrite Hnull. unfold fetchData, fetchData_run, fetchData_else, snapshotOrDefaults.
    destruct (school_bell_schedule localStorage) as [|e|s],
             (school_bell_settings localStorage) as [|e'|s']; reflexivity.
  - intros client s [e Hfail] Hsaved. unfold fetchData, fetchData_run.
    destruct (fetchData_try client (setIsLoading true a)) as [a1 [u|e']];
      simpl in Hfail; [discriminate|].
    unfold fetchData_catch. rewrite Hsaved.
    destruct (school_bell_settings localStorage); reflexivity.
  - intros client Hrows. unfold fetchData, fetchData_run.
    pose proof (fetchData_try_no_rows Hrows) as Hdefault.
    destruct Hrows as [_ Hok].
    destruct (fetchData_try client (setIsLoading true a)) as [a1 [u|e']];
      simpl in Hok, Hdefault; [|discriminate].
    simpl. exact Hdefault.
Qed.

Lemma fetchData_schedule_fallback_witness :
  schedule (latest (fetchData (supabase None (Some "anon-key") failingRemote)
                              oneEntrySnapshot (mount sevenSharp)))
  = [siti]
  /\ schedule (latest (fetchData (Some failingRemote) oneEntrySnapshot
                                 (mount sevenSharp)))
     = [siti]
  /\ schedule (latest (fetchData (Some emptyRemote) oneEntrySnapshot
                                 (mount sevenSharp)))
     = DEFAULT_SCHEDULE.
Proof.
  destruct (fetchData_schedule_fallback oneEntrySnapshot (mount sevenSharp))
    as [Hnull [Hfail Hrows]].
  split; [|split].
  - apply (Hnull None (Some "anon-key") failingRemote). left; reflexivity.
  - apply (Hfail failingRemote [siti]); [|reflexivity].
    exists "Failed to fetch". reflexivity.
  - apply (Hrows emptyRemote). split; [right; reflexivity | reflexivity].
Defined.

(** C7, counterexample: the remote read succeeds
    without rows and a local snapshot exists; the loader does not fall back
    to the snapshot, it shows the built-in defaults. *)
Lemma no_rows_does_not_fall_back_to_snapshot :
  remoteHasNoRows emptyRemote (setIsLoading true (mount sevenSharp))
  /\ school_bell_schedule oneEntrySnapshot = Stored [siti]
  /\ schedule (latest (fetchData (Some emptyRemote) oneEntrySnapshot
                                 (mount sevenSharp)))
     <> snapshotOrDefaults oneEntrySnapshot.
Proof.
  split; [split; [right; reflexivity | reflexivity]|].
  split; [reflexivity|]. discriminate.
Qed.

(** The remaining case of the loader: the remote read fails and there is
    no local snapshot.  The [catch] of lines 80-87 sets nothing, and the
    schedule stays as it was, empty on a first start; the sibling branch
    of lines 89-97 seeds the defaults there. *)
Lemma failed_read_without_snapshot_keeps_schedule :
  schedule (latest (fetchData (Some failingRemote) (mkLocalStorage NoItem NoItem)
                              (mount sevenSharp)))
  = []
  /\ schedule (latest (fetchData None (mkLocalStorage NoItem NoItem) (mount sevenSharp)))
     = DEFAULT_SCHEDULE.
Proof. split; reflexivity. Qed.

(* ================================================================= *)
(** * Further properties *)

(** ** The speech service ([services/geminiService.ts]) *)

(** X1.  Without an API key (missing or empty) [generateAnnouncementAudio]
    returns [undefined] after logging one error, and never calls the
    provider. *)
Theorem generateAnnouncementAudio_without_key
        (w : World) (text : string) (voice : VoiceName) (apiKey : option string) :
  sync_result w ReadGeminiApiKey = Returns apiKey ->
  usable apiKey = None ->
  run w (generateAnnouncementAudio text voice)
  = ([Did ReadGeminiApiKey; Did (ConsoleError "Error generating TTS:")], Done None).
Proof.
  intros Hkey Hnone.
  unfold generateAnnouncementAudio, GeminiService.getAI, call.
  cbn [bind tryCatch run]. rewrite Hkey. cbn [settle bind tryCatch].
  rewrite Hnone. reflexivity.
Qed.

Lemma generateAnnouncementAudio_without_key_witness :
  run noKeyWorld (generateAnnouncementAudio (announcementText budi) Kore)
  = ([Did ReadGeminiApiKey; Did (ConsoleError "Error generating TTS:")], Done None).
Proof.
  exact (@generateAnnouncementAudio_without_key noKeyWorld (announcementText budi)
           Kore None eq_refl eq_refl).
Defined.

(** X2.  [generateAnnouncementAudio] never rejects, whatever the
    environment and the provider do; it stays pending only while the
    provider's own promise is pending. *)
Theorem generateAnnouncementAudio_never_rejects
        (w : World) (text : string) (voice : VoiceName) :
  (forall e, snd (run w (generateAnnouncementAudio text voice)) <> Uncaught e)
  /\ (snd (run w (generateAnnouncementAudio text voice)) = Stuck ->
      await_result w (GenerateContent text voice) = None).
Proof.
  unfold generateAnnouncementAudio, GeminiService.getAI, call, await.
  cbn [bind tryCatch run].
  destruct (sync_result w ReadGeminiApiKey) as [apiKey|e0]; cbn [settle bind tryCatch].
  - destruct (usable apiKey) as [key|]; cbn [bind tryCatch run].
    + destruct (await_result w (GenerateContent text voice)) as [[response|e1]|];
        cbn; split; intros; try discriminate; reflexivity.
    + cbn. split; intros; discriminate.
  - cbn. split; intros; discriminate.
Qed.

(** X3.  With an API key, [generateAnnouncementAudio] makes exactly one
    request, for the given text and voice.  If the provider answers, the
    result is the inline data of the first part of the first candidate
    ([undefined] if any level is missing); if the provider fails, the error
    is logged and the result is [undefined]. *)
Theorem generateAnnouncementAudio_with_key
        (w : World) (text : string) (voice : VoiceName)
        (apiKey : option string) (key : string) :
  sync_result w ReadGeminiApiKey = Returns apiKey ->
  usable apiKey = Some key ->
  run w (generateAnnouncementAudio text voice) =
  match await_result w (GenerateContent text voice) with
  | Some (Returns response) =>
      ([Did ReadGeminiApiKey; Awaited (GenerateContent text voice)],
       Done (GeminiService.inlineAudio response))
  | Some (Throws e) =>
      ([Did ReadGeminiApiKey; Awaited (GenerateContent text voice);
        Did (ConsoleError "Error generating TTS:")], Done None)
  | None => ([Did ReadGeminiApiKey; Awaited (GenerateContent text voice)], Stuck)
  end.
Proof.
  intros Hkey Hsome.
  unfold generateAnnouncementAudio, GeminiService.getAI, call, await.
  cbn [bind tryCatch run]. rewrite Hkey. cbn [settle bind tryCatch].
  rewrite Hsome. cbn [bind tryCatch run].
  destruct (await_result w (GenerateContent text voice)) as [[response|e]|];
    reflexivity.
Qed.

Lemma generateAnnouncementAudio_with_key_witness :
  run muteWorld (generateAnnouncementAudio (announcementText budi) Kore)
  = ([Did ReadGeminiApiKey; Awaited (GenerateContent (announcementText budi) Kore)],
     Done None)
  /\ run fineWorld (generateAnnouncementAudio (announcementText budi) Kore)
     = ([Did ReadGeminiApiKey; Awaited (GenerateContent (announcementText budi) Kore)],
        Done (Some "QUJD")).
Proof.
  split.
  - exact (@generateAnnouncementAudio_with_key muteWorld (announcementText budi)
             Kore (Some "key") "key" eq_refl eq_refl).
  - exact (@generateAnnouncementAudio_with_key fineWorld (announcementText budi)
             Kore (Some "key") "key" eq_refl eq_refl).
Defined.

(** X4.  [playAudioFromBase64] resolves exactly when the data is not empty,
    the [Audio] element can be created, the element given the data URL
    ["data:audio/mpeg;base64," + data] fires [canplaythrough] and the
    [play()] called by that handler fulfils.  With empty data it rejects
    with "No audio data" after one log, without creating an [Audio]
    element; when the element fires [error] it logs "Audio loading error:"
    and rejects with "Failed to load audio source"; when [play()] rejects
    it logs "Playback failed:" and rejects with the reason of [play()]. *)
Theorem playAudioFromBase64_resolves_iff (w : World) (base64Data : string) :
  (snd (run w (playAudioFromBase64 base64Data)) = Done tt <->
   truthy base64Data = true
   /\ sync_result w (NewAudio None) = Returns tt
   /\ await_result w (AudioEvent ("data:audio/mpeg;base64," ++ base64Data)%string)
      = Some (Returns CanPlayThrough)
   /\ await_result w (AudioPlay ("data:audio/mpeg;base64," ++ base64Data)%string)
      = Some (Returns Playing))
  /\ (truthy base64Data = false ->
      run w (playAudioFromBase64 base64Data)
      = ([Did (ConsoleError "No audio data provided")], Uncaught "No audio data"))
  /\ (truthy base64Data = true ->
      sync_result w (NewAudio None) = Returns tt ->
      await_result w (AudioEvent ("data:audio/mpeg;base64," ++ base64Data)%string)
      = Some (Returns MediaError) ->
      run w (playAudioFromBase64 base64Data)
      = ([Did (NewAudio None);
          Awaited (AudioEvent ("data:audio/mpeg;base64," ++ base64Data)%string);
          Did (ConsoleError "Audio loading error:")],
         Uncaught "Failed to load audio source"))
  /\ (forall err,
         truthy base64Data = true ->
         sync_result w (NewAudio None) = Returns tt ->
         await_result w (AudioEvent ("data:audio/mpeg;base64," ++ base64Data)%string)
         = Some (Returns CanPlayThrough) ->
         await_result w (AudioPlay ("data:audio/mpeg;base64," ++ base64Data)%string)
         = Some (Throws err) ->
         run w (playAudioFromBase64 base64Data)
         = ([Did (NewAudio None);
             Awaited (AudioEvent ("data:audio/mpeg;base64," ++ base64Data)%string);
             Awaited (AudioPlay ("data:audio/mpeg;base64," ++ base64Data)%string);
             Did (ConsoleError "Playback failed:")],
            Uncaught err)).
Proof.
  unfold playAudioFromBase64, oncanplaythrough, perform.
  set (audioSrc := ("data:audio/mpeg;base64," ++ base64Data)%string).
  destruct (truthy base64Data); cbn [negb bind run].
  - split; [|split; [discriminate|split]].
    + destruct (sync_result w (NewAudio None)) as [[]|e]; cbn [run].
      * destruct (await_result w (AudioEvent audioSrc)) as [[[|]|e]|]; cbn [run bind].
        -- destruct (await_result w (AudioPlay audioSrc)) as [[[|]|e]|];
             cbn [run bind fst snd].
           ++ split; [intros _; repeat split; reflexivity | intros _; reflexivity].
           ++ split; [intros H; discriminate H | intros [_ [_ [_ H]]]; discriminate H].
           ++ split; [intros H; discriminate H | intros [_ [_ [_ H]]]; discriminate H].
           ++ split; [intros H; discriminate H | intros [_ [_ [_ H]]]; discriminate H].
        -- split; [intros H; discriminate H | intros [_ [_ [H _]]]; discriminate H].
        -- split; [intros H; discriminate H | intros [_ [_ [H _]]]; discriminate H].
        -- split; [intros H; discriminate H | intros [_ [_ [H _]]]; discriminate H].
      * split; [intros H; discriminate H | intros [_ [H _]]; discriminate H].
    + intros _ Hnew Hevent. rewrite Hnew. cbn [run]. rewrite Hevent. reflexivity.
    + intros err _ Hnew Hevent Hplay. rewrite Hnew. cbn [run]. rewrite Hevent.
      cbn [run]. rewrite Hplay. reflexivity.
  - split; [|split; [reflexivity|split]].
    + cbn. split; [intros H; discriminate H | intros [H _]; discriminate H].
    + discriminate.
    + intros err H; discriminate H.
Qed.

(** ** The announcement sequence, on its edges ([App.tsx], lines 156-195) *)

(** X5.  When the chime cannot be started at all -- [new Audio(CHIME_URL)]
    throws, or the chime promise rejects -- the whole announcement is
    skipped: the error is logged, nothing is synthesized or spoken, and
    [isAnnouncing] is cleared. *)
Theorem triggerBell_skipped_when_chime_throws
        (w : World) (r : Render) (item : ScheduleItem) (e : JsError) :
  isAnnouncing r = false ->
  (sync_result w (NewAudio (Some CHIME_URL)) = Throws e ->
   run w (triggerBell r item)
   = ([Did (SetIsAnnouncing true); Did (NewAudio (Some CHIME_URL));
       Did (ConsoleError "Failed to trigger bell:"); Did (SetIsAnnouncing false)],
      Done tt))
  /\ (sync_result w (NewAudio (Some CHIME_URL)) = Returns tt ->
      await_result w ChimePromise = Some (Throws e) ->
      run w (triggerBell r item)
      = ([Did (SetIsAnnouncing true); Did (NewAudio (Some CHIME_URL));
          Awaited ChimePromise;
          Did (ConsoleError "Failed to trigger bell:"); Did (SetIsAnnouncing false)],
         Done tt)).
Proof.
  intros Hr. rewrite (@run_triggerBell w r item Hr), run_tryCatch.
  unfold triggerBell_try, call, await. cbn [bind run].
  split.
  - intros Hnew. rewrite Hnew. reflexivity.
  - intros Hnew Hchime. rewrite Hnew. cbn [settle bind run]. rewrite Hchime.
    reflexivity.
Qed.

Lemma triggerBell_skipped_when_chime_throws_witness :
  run noAudioWorld (triggerBell idleRender budi)
  = ([Did (SetIsAnnouncing true); Did (NewAudio (Some CHIME_URL));
      Did (ConsoleError "Failed to trigger bell:"); Did (SetIsAnnouncing false)],
     Done tt).
Proof.
  exact (proj1 (@triggerBell_skipped_when_chime_throws noAudioWorld idleRender budi
                  "Audio is not defined" eq_refl) eq_refl).
Defined.

(** X6.  A chime that fails to load or to play does not stop the
    announcement: however the chime promise resolves -- the clip ended, it
    raised an error event, or [play()] was refused -- the sequence goes on
    to the synthesis, whose first step is reading the API key. *)
Theorem triggerBell_continues_after_chime
        (w : World) (r : Render) (item : ScheduleItem) (c : ChimeResolution) :
  isAnnouncing r = false ->
  sync_result w (NewAudio (Some CHIME_URL)) = Returns tt ->
  await_result w ChimePromise = Some (Returns c) ->
  exists rest,
    fst (run w (triggerBell r item))
    = Did (SetIsAnnouncing true) :: Did (NewAudio (Some CHIME_URL))
        :: Awaited ChimePromise :: Did ReadGeminiApiKey :: rest.
Proof.
  intros Hr Hnew Hchime.
  rewrite (@run_triggerBell w r item Hr), run_tryCatch,
          (@run_triggerBell_try w r item c Hnew Hchime).
  assert (Hfirst : exists t, fst (run w (generateAnnouncementAudio
                                          (announcementText item)
                                          (voiceName (settings r))))
                             = Did ReadGeminiApiKey :: t).
  { unfold generateAnnouncementAudio, GeminiService.getAI, call.
    cbn [bind tryCatch run].
    destruct (run w _) as [t x]. exists t. reflexivity. }
  destruct Hfirst as [t Ht].
  destruct (run w (generateAnnouncementAudio _ _)) as [ts [audioData|e|]];
    simpl in Ht; subst ts.
  - destruct (run w (triggerBell_play _ _)) as [tp [u|e|]]; cbn;
      try (destruct (sync_result w _)); eexists; reflexivity.
  - cbn. eexists; reflexivity.
  - cbn. eexists; reflexivity.
Qed.

Lemma triggerBell_continues_after_chime_witness :
  exists rest,
    fst (run fineWorld (triggerBell idleRender budi))
    = Did (SetIsAnnouncing true) :: Did (NewAudio (Some CHIME_URL))
        :: Awaited ChimePromise :: Did ReadGeminiApiKey :: rest.
Proof.
  exact (@triggerBell_continues_after_chime fineWorld idleRender budi OnEnded
           eq_refl eq_refl eq_refl).
Defined.

(** ** The start-up loader and the local mirror ([App.tsx], lines 51-116) *)

(** X7.  Without credentials the loader never looks at the remote store:
    what it does is the same whatever the remote store would have
    answered.  If both local snapshots can be read (or are missing), the
    schedule and the settings are the snapshots, or the built-in ones where
    there is none, and loading ends.  If a snapshot is not JSON, the
    [JSON.parse] of line 92 or 93 throws: the call rejects, what was set
    before stays set, and [isLoading] stays true. *)
Theorem fetchData_without_credentials
        (supabaseUrl supabaseAnonKey : option string) (client : SupabaseClient)
        (localStorage : LocalStorage) (a : App) :
  usable supabaseUrl = None \/ usable supabaseAnonKey = None ->
  (forall client',
      fetchData_run (supabase supabaseUrl supabaseAnonKey client') localStorage a
      = fetchData_run (supabase supabaseUrl supabaseAnonKey client) localStorage a)
  /\ match school_bell_schedule localStorage, school_bell_settings localStorage with
     | Unparsable e, _ =>
         snd (fetchData_run (supabase supabaseUrl supabaseAnonKey client)
                            localStorage a) = Throws e
         /\ isLoading (latest (fetchData (supabase supabaseUrl supabaseAnonKey client)
                                         localStorage a)) = true
         /\ schedule (latest (fetchData (supabase supabaseUrl supabaseAnonKey client)
                                        localStorage a)) = schedule (latest a)
         /\ settings (latest (fetchData (supabase supabaseUrl supabaseAnonKey client)
                                        localStorage a)) = settings (latest a)
     | _, Unparsable e =>
         snd (fetchData_run (supabase supabaseUrl supabaseAnonKey client)
                            localStorage a) = Throws e
         /\ isLoading (latest (fetchData (supabase supabaseUrl supabaseAnonKey client)
                                         localStorage a)) = true
         /\ schedule (latest (fetchData (supabase supabaseUrl supabaseAnonKey client)
                                        localStorage a))
            = snapshotOrDefaults localStorage
         /\ settings (latest (fetchData (supabase supabaseUrl supabaseAnonKey client)
                                        localStorage a)) = settings (latest a)
     | _, savedSettings =>
         snd (fetchData_run (supabase supabaseUrl supabaseAnonKey client)
                            localStorage a) = Returns tt
         /\ isLoading (latest (fetchData (supabase supabaseUrl supabaseAnonKey client)
                                         localStorage a)) = false
         /\ schedule (latest (fetchData (supabase supabaseUrl supabaseAnonKey client)
                                        localStorage a))
            = snapshotOrDefaults localStorage
         /\ settings (latest (fetchData (supabase supabaseUrl supabaseAnonKey client)
                                        localStorage a))
            = match savedSettings with
              | Stored s => s
              | _ => DEFAULT_SETTINGS
              end
     end.
Proof.
  intros Hmissing.
  assert (Hnull : forall c, supabase supabaseUrl supabaseAnonKey c = None).
  { intros c. unfold supabase. destruct Hmissing as [-> | ->];
      [|destruct (usable supabaseUrl)]; reflexivity. }
  split; [intros client'; rewrite !Hnull; reflexivity|].
  rewrite Hnull. unfold fetchData, fetchData_run, fetchData_else, snapshotOrDefaults.
  destruct (school_bell_schedule localStorage) as [|e|s],
           (school_bell_settings localStorage) as [|e'|s'];
    repeat split.
Qed.

Lemma fetchData_without_credentials_witness :
  (settings (latest (fetchData (supabase (Some "") (Some "anon-key") failingRemote)
                               fullSnapshot (mount sevenSharp)))
   = otherSchool
   /\ isLoading (latest (fetchData (supabase (Some "") (Some "anon-key") failingRemote)
                                   fullSnapshot (mount sevenSharp)))
      = false)
  /\ (snd (fetchData_run (supabase (Some "") (Some "anon-key") failingRemote)
                         brokenSnapshot (mount sevenSharp))
      = Throws "SyntaxError: Unexpected token"
      /\ isLoading (latest (fetchData (supabase (Some "") (Some "anon-key") failingRemote)
                                      brokenSnapshot (mount sevenSharp)))
         = true).
Proof.
  split.
  - destruct (proj2 (@fetchData_without_credentials (Some "") (Some "anon-key")
                       failingRemote fullSnapshot (mount sevenSharp)
                       (or_introl eq_refl))) as [_ [Hloading [_ Hsettings]]].
    split; [exact Hsettings | exact Hloading].
  - destruct (proj2 (@fetchData_without_credentials (Some "") (Some "anon-key")
                       failingRemote brokenSnapshot (mount sevenSharp)
                       (or_introl eq_refl))) as [Hthrows [Hloading _]].
    split; [exact Hthrows | exact Hloading].
Defined.

(** X8.  When the remote read succeeds, [localStorage] is never
    consulted: the loaded state is the same whatever the local snapshots
    hold; and if the remote store has schedule rows, they are the
    schedule. *)
Theorem fetchData_remote_wins
        (client : SupabaseClient) (localStorage : LocalStorage) (a : App) :
  snd (fetchData_try client (setIsLoading true a)) = Returns tt ->
  (forall localStorage',
      fetchData (Some client) localStorage' a = fetchData (Some client) localStorage a)
  /\ forall row rows,
       select_schedules client = Replied (Some (row :: rows)) None ->
       schedule (latest (fetchData (Some client) localStorage a)) = row :: rows.
Proof.
  intros Hok. split.
  - intros localStorage'. unfold fetchData, fetchData_run.
    destruct (fetchData_try client (setIsLoading true a)) as [a1 [[]|e]];
      [reflexivity | discriminate].
  - intros row rows Hrows. unfold fetchData, fetchData_run.
    revert Hok. unfold fetchData_try. rewrite Hrows.
    destruct (select_settings client) as [e|settingsData [err|]]; cbn [snd];
      try discriminate;
      try (destruct (negb (code err =? "PGRST116")%string); cbn [snd];
           try discriminate);
      intros _; destruct settingsData; reflexivity.
Qed.

Lemma fetchData_remote_wins_witness :
  schedule (latest (fetchData (Some remoteWithRows) fullSnapshot (mount sevenSharp)))
  = [budi; siti].
Proof.
  exact (proj2 (@fetchData_remote_wins remoteWithRows fullSnapshot (mount sevenSharp)
                  eq_refl) budi [siti] eq_refl).
Defined.

(** X9.  A missing settings row is not an error: when the schedule rows
    arrive and the settings query answers with the code PGRST116 and no
    data, the loader keeps the remote rows and leaves the settings as they
    were. *)
Theorem fetchData_tolerates_missing_settings_row
        (client : SupabaseClient) (localStorage : LocalStorage) (a : App)
        (row : ScheduleItem) (rows : list ScheduleItem) (err : PostgrestError) :
  select_schedules client = Replied (Some (row :: rows)) None ->
  select_settings client = Replied None (Some err) ->
  code err = "PGRST116" ->
  schedule (latest (fetchData (Some client) localStorage a)) = row :: rows
  /\ settings (latest (fetchData (Some client) localStorage a)) = settings (latest a)
  /\ isLoading (latest (fetchData (Some client) localStorage a)) = false.
Proof.
  intros Hrows Hsettings Hcode. unfold fetchData, fetchData_run, fetchData_try.
  rewrite Hrows, Hsettings, Hcode. cbn. repeat split.
Qed.

Lemma fetchData_tolerates_missing_settings_row_witness :
  schedule (latest (fetchData (Some remoteWithRows) fullSnapshot (mount sevenSharp)))
  = [budi; siti]
  /\ settings (latest (fetchData (Some remoteWithRows) fullSnapshot (mount sevenSharp)))
     = DEFAULT_SETTINGS
  /\ isLoading (latest (fetchData (Some remoteWithRows) fullSnapshot
                                  (mount sevenSharp))) = false.
Proof.
  exact (@fetchData_tolerates_missing_settings_row remoteWithRows fullSnapshot
           (mount sevenSharp) budi [siti] (mkPostgrestError "PGRST116")
           eq_refl eq_refl eq_refl).
Defined.

(** X10.  The two remote reads share one [try]: when the schedule rows have
    arrived and the settings read then fails (a rejection, or an error
    other than PGRST116), the [catch] replaces the remote rows by the local
    snapshot of the schedule if there is one, and keeps the remote rows if
    there is none (or none that [JSON.parse] can read). *)
Theorem fetchData_settings_failure_discards_remote_rows
        (client : SupabaseClient) (localStorage : LocalStorage) (a : App)
        (row : ScheduleItem) (rows : list ScheduleItem) :
  select_schedules client = Replied (Some (row :: rows)) None ->
  remoteReadFails client (setIsLoading true a) ->
  schedule (latest (fetchData (Some client) localStorage a))
  = match school_bell_schedule localStorage with
    | Stored s => s
    | _ => row :: rows
    end.
Proof.
  intros Hrows [e Hfail]. unfold fetchData, fetchData_run.
  assert (Hkept : schedule (latest (fst (fetchData_try client (setIsLoading true a))))
                  = row :: rows).
  { unfold fetchData_try. rewrite Hrows.
    destruct (select_settings client) as [e'|settingsData [err|]]; cbn [fst];
      try reflexivity;
      try (destruct (negb (code err =? "PGRST116")%string); cbn [fst];
           try reflexivity);
      destruct settingsData; reflexivity. }
  destruct (fetchData_try client (setIsLoading true a)) as [a1 [u|e']];
    simpl in Hfail, Hkept; [discriminate|].
  unfold fetchData_catch.
  destruct (school_bell_schedule localStorage) as [|e0|s],
           (school_bell_settings localStorage) as [|e1|s'];
    try reflexivity; exact Hkept.
Qed.

Lemma fetchData_settings_failure_discards_remote_rows_witness :
  schedule (latest (fetchData (Some remoteWithBrokenSettings) fullSnapshot
                              (mount sevenSharp)))
  = [siti]
  /\ schedule (latest (fetchData (Some remoteWithBrokenSettings)
                                 (mkLocalStorage NoItem NoItem) (mount sevenSharp)))
     = [budi; siti].
Proof.
  split.
  - apply (@fetchData_settings_failure_discards_remote_rows remoteWithBrokenSettings
             fullSnapshot (mount sevenSharp) budi [siti] eq_refl).
    exists "42501". reflexivity.
  - apply (@fetchData_settings_failure_discards_remote_rows remoteWithBrokenSettings
             (mkLocalStorage NoItem NoItem) (mount sevenSharp) budi [siti] eq_refl).
    exists "42501". reflexivity.
Defined.

(** X11.  The local mirror is a faithful backup: what the persistence
    effects write once loading is over is what a later start without a
    remote store loads, schedule and settings alike; and while the
    component is still loading the effects write nothing, so the snapshot
    of the previous session is not overwritten by the empty initial
    state. *)
Theorem persist_then_reload (r : Render) (localStorage : LocalStorage) (a : App) :
  (isLoading r = false ->
   schedule (latest (fetchData None (persist r localStorage) a)) = schedule r
   /\ settings (latest (fetchData None (persist r localStorage) a)) = settings r)
  /\ (isLoading r = true -> persist r localStorage = localStorage).
Proof.
  unfold persist, persistSettings, persistSchedule.
  split; intros Hloading; rewrite Hloading; cbn [negb].
  - split; reflexivity.
  - reflexivity.
Qed.

Lemma persist_then_reload_witness :
  schedule (latest (fetchData None (persist idleRender oneEntrySnapshot)
                              (mount sevenSharp)))
  = DEFAULT_SCHEDULE
  /\ persist (latest (mount sevenSharp)) oneEntrySnapshot = oneEntrySnapshot.
Proof.
  split.
  - exact (proj1 (proj1 (@persist_then_reload idleRender oneEntrySnapshot
                           (mount sevenSharp)) eq_refl)).
  - exact (proj2 (@persist_then_reload (latest (mount sevenSharp)) oneEntrySnapshot
                    (mount sevenSharp)) eq_refl).
Defined.

(** ** The trigger engine, further ([App.tsx], lines 134-154) *)

Lemma tick_keeps_latest (w : World) (now : Date) (a : App) :
  schedule (latest (tick w now a)) = schedule (latest a)
  /\ settings (latest (tick w now a)) = settings (latest a).
Proof.
  unfold tick.
  destruct (isAutoEnabled _); [|split; reflexivity].
  destruct (strictNotEqual _ _); [|split; reflexivity].
  destruct (find _ _) as [item|]; [|split; reflexivity].
  pose proof (exec_engineView w (triggerBell (timer a) item)
                (noteTrigger (format_HHmm now) item (setCurrentTime now a))) as E.
  unfold engineView in E. injection E as _ _ Es Et _.
  split; [exact Es | exact Et].
Qed.

Section EngineMore.

Variable localeCompare : string -> string -> Z.

Lemma step_keeps_schedule (w : World) (h : Happening) (a : App) :
  (forall m, h <> Command m) ->
  schedule (latest (step localeCompare w h a)) = schedule (latest a).
Proof.
  intros Hnot. destruct h as [now|item|n|m|newSettings]; simpl.
  - apply tick_keeps_latest.
  - pose proof (testBell_engineView w item a) as E.
    unfold engineView in E. injection E as _ _ Es _ _. exact Es.
  - pose proof (settled_engineView w n a) as E.
    unfold engineView in E. injection E as _ _ Es _ _. exact Es.
  - exfalso. apply (Hnot m). reflexivity.
  - reflexivity.
Qed.

Lemma step_keeps_settings (w : World) (h : Happening) (a : App) :
  (forall s, h <> UpdateSettings s) ->
  settings (latest (step localeCompare w h a)) = settings (latest a).
Proof.
  intros Hnot. destruct h as [now|item|n|m|newSettings]; simpl.
  - apply tick_keeps_latest.
  - pose proof (testBell_engineView w item a) as E.
    unfold engineView in E. injection E as _ _ _ Es _. exact Es.
  - pose proof (settled_engineView w n a) as E.
    unfold engineView in E. injection E as _ _ _ Es _. exact Es.
  - unfold command. destruct (mutate _ _ _); reflexivity.
  - exfalso. apply (Hnot newSettings). reflexivity.
Qed.

(** With auto-trigger off, nothing is triggered and [lastTriggered] stays,
    as long as the settings are not changed. *)
Lemma auto_off_steps (hs : list (World * Happening)) :
  forall a,
    upToDate a ->
    isAutoEnabled (settings (latest a)) = false ->
    settingsUntouched hs ->
    triggered (steps localeCompare hs a) = triggered a
    /\ lastTriggered (latest (steps localeCompare hs a)) = lastTriggered (latest a).
Proof.
  induction hs as [|[w h] hs IH]; intros a Hup Hoff Hset; simpl; [split; reflexivity|].
  assert (Htail : settingsUntouched hs).
  { intros w' s Hin. apply (Hset w' s). right; exact Hin. }
  assert (Hh : forall s, h <> UpdateSettings s).
  { intros s ->. apply (Hset w s). left; reflexivity. }
  assert (Hstep : upToDate (step localeCompare w h a)
                  /\ triggered (step localeCompare w h a) = triggered a
                  /\ lastTriggered (latest (step localeCompare w h a))
                     = lastTriggered (latest a)).
  { destruct h as [now|item|n|m|newSettings];
      try (apply step_outcome; [exact Hup | discriminate]).
    simpl. destruct (@tick_outcome w now a Hup) as [Hup' [[Ht Hl]|Hfired]].
    - split; [exact Hup' | split; [exact Ht | exact Hl]].
    - destruct Hfired as [item [_ [Hon _]]]. congruence. }
  destruct Hstep as [Hup' [Ht Hl]].
  destruct (IH (step localeCompare w h a) Hup') as [Ht' Hl'];
    [rewrite (@step_keeps_settings w h a Hh); exact Hoff | exact Htail |].
  split; congruence.
Qed.

(** X12.  The Auto OFF button takes effect at once: [isAutoEnabled] is a
    dependency of the interval effect, so from the next tick on, whatever
    the clock reads and whatever else happens, no entry is triggered and
    [lastTriggered] is left alone, until the settings are changed again. *)
Theorem auto_off_stops_triggers (hs : list (World * Happening)) (a : App) :
  upToDate a ->
  isAutoEnabled (settings (latest a)) = true ->
  settingsUntouched hs ->
  triggered (steps localeCompare hs (toggleAuto a)) = triggered a
  /\ lastTriggered (latest (steps localeCompare hs (toggleAuto a)))
     = lastTriggered (latest a).
Proof.
  intros Hup Hon Hset.
  assert (Hup' : upToDate (toggleAuto a)).
  { unfold toggleAuto, updateSettings. apply upToDate_setSettings, Hup. }
  assert (Hoff : isAutoEnabled (settings (latest (toggleAuto a))) = false).
  { unfold toggleAuto, updateSettings. cbn. rewrite Hon. reflexivity. }
  destruct (@auto_off_steps hs (toggleAuto a) Hup' Hoff Hset) as [Ht Hl].
  split; [exact Ht | exact Hl].
Qed.

(** X13.  Only active entries ring: every [triggerBell] call that the tick
    handler ever makes is for an entry that was active and whose
    [startTime] was the HH:mm string of that tick. *)
Theorem only_active_entries_are_triggered (hs : list (World * Happening)) :
  forall a, upToDate a -> wellTriggered a ->
            wellTriggered (steps localeCompare hs a).
Proof.
  induction hs as [|[w h] hs IH]; intros a Hup Hwell; simpl; [exact Hwell|].
  destruct h as [now|item|n|m|newSettings].
  - simpl. destruct (@tick_outcome w now a Hup) as [Hup' [[Ht _]|Hfired]].
    + apply IH; [exact Hup'|]. unfold wellTriggered. rewrite Ht. exact Hwell.
    + destruct Hfired as [item [Hfind [_ [_ [Ht _]]]]].
      apply IH; [exact Hup'|]. unfold wellTriggered. rewrite Ht.
      apply Forall_app. split; [exact Hwell|].
      apply find_some in Hfind. destruct Hfind as [_ Hmatch].
      apply andb_true_iff in Hmatch. destruct Hmatch as [Hactive Hstart].
      apply String.eqb_eq in Hstart.
      constructor; [split; assumption | constructor].
  - destruct (@step_outcome localeCompare w (TestBell item) a Hup) as [Hup' [Ht _]];
      [discriminate|].
    apply IH; [exact Hup'|]. unfold wellTriggered. rewrite Ht. exact Hwell.
  - destruct (@step_outcome localeCompare w (Settled n) a Hup) as [Hup' [Ht _]];
      [discriminate|].
    apply IH; [exact Hup'|]. unfold wellTriggered. rewrite Ht. exact Hwell.
  - destruct (@step_outcome localeCompare w (Command m) a Hup) as [Hup' [Ht _]];
      [discriminate|].
    apply IH; [exact Hup'|]. unfold wellTriggered. rewrite Ht. exact Hwell.
  - destruct (@step_outcome localeCompare w (UpdateSettings newSettings) a Hup)
      as [Hup' [Ht _]]; [discriminate|].
    apply IH; [exact Hup'|]. unfold wellTriggered. rewrite Ht. exact Hwell.
Qed.

(** X14.  [lastTriggered] is only ever replaced by another triggering
    minute, never cleared: when every active entry of the schedule starts
    at the minute that triggered last, nothing is triggered again --
    however many ticks follow and whatever they read, the same HH:mm a day
    later included -- until the schedule is changed. *)
Theorem same_minute_never_triggers_again
        (m : string) (hs : list (World * Happening)) :
  forall a,
    upToDate a ->
    lastTriggered (latest a) = Some m ->
    (forall x, In x (schedule (latest a)) -> isActive x = true -> startTime x = m) ->
    scheduleUntouched hs ->
    triggered (steps localeCompare hs a) = triggered a.
Proof.
  induction hs as [|[w h] hs IH]; intros a Hup Hlast Hall Hsched; simpl;
    [reflexivity|].
  assert (Htail : scheduleUntouched hs).
  { intros w' c Hin. apply (Hsched w' c). right; exact Hin. }
  assert (Hh : forall c, h <> Command c).
  { intros c ->. apply (Hsched w c). left; reflexivity. }
  assert (Hstep : upToDate (step localeCompare w h a)
                  /\ triggered (step localeCompare w h a) = triggered a
                  /\ lastTriggered (latest (step localeCompare w h a))
                     = lastTriggered (latest a)).
  { destruct h as [now|item|n|c|newSettings];
      try (apply step_outcome; [exact Hup | discriminate]).
    simpl. destruct (@tick_outcome w now a Hup) as [Hup' [[Ht Hl]|Hfired]].
    - split; [exact Hup' | split; [exact Ht | exact Hl]].
    - exfalso. destruct Hfired as [item [Hfind [_ [Hnew _]]]].
      apply find_some in Hfind. destruct Hfind as [Hin Hmatch].
      apply andb_true_iff in Hmatch. destruct Hmatch as [Hactive Hstart].
      apply String.eqb_eq in Hstart.
      apply Hnew. rewrite Hlast, <- Hstart, (Hall item Hin Hactive). reflexivity. }
  destruct Hstep as [Hup' [Ht Hl]].
  rewrite IH; [exact Ht | exact Hup' | congruence | | exact Htail].
  rewrite (@step_keeps_schedule w h a Hh). exact Hall.
Qed.

End EngineMore.

Lemma auto_off_stops_triggers_witness :
  triggered (steps codeUnitCompare
                   [(fineWorld, Tick sevenSharp); (fineWorld, TestBell siti);
                    (fineWorld, Tick quarterToEight)]
                   (toggleAuto idleApp))
  = triggered idleApp.
Proof.
  refine (proj1 (@auto_off_stops_triggers codeUnitCompare _ idleApp _ eq_refl _)).
  - repeat split.
  - intros w s Hin. simpl in Hin.
    repeat (destruct Hin as [Hin|Hin]; [discriminate Hin|]). contradiction.
Defined.

Lemma only_active_entries_are_triggered_witness :
  wellTriggered (steps codeUnitCompare
                       [(fineWorld, Tick sevenSharp);
                        (fineWorld, Command (Toggle "2"));
                        (fineWorld, Tick quarterToEight)]
                       idleApp).
Proof.
  apply (@only_active_entries_are_triggered codeUnitCompare).
  - repeat split.
  - constructor.
Defined.

Lemma same_minute_never_triggers_again_witness :
  triggered (steps codeUnitCompare
                   [(fineWorld, Tick (mkDate 7 1 0)); (fineWorld, Settled 0);
                    (fineWorld, Tick (mkDate 23 59 59)); (fineWorld, Tick sevenSharp)]
                   (tick fineWorld sevenSharp oneBellApp))
  = [("07:00", budi)].
Proof.
  change [("07:00", budi)] with (triggered (tick fineWorld sevenSharp oneBellApp)).
  apply (@same_minute_never_triggers_again codeUnitCompare "07:00").
  - repeat split.
  - reflexivity.
  - intros x [<-|[]] _. reflexivity.
  - intros w c Hin. simpl in Hin.
    repeat (destruct Hin as [Hin|Hin]; [discriminate Hin|]). contradiction.
Defined.

(** *** Reachable states, the frame of an announcement, late entries *)

(** The first stage of a [triggerBell] call that passes the guard: the
    state is set, the chime is created, and the call waits for it. *)
Lemma exec_triggerBell_start (w : World) (r : Render) (item : ScheduleItem) (a : App) :
  isAnnouncing r = false ->
  sync_result w (NewAudio (Some CHIME_URL)) = Returns tt ->
  exec w (triggerBell r item) a
  = @park ChimePromise
      (fun res =>
         finally
           (tryCatch
              (bind (settle res)
                    (fun _ =>
                       bind (generateAnnouncementAudio (announcementText item)
                                                       (voiceName (settings r)))
                            (triggerBell_play (announcementText item))))
              (fun _ => perform (ConsoleError "Failed to trigger bell:")))
           (perform (SetIsAnnouncing false)))
      (did (NewAudio (Some CHIME_URL)) (did (SetIsAnnouncing true) a)).
Proof.
  intros Hr Hnew.
  unfold triggerBell, triggerBell_try, call, await, perform.
  rewrite Hr. cbn [bind finally tryCatch exec]. rewrite Hnew.
  cbn [settle bind finally tryCatch exec]. reflexivity.
Qed.



Section EngineReach.

Variable localeCompare : string -> string -> Z.

(** X15.  In every state the component can reach -- mounted, loaded from
    any remote store and any local snapshot, then any sequence of ticks,
    manual tests, schedule commands, settings changes and settling
    promises -- the interval's closure holds the current schedule, the
    current auto flag and the current [lastTriggered], and [isAnnouncing]
    is false whenever no announcement is in flight. *)
Theorem reachable_states_are_sound
        (now : Date) (client : option SupabaseClient) (localStorage : LocalStorage)
        (hs : list (World * Happening)) :
  upToDate (steps localeCompare hs (fetchData client localStorage (mount now)))
  /\ consistent (steps localeCompare hs (fetchData client localStorage (mount now))).
Proof.
  split.
  - apply upToDate_steps, upToDate_fetchData, upToDate_mount.
  - apply consistent_steps, consistent_fetchData, consistent_mount.
Qed.

Lemma announcements_engineView (hs : list (World * Happening)) :
  forall a, onlyAnnouncements hs ->
            engineView (steps localeCompare hs a) = engineView a.
Proof.
  induction hs as [|[w h] hs IH]; intros a Honly; simpl; [reflexivity|].
  assert (Htail : onlyAnnouncements hs).
  { intros w' h' Hin. apply (Honly w' h'). right; exact Hin. }
  rewrite (IH _ Htail).
  destruct (Honly w h (or_introl eq_refl)) as [[item ->]|[n ->]].
  - apply testBell_engineView.
  - apply settled_engineView.
Qed.

(** X16.  An announcement changes no data: manual tests and the progress
    of announcements in flight leave the schedule, the settings,
    [lastTriggered], the history of triggers and the interval's closure
    exactly as they were -- in particular a manual test does not use up
    the minute of the entry it plays. *)
Theorem announcements_leave_engine_state (hs : list (World * Happening)) (a : App) :
  onlyAnnouncements hs ->
  schedule (latest (steps localeCompare hs a)) = schedule (latest a)
  /\ settings (latest (steps localeCompare hs a)) = settings (latest a)
  /\ lastTriggered (latest (steps localeCompare hs a)) = lastTriggered (latest a)
  /\ triggered (steps localeCompare hs a) = triggered a
  /\ timer (steps localeCompare hs a) = timer a.
Proof.
  intros Honly. pose proof (@announcements_engineView hs a Honly) as E.
  unfold engineView in E. injection E as Et Etr Es Ese El.
  repeat split; assumption.
Qed.

(** X17.  An automatic bell closes the guard of the interval: the tick
    that starts a sequence also sets [lastTriggered], so the effect runs
    again in a render where [isAnnouncing] is true; the end of the
    announcement does not run it again.  From then on, while only
    announcements progress and manual tests are made, no tick starts a
    sequence -- even when the announcement is long over and nothing is in
    flight. *)
Theorem automatic_bell_closes_interval_guard
        (w : World) (now : Date) (a : App) (item : ScheduleItem)
        (hs : list (World * Happening)) (w' : World) (now' : Date) :
  upToDate a ->
  isAutoEnabled (settings (latest a)) = true ->
  lastTriggered (latest a) <> Some (format_HHmm now) ->
  find (fun item => isActive item && (startTime item =? format_HHmm now)%string)
       (schedule (latest a)) = Some item ->
  isAnnouncing (timer a) = false ->
  sync_result w (NewAudio (Some CHIME_URL)) = Returns tt ->
  onlyAnnouncements hs ->
  isAnnouncing (timer (steps localeCompare hs (tick w now a))) = true
  /\ output (tick w' now' (steps localeCompare hs (tick w now a)))
     = output (steps localeCompare hs (tick w now a))
  /\ inflight (tick w' now' (steps localeCompare hs (tick w now a)))
     = inflight (steps localeCompare hs (tick w now a)).
Proof.
  intros [Hs [Ha Hl]] Hon Hnew Hfind Hstale Haudio Honly.
  assert (Hclosed : isAnnouncing (timer (tick w now a)) = true).
  { unfold tick. rewrite Ha, Hon, Hl, Hs, Hfind.
    replace (strictNotEqual (lastTriggered (latest a)) (format_HHmm now)) with true
      by (symmetry; apply strictNotEqual_true_iff; exact Hnew).
    rewrite (@exec_triggerBell_start w (timer a) item _ Hstale Haudio).
    unfold setLastTriggered, commit.
    cbn [park did noteTrigger setCurrentTime setIsAnnouncing commit
         inflight latest timer output triggered lastTriggered].
    replace (strictNotEqual (lastTriggered (latest a)) (format_HHmm now)) with true
      by (symmetry; apply strictNotEqual_true_iff; exact Hnew).
    reflexivity. }
  pose proof (@announcements_engineView hs (tick w now a) Honly) as E.
  unfold engineView in E. injection E as Et _ _ _ _.
  assert (Hstill : isAnnouncing (timer (steps localeCompare hs (tick w now a))) = true)
    by (rewrite Et; exact Hclosed).
  split; [exact Hstill|].
  destruct (@tick_while_announcing_seen w' now'
              (steps localeCompare hs (tick w now a)) Hstill) as [Ho [Hi _]].
  split; assumption.
Qed.


End EngineReach.

Lemma announcements_leave_engine_state_witness :
  lastTriggered (latest (steps codeUnitCompare
                               [(fineWorld, TestBell budi); (fineWorld, Settled 0);
                                (fineWorld, Settled 0)] idleApp))
  = None.
Proof.
  refine (proj1 (proj2 (proj2 (@announcements_leave_engine_state codeUnitCompare
                                 _ idleApp _)))).
  intros w h Hin. simpl in Hin.
  destruct Hin as [Hin|[Hin|[Hin|[]]]]; injection Hin as _ <-;
    [left; exists budi | right; exists 0%nat | right; exists 0%nat]; reflexivity.
Defined.

Lemma automatic_bell_closes_interval_guard_witness :
  inflight (steps codeUnitCompare
                  [(fineWorld, Settled 0); (fineWorld, Settled 0); (fineWorld, Settled 0);
                   (fineWorld, Settled 0)]
                  (tick fineWorld sevenSharp idleApp))
  = []
  /\ output (tick fineWorld quarterToEight
                  (steps codeUnitCompare
                         [(fineWorld, Settled 0); (fineWorld, Settled 0);
                          (fineWorld, Settled 0); (fineWorld, Settled 0)]
                         (tick fineWorld sevenSharp idleApp)))
     = output (steps codeUnitCompare
                     [(fineWorld, Settled 0); (fineWorld, Settled 0);
                      (fineWorld, Settled 0); (fineWorld, Settled 0)]
                     (tick fineWorld sevenSharp idleApp)).
Proof.
  split; [reflexivity|].
  refine (proj1 (proj2 (@automatic_bell_closes_interval_guard codeUnitCompare fineWorld
                          sevenSharp idleApp budi _ fineWorld quarterToEight
                          _ eq_refl _ eq_refl eq_refl eq_refl _))).
  - repeat split.
  - discriminate.
  - intros w h Hin. simpl in Hin.
    destruct Hin as [Hin|[Hin|[Hin|[Hin|[]]]]]; injection Hin as _ <-;
      right; exists 0%nat; reflexivity.
Defined.


(** *** The settings that an automatic announcement sees *)

Section StaleSettings.

Variable localeCompare : string -> string -> Z.

(** X19.  A change of the voice does not reach the interval: the effect
    depends on [settings.isAutoEnabled] only, so after the voice is changed
    the next automatic announcement is still requested with the voice that
    the settings had before, although the state shows the new one; a manual
    test is requested with the new voice. *)
Theorem voice_change_reaches_button_not_interval
        (w : World) (now : Date) (a : App) (newSettings : AppSettings)
        (item : ScheduleItem) (c : ChimeResolution)
        (apiKey : option string) (key : string) :
  upToDate a ->
  inflight a = [] ->
  isAnnouncing (latest a) = false ->
  isAnnouncing (timer a) = false ->
  isAutoEnabled (settings (latest a)) = true ->
  isAutoEnabled newSettings = true ->
  lastTriggered (latest a) <> Some (format_HHmm now) ->
  find (fun item => isActive item && (startTime item =? format_HHmm now)%string)
       (schedule (latest a)) = Some item ->
  sync_result w (NewAudio (Some CHIME_URL)) = Returns tt ->
  await_result w ChimePromise = Some (Returns c) ->
  sync_result w ReadGeminiApiKey = Returns apiKey ->
  usable apiKey = Some key ->
  output (steps localeCompare
                [(w, UpdateSettings newSettings); (w, Tick now); (w, Settled 0)] a)
  = output a ++ [Did (SetIsAnnouncing true); Did (NewAudio (Some CHIME_URL));
                 Awaited ChimePromise; Did ReadGeminiApiKey;
                 Awaited (GenerateContent (announcementText item)
                                          (voiceName (settings (timer a))))]
  /\ output (steps localeCompare
                   [(w, UpdateSettings newSettings); (w, TestBell item); (w, Settled 0)] a)
     = output a ++ [Did (SetIsAnnouncing true); Did (NewAudio (Some CHIME_URL));
                    Awaited ChimePromise; Did ReadGeminiApiKey;
                    Awaited (GenerateContent (announcementText item)
                                             (voiceName newSettings))]
  /\ timer (updateSettings newSettings a) = timer a.
Proof.
  intros [Hs [Ha Hl]] Hidle Hquiet Hstale Hon Hon' Hnew Hfind Haudio Hchime Hkey Husable.
  assert (Htimer : timer (updateSettings newSettings a) = timer a).
  { unfold updateSettings, setSettings, commit. rewrite Hon, Hon'. reflexivity. }
  split; [|split; [|exact Htimer]].
  - cbn [steps step]. unfold tick. rewrite Htimer, Ha, Hon, Hl, Hs, Hfind.
    replace (strictNotEqual (lastTriggered (latest a)) (format_HHmm now)) with true
      by (symmetry; apply strictNotEqual_true_iff; exact Hnew).
    rewrite (@exec_triggerBell_start w (timer a) item _ Hstale Haudio).
    unfold settled, updateSettings, setSettings.
    cbn [park did noteTrigger setCurrentTime setLastTriggered setIsAnnouncing commit
         inflight latest timer output triggered].
    rewrite Hidle. cbn [app nth_error awaited resume removeNth]. rewrite Hchime.
    unfold generateAnnouncementAudio, GeminiService.getAI, call, await.
    cbn [settle bind finally tryCatch exec]. rewrite Hkey.
    cbn [settle bind finally tryCatch exec]. rewrite Husable.
    cbn [settle bind finally tryCatch exec park did output].
    rewrite <- !app_assoc. reflexivity.
  - cbn [steps step]. unfold testBell.
    assert (Hr : isAnnouncing (latest (updateSettings newSettings a)) = false)
      by exact Hquiet.
    rewrite (@exec_triggerBell_start w _ item _ Hr Haudio).
    unfold settled, updateSettings, setSettings.
    cbn [park did setIsAnnouncing commit inflight latest timer output triggered].
    rewrite Hidle. cbn [app nth_error awaited resume removeNth]. rewrite Hchime.
    unfold generateAnnouncementAudio, GeminiService.getAI, call, await.
    cbn [settle bind finally tryCatch exec]. rewrite Hkey.
    cbn [settle bind finally tryCatch exec]. rewrite Husable.
    cbn [settle bind finally tryCatch exec park did output settings voiceName].
    rewrite <- !app_assoc. reflexivity.
Qed.

End StaleSettings.

Lemma voice_change_reaches_button_not_interval_witness :
  output (steps codeUnitCompare
                [(fineWorld, UpdateSettings puckVoice); (fineWorld, Tick sevenSharp);
                 (fineWorld, Settled 0)] idleApp)
  = [Did (SetIsAnnouncing true); Did (NewAudio (Some CHIME_URL));
     Awaited ChimePromise; Did ReadGeminiApiKey;
     Awaited (GenerateContent (announcementText budi) Kore)]
  /\ voiceName (settings (latest (updateSettings puckVoice idleApp))) = Puck.
Proof.
  split; [|reflexivity].
  refine (proj1 (@voice_change_reaches_button_not_interval codeUnitCompare fineWorld
                   sevenSharp idleApp puckVoice budi OnEnded (Some "key") "key"
                   _ eq_refl eq_refl eq_refl eq_refl eq_refl _ eq_refl eq_refl
                   eq_refl eq_refl eq_refl)).
  - repeat split.
  - discriminate.
Defined.

(** *** Announcements in flight and edits *)

Lemma did_calls (o : SyncOp) (a a' : App) :
  inflight a = inflight a' -> output a = output a' ->
  inflight (did o a) = inflight (did o a') /\ output (did o a) = output (did o a').
Proof.
  intros Hi Ho. destruct o; simpl; rewrite Hi, Ho; split; reflexivity.
Qed.

Lemma exec_calls (w : World) (p : Async unit) :
  forall a a', inflight a = inflight a' -> output a = output a' ->
               inflight (exec w p a) = inflight (exec w p a')
               /\ output (exec w p a) = output (exec w p a').
Proof.
  induction p as [u|e|o k IH|o k IH]; intros a a' Hi Ho; simpl.
  - split; assumption.
  - split; assumption.
  - destruct (@did_calls o a a' Hi Ho) as [Hi' Ho']. apply IH; assumption.
  - rewrite Hi, Ho. split; reflexivity.
Qed.

Lemma settled_calls (w : World) (n : nat) (a a' : App) :
  inflight a = inflight a' -> output a = output a' ->
  inflight (settled w n a) = inflight (settled w n a')
  /\ output (settled w n a) = output (settled w n a').
Proof.
  intros Hi Ho. unfold settled. rewrite Hi.
  destruct (nth_error (inflight a') n) as [pk|]; [|split; assumption].
  destruct (await_result w (awaited pk)) as [r|]; [|split; assumption].
  apply exec_calls; simpl; [reflexivity | exact Ho].
Qed.

Section EditsInFlight.

Variable localeCompare : string -> string -> Z.

Lemma edits_keep_calls (hs : list (World * Happening)) :
  forall a, onlyEdits hs ->
            inflight (steps localeCompare hs a) = inflight a
            /\ output (steps localeCompare hs a) = output a.
Proof.
  induction hs as [|[w h] hs IH]; intros a Honly; simpl; [split; reflexivity|].
  assert (Htail : onlyEdits hs).
  { intros w' h' Hin. apply (Honly w' h'). right; exact Hin. }
  destruct (IH (step localeCompare w h a) Htail) as [Hi Ho]. rewrite Hi, Ho.
  destruct (Honly w h (or_introl eq_refl)) as [[m ->]|[s ->]]; simpl.
  - unfold command. destruct (mutate localeCompare m (schedule (latest a)));
      split; reflexivity.
  - split; reflexivity.
Qed.

(** X20.  An announcement in flight is not touched by edits: whatever
    entries are added, edited, deleted or toggled and whatever settings are
    changed while a sequence waits, the calls made so far and the suspended
    sequences stay as they are, and when an awaited promise settles the
    sequence goes on exactly as it would have without the edits -- with the
    entry and the settings it was started with, also when that entry has
    been deleted meanwhile. *)
Theorem edits_do_not_reach_announcements_in_flight
        (hs : list (World * Happening)) (a : App) (w : World) (n : nat) :
  onlyEdits hs ->
  inflight (steps localeCompare hs a) = inflight a
  /\ output (steps localeCompare hs a) = output a
  /\ inflight (settled w n (steps localeCompare hs a)) = inflight (settled w n a)
  /\ output (settled w n (steps localeCompare hs a)) = output (settled w n a).
Proof.
  intros Honly. destruct (@edits_keep_calls hs a Honly) as [Hi Ho].
  split; [exact Hi|]. split; [exact Ho|].
  apply settled_calls; assumption.
Qed.

End EditsInFlight.

Lemma edits_do_not_reach_announcements_in_flight_witness :
  find (fun item => (id item =? "1")%string)
       (schedule (latest (steps codeUnitCompare
                                [(fineWorld, Command (Delete "1"));
                                 (fineWorld, UpdateSettings puckVoice)]
                                (testBell fineWorld budi idleApp))))
  = None
  /\ output (settled fineWorld 0
                    (steps codeUnitCompare
                           [(fineWorld, Command (Delete "1"));
                            (fineWorld, UpdateSettings puckVoice)]
                           (testBell fineWorld budi idleApp)))
     = output (settled fineWorld 0 (testBell fineWorld budi idleApp)).
Proof.
  split; [reflexivity|].
  refine (proj2 (proj2 (proj2 (@edits_do_not_reach_announcements_in_flight
                                 codeUnitCompare _ (testBell fineWorld budi idleApp)
                                 fineWorld 0%nat _)))).
  intros w h Hin. simpl in Hin.
  destruct Hin as [Hin|[Hin|[]]]; injection Hin as _ <-;
    [left; exists (Delete "1") | right; exists puckVoice]; reflexivity.
Defined.

(** ** The schedule store, further ([App.tsx], lines 197-276, 529-546) *)

(** *** More on the stable sort *)

Section SortMore.

Variable A : Type.
Variable compareFn : A -> A -> Z.

(** The head of the sorted array is the first of the least elements: every
    element before it in the array is strictly greater. *)
Lemma sort_head_first (l : list A) (x : A) :
  hd_error (sort compareFn l) = Some x ->
  exists l1 l2, l = l1 ++ x :: l2 /\ Forall (fun y => (0 < compareFn y x)%Z) l1.
Proof.
  revert x. induction l as [|a l IH]; intros x Hhd; simpl in Hhd; [discriminate|].
  destruct (sort compareFn l) as [|h s] eqn:E.
  - apply sort_nil_iff in E. subst l. simpl in Hhd. injection Hhd as <-.
    exists [], []. split; [reflexivity | constructor].
  - simpl in Hhd. destruct (compareFn a h <=? 0)%Z eqn:Ecmp.
    + simpl in Hhd. injection Hhd as <-.
      exists [], l. split; [reflexivity | constructor].
    + simpl in Hhd. injection Hhd as <-.
      destruct (IH h eq_refl) as [l1 [l2 [-> Hall]]].
      exists (a :: l1), l2. split; [reflexivity|].
      constructor; [apply Z.leb_gt in Ecmp; exact Ecmp | exact Hall].
Qed.

(** The comparator is transitive. *)
Hypothesis compareFn_trans :
  forall x y z, inOrder compareFn x y -> inOrder compareFn y z -> inOrder compareFn x z.

Lemma insert_least (a : A) (l : list A) :
  Forall (inOrder compareFn a) l -> insert compareFn a l = a :: l.
Proof.
  intros H. destruct l as [|y l]; [reflexivity|].
  inversion H as [|? ? Hy _]; subst. simpl.
  unfold inOrder in Hy. apply Z.leb_le in Hy. rewrite Hy. reflexivity.
Qed.

(** Sorting a sorted array changes nothing. *)
Lemma sort_sorted (l : list A) :
  StronglySorted (inOrder compareFn) l -> sort compareFn l = l.
Proof.
  induction 1 as [|a l Hl IH Ha]; simpl; [reflexivity|].
  rewrite IH. apply insert_least, Ha.
Qed.

(** Sorting a sorted array with one more element at its end puts that
    element after every element that is not greater, and moves nothing
    else. *)
Lemma sort_snoc_sorted (l : list A) (x : A) :
  StronglySorted (inOrder compareFn) l ->
  exists before after,
    l = before ++ after
    /\ sort compareFn (l ++ [x]) = before ++ x :: after
    /\ Forall (fun y => (compareFn y x <= 0)%Z) before
    /\ Forall (fun y => (0 < compareFn y x)%Z) after.
Proof.
  induction 1 as [|a l Hl IH Ha].
  - exists [], []. repeat split; constructor.
  - destruct IH as [before [after [Hsplit [Hsort [Hb Haft]]]]].
    simpl. rewrite Hsort.
    destruct (compareFn a x <=? 0)%Z eqn:Ecmp.
    + exists (a :: before), after.
      split; [rewrite Hsplit; reflexivity|]. split.
      * change ((a :: before) ++ x :: after) with (a :: (before ++ x :: after)).
        apply insert_least.
        apply Forall_app. split.
        -- rewrite Hsplit in Ha. apply Forall_app in Ha. apply Ha.
        -- constructor.
           ++ apply Z.leb_le in Ecmp. exact Ecmp.
           ++ rewrite Hsplit in Ha. apply Forall_app in Ha. apply Ha.
      * split; [|exact Haft].
        constructor; [apply Z.leb_le in Ecmp; exact Ecmp | exact Hb].
    + apply Z.leb_gt in Ecmp.
      assert (Hnil : before = []).
      { destruct before as [|b before]; [reflexivity|]. exfalso.
        inversion Hb as [|? ? Hbx _]; subst.
        assert (Hab : inOrder compareFn a b).
        { rewrite Forall_forall in Ha. apply Ha. left; reflexivity. }
        pose proof (compareFn_trans Hab Hbx) as Hax. unfold inOrder in Hax. lia. }
      subst before. simpl in Hsplit. subst after. simpl.
      apply Z.leb_gt in Ecmp. rewrite Ecmp. apply Z.leb_gt in Ecmp.
      rewrite (insert_least Ha).
      exists [], (a :: l). repeat split; constructor; assumption.
Qed.

End SortMore.

(** *** Toggle and delete *)

Lemma withIsActive_twice (item : ScheduleItem) :
  withIsActive (negb (negb (isActive item)))
               (withIsActive (negb (isActive item)) item) = item.
Proof. destruct item as [? ? ? ? ? ? ? ? []]; reflexivity. Qed.

(** With unique ids, toggling is flipping the flag of the entry in
    place. *)
Lemma toggleActive_in_place (id' : string) (schedule newSchedule : list ScheduleItem) :
  NoDup (map id schedule) ->
  toggleActive id' schedule = Some newSchedule ->
  newSchedule
  = map (fun item => if (id item =? id')%string
                     then withIsActive (negb (isActive item)) item else item)
        schedule.
Proof.
  unfold toggleActive. intros Hnd Ht.
  destruct (find _ schedule) as [found|] eqn:Hfind; [|discriminate].
  injection Ht as <-. apply map_ext_in. intros x Hx.
  destruct (id x =? id')%string eqn:E; [|reflexivity].
  apply String.eqb_eq in E.
  rewrite (@find_by_id_unique id' schedule found Hnd Hfind x Hx E). reflexivity.
Qed.

(** X21.  Toggling twice gives the schedule back: with entries unique by
    id, a second [toggleActive] on the same id restores every entry,
    flag and order. *)
Theorem toggleActive_twice (id' : string) (schedule newSchedule : list ScheduleItem) :
  NoDup (map id schedule) ->
  toggleActive id' schedule = Some newSchedule ->
  toggleActive id' newSchedule = Some schedule.
Proof.
  intros Hnd Ht.
  pose proof (@toggleActive_in_place id' schedule newSchedule Hnd Ht) as Hnew.
  set (flip := fun item : ScheduleItem =>
                 if (id item =? id')%string
                 then withIsActive (negb (isActive item)) item else item) in *.
  assert (Hid : forall x, id (flip x) = id x).
  { intros x. unfold flip. destruct (id x =? id')%string; reflexivity. }
  assert (Hids : map id newSchedule = map id schedule).
  { rewrite Hnew, map_map. apply map_ext. exact Hid. }
  assert (Hnd' : NoDup (map id newSchedule)) by (rewrite Hids; exact Hnd).
  destruct (toggleActive id' newSchedule) as [back|] eqn:Hback.
  - f_equal.
    rewrite (@toggleActive_in_place id' newSchedule back Hnd' Hback), Hnew, map_map.
    rewrite <- (map_id schedule) at 2. apply map_ext. intros x. unfold flip.
    destruct x as [i p st et t g sb cn act]. cbn.
    destruct (i =? id')%string eqn:E; cbn; rewrite E; [|reflexivity].
    destruct act; reflexivity.
  - exfalso. unfold toggleActive in Hback, Ht.
    destruct (find _ schedule) as [found|] eqn:Hfind; [|discriminate].
    apply find_some in Hfind. destruct Hfind as [Hin Hmatch].
    destruct (find _ newSchedule) as [found'|] eqn:Hfind'; [discriminate|].
    assert (Hno : (id (flip found) =? id')%string = false).
    { apply (find_none _ _ Hfind' (flip found)). rewrite Hnew. apply in_map, Hin. }
    rewrite Hid, Hmatch in Hno. discriminate.
Qed.

Lemma toggleActive_twice_witness :
  toggleActive "3" (scheduleAfter codeUnitCompare (Toggle "3") DEFAULT_SCHEDULE)
  = Some DEFAULT_SCHEDULE.
Proof.
  apply (@toggleActive_twice "3" DEFAULT_SCHEDULE).
  - repeat constructor; simpl; intuition discriminate.
  - reflexivity.
Defined.

Lemma unique_by_id (schedule : list ScheduleItem) (x y : ScheduleItem) :
  NoDup (map id schedule) -> In x schedule -> In y schedule -> id x = id y -> x = y.
Proof.
  induction schedule as [|z l IH]; intros Hnd Hx Hy Hid; [contradiction|].
  simpl in Hnd. apply NoDup_cons_iff in Hnd. destruct Hnd as [Hnotin Hnd'].
  destruct Hx as [->|Hx], Hy as [->|Hy].
  - reflexivity.
  - exfalso. apply Hnotin. rewrite Hid. apply in_map, Hy.
  - exfalso. apply Hnotin. rewrite <- Hid. apply in_map, Hx.
  - apply IH; assumption.
Qed.

(** X22.  Deactivating an entry takes it out of the matching but not out
    of the schedule: after [toggleActive] on an active entry (entries
    unique by id) the schedule has the same ids in the same order, and
    neither the tick's [find] nor the "next bell" view ever returns an
    entry with that id. *)
Theorem deactivated_entry_is_kept_but_never_matched
        (localeCompare : string -> string -> Z)
        (item : ScheduleItem) (schedule : list ScheduleItem) :
  NoDup (map id schedule) ->
  In item schedule ->
  isActive item = true ->
  exists newSchedule,
    toggleActive (id item) schedule = Some newSchedule
    /\ map id newSchedule = map id schedule
    /\ (forall timeStr x,
           find (fun i => isActive i && (startTime i =? timeStr)%string) newSchedule
           = Some x -> id x <> id item)
    /\ (forall now x, nextBell localeCompare newSchedule now = Some x ->
                      id x <> id item).
Proof.
  intros Hnd Hin Hactive.
  destruct (toggleActive (id item) schedule) as [newSchedule|] eqn:Ht.
  2:{ exfalso. unfold toggleActive in Ht.
      destruct (find _ schedule) as [found|] eqn:Hfind; [discriminate|].
      pose proof (find_none _ _ Hfind item Hin) as Hno. cbn in Hno.
      rewrite String.eqb_refl in Hno. discriminate. }
  exists newSchedule. split; [reflexivity|].
  pose proof (@toggleActive_in_place (id item) schedule newSchedule Hnd Ht) as Hnew.
  assert (Hoff : forall x, In x newSchedule -> id x = id item -> isActive x = false).
  { intros x Hx Hid. rewrite Hnew in Hx. apply in_map_iff in Hx.
    destruct Hx as [y [<- Hy]].
    destruct (id y =? id item)%string eqn:E.
    - apply String.eqb_eq in E.
      rewrite (@unique_by_id schedule y item Hnd Hy Hin E).
      cbn. rewrite Hactive. reflexivity.
    - rewrite Hid, String.eqb_refl in E. discriminate. }
  split; [|split].
  - rewrite Hnew, map_map. apply map_ext. intros x.
    destruct (id x =? id item)%string; reflexivity.
  - intros timeStr x Hfind Hid.
    apply find_some in Hfind. destruct Hfind as [Hx Hmatch].
    rewrite (Hoff x Hx Hid) in Hmatch. discriminate.
  - intros now x Hnext Hid. unfold nextBell in Hnext.
    assert (Hx : In x (sort (byStartTime localeCompare)
                            (filter (fun i => isActive i
                                              && gtb (startTime i) (format_HHmm now))
                                    newSchedule))).
    { destruct (sort _ _) as [|h s]; [discriminate|].
      injection Hnext as ->. left; reflexivity. }
    apply sort_In, filter_In in Hx. destruct Hx as [Hx Hup].
    rewrite (Hoff x Hx Hid) in Hup. discriminate.
Qed.

Lemma deactivated_entry_is_kept_but_never_matched_witness :
  exists newSchedule,
    toggleActive (id siti) DEFAULT_SCHEDULE = Some newSchedule
    /\ map id newSchedule = map id DEFAULT_SCHEDULE
    /\ (forall timeStr x,
           find (fun i => isActive i && (startTime i =? timeStr)%string) newSchedule
           = Some x -> id x <> id siti)
    /\ (forall now x, nextBell codeUnitCompare newSchedule now = Some x ->
                      id x <> id siti).
Proof.
  apply (@deactivated_entry_is_kept_but_never_matched codeUnitCompare siti
           DEFAULT_SCHEDULE).
  - repeat constructor; simpl; intuition discriminate.
  - right; left; reflexivity.
  - reflexivity.
Defined.

(** X23.  Deleting takes out exactly the entry with the id and leaves the
    others where they were: with entries unique by id, the schedule
    without the deleted entry is the rest, in order; deleting an id
    that no entry carries changes nothing. *)
Theorem handleDelete_takes_out_one (id' : string) (schedule : list ScheduleItem) :
  (NoDup (map id schedule) ->
   In id' (map id schedule) ->
   exists before x after,
     schedule = before ++ x :: after /\ id x = id'
     /\ handleDelete id' schedule = before ++ after)
  /\ (~ In id' (map id schedule) -> handleDelete id' schedule = schedule).
Proof.
  assert (Habsent : forall l, ~ In id' (map id l) -> handleDelete id' l = l).
  { induction l as [|y l IH]; intros Hno; [reflexivity|].
    unfold handleDelete in *. simpl.
    destruct (id y =? id')%string eqn:E.
    - exfalso. apply String.eqb_eq in E. apply Hno. left; exact E.
    - simpl. f_equal. apply IH. intros H. apply Hno. right; exact H. }
  split; [|apply Habsent].
  induction schedule as [|y l IH]; intros Hnd Hin; [contradiction|].
  simpl in Hnd. apply NoDup_cons_iff in Hnd. destruct Hnd as [Hnotin Hnd'].
  unfold handleDelete. simpl.
  destruct (id y =? id')%string eqn:E.
  - apply String.eqb_eq in E. exists [], y, l.
    split; [reflexivity|]. split; [exact E|]. simpl.
    apply Habsent. rewrite <- E. exact Hnotin.
  - destruct Hin as [Hy|Hin]; [rewrite Hy, String.eqb_refl in E; discriminate|].
    destruct (IH Hnd' Hin) as [before [x [after [Hsplit [Hid Hdel]]]]].
    exists (y :: before), x, after.
    split; [rewrite Hsplit; reflexivity|]. split; [exact Hid|].
    simpl. f_equal. exact Hdel.
Qed.

Lemma handleDelete_takes_out_one_witness :
  (exists before x after,
      DEFAULT_SCHEDULE = before ++ x :: after /\ id x = "3"
      /\ handleDelete "3" DEFAULT_SCHEDULE = before ++ after)
  /\ handleDelete "9" DEFAULT_SCHEDULE = DEFAULT_SCHEDULE.
Proof.
  destruct (handleDelete_takes_out_one "3" DEFAULT_SCHEDULE) as [Hone _].
  destruct (handleDelete_takes_out_one "9" DEFAULT_SCHEDULE) as [_ Hnone].
  split.
  - apply Hone.
    + repeat constructor; simpl; intuition discriminate.
    + simpl. tauto.
  - apply Hnone. simpl. intuition discriminate.
Defined.

(** *** Add and edit *)

Section StoreMore.

Variable localeCompare : string -> string -> Z.

(** The collation is transitive. *)
Hypothesis localeCompare_trans :
  forall a b c, (localeCompare a b <= 0)%Z -> (localeCompare b c <= 0)%Z ->
                (localeCompare a c <= 0)%Z.

Lemma schedule_strongly (schedule : list ScheduleItem) :
  sortedByStartTime localeCompare schedule ->
  StronglySorted (inOrder (byStartTime localeCompare)) schedule.
Proof.
  apply strongly_of_sorted.
  exact (@byStartTime_trans localeCompare localeCompare_trans).
Qed.

(** X24.  Adding to a sorted schedule moves nothing: the new entry --
    active, with the drawn id -- is put after every entry that does not
    start later (so after the entries that start at the same time) and
    before every entry that starts later, and all the others keep their
    places. *)
Theorem handleAddSchedule_inserts_in_place
        (rnd : string) (newItem : NewScheduleItem) (schedule : list ScheduleItem) :
  sortedByStartTime localeCompare schedule ->
  exists before after,
    schedule = before ++ after
    /\ handleAddSchedule localeCompare rnd newItem schedule
       = before
           ++ mkScheduleItem rnd (new_period newItem) (new_startTime newItem)
                             (new_endTime newItem) (new_teacher newItem)
                             (new_gender newItem) (new_subject newItem)
                             (new_className newItem) true
           :: after
    /\ (forall x, In x before ->
                  (localeCompare (startTime x) (new_startTime newItem) <= 0)%Z)
    /\ (forall x, In x after ->
                  (0 < localeCompare (startTime x) (new_startTime newItem))%Z).
Proof.
  intros Hs. apply schedule_strongly in Hs.
  unfold handleAddSchedule.
  destruct (@sort_snoc_sorted _ (byStartTime localeCompare)
              (@byStartTime_trans localeCompare localeCompare_trans)
              schedule
              (mkScheduleItem rnd (new_period newItem) (new_startTime newItem)
                 (new_endTime newItem) (new_teacher newItem) (new_gender newItem)
                 (new_subject newItem) (new_className newItem) true) Hs)
    as [before [after [Hsplit [Hsort [Hb Ha]]]]].
  exists before, after. rewrite Forall_forall in Hb, Ha.
  repeat split; assumption.
Qed.

(** X25.  An edit that leaves the start time alone leaves the order alone:
    on a sorted schedule, when every entry with the edited id starts when
    the edited entry does, [handleEditSchedule] replaces the entry where it
    stands; and an edit for an id that no entry carries changes nothing. *)
Theorem handleEditSchedule_in_place
        (updatedItem : ScheduleItem) (schedule : list ScheduleItem) :
  sortedByStartTime localeCompare schedule ->
  (forall x, In x schedule -> id x = id updatedItem ->
             startTime x = startTime updatedItem) ->
  handleEditSchedule localeCompare updatedItem schedule
  = map (fun item => if (id item =? id updatedItem)%string then updatedItem else item)
        schedule
  /\ (~ In (id updatedItem) (map id schedule) ->
      handleEditSchedule localeCompare updatedItem schedule = schedule).
Proof.
  intros Hs Hsame. apply schedule_strongly in Hs.
  set (f := fun item : ScheduleItem =>
              if (id item =? id updatedItem)%string then updatedItem else item).
  assert (Hst : forall x, In x schedule -> startTime (f x) = startTime x).
  { intros x Hx. unfold f. destruct (id x =? id updatedItem)%string eqn:E;
      [|reflexivity].
    apply String.eqb_eq in E. symmetry. apply Hsame; assumption. }
  assert (Hmap : handleEditSchedule localeCompare updatedItem schedule = map f schedule).
  { unfold handleEditSchedule. fold f.
    apply (@sort_sorted _ (byStartTime localeCompare)).
    apply map_strongly; [|exact Hs].
    intros x y Hx Hy. unfold byStartTime. rewrite (Hst x Hx), (Hst y Hy). reflexivity. }
  split; [exact Hmap|].
  intros Habsent. rewrite Hmap. rewrite <- (map_id schedule) at 2.
  apply map_ext_in. intros x Hx. unfold f.
  destruct (id x =? id updatedItem)%string eqn:E; [|reflexivity].
  exfalso. apply String.eqb_eq in E. apply Habsent. rewrite <- E. apply in_map, Hx.
Qed.

End StoreMore.

Lemma handleAddSchedule_inserts_in_place_witness :
  exists before after,
    DEFAULT_SCHEDULE = before ++ after
    /\ handleAddSchedule codeUnitCompare "k3x9" earlyLesson DEFAULT_SCHEDULE
       = before
           ++ mkScheduleItem "k3x9" 0 "06:30" "07:00" "Joko Widodo" Bapak "Fisika"
                             "XII-C" true
           :: after
    /\ (forall x, In x before -> (codeUnitCompare (startTime x) "06:30" <= 0)%Z)
    /\ (forall x, In x after -> (0 < codeUnitCompare (startTime x) "06:30")%Z).
Proof.
  apply (@handleAddSchedule_inserts_in_place codeUnitCompare codeUnitCompare_trans
           "k3x9" earlyLesson DEFAULT_SCHEDULE).
  repeat constructor; vm_compute; discriminate.
Defined.

Lemma handleEditSchedule_in_place_witness :
  handleEditSchedule codeUnitCompare (withIsActive false siti) DEFAULT_SCHEDULE
  = map (fun item => if (id item =? "2")%string then withIsActive false siti else item)
        DEFAULT_SCHEDULE.
Proof.
  refine (proj1 (@handleEditSchedule_in_place codeUnitCompare codeUnitCompare_trans
                   (withIsActive false siti) DEFAULT_SCHEDULE _ _)).
  - repeat constructor; vm_compute; discriminate.
  - intros x Hin Hid. simpl in Hin.
    repeat (destruct Hin as [<-|Hin]; [try discriminate Hid; reflexivity|]).
    contradiction.
Defined.

(** X26.  Editing through the form cannot re-identify, activate or
    deactivate anything: the submit handler keeps the [id] and the
    [isActive] flag of the entry being edited, so the schedule after the
    edit has the same ids as before, and -- for an entry of a schedule with
    unique ids -- the same flag on every id. *)
Theorem form_edit_keeps_ids_and_flags
        (localeCompare : string -> string -> Z)
        (editingItem : ScheduleItem) (rnd : string) (data : NewScheduleItem)
        (schedule : list ScheduleItem) :
  Permutation
    (map id (scheduleAfter localeCompare (onSubmit (Some editingItem) rnd data) schedule))
    (map id schedule)
  /\ (NoDup (map id schedule) -> In editingItem schedule ->
      Permutation
        (map (fun i => (id i, isActive i))
             (scheduleAfter localeCompare (onSubmit (Some editingItem) rnd data)
                            schedule))
        (map (fun i => (id i, isActive i)) schedule)).
Proof.
  unfold scheduleAfter, onSubmit. cbn [mutate]. unfold handleEditSchedule.
  set (f := fun item : ScheduleItem =>
              if (id item =? id (spreadEdit editingItem data))%string
              then spreadEdit editingItem data else item).
  split.
  - eapply perm_trans; [apply Permutation_map, sort_perm|].
    rewrite map_map. erewrite map_ext; [apply Permutation_refl|].
    intros x. unfold f. destruct (id x =? _)%string eqn:E; [|reflexivity].
    apply String.eqb_eq in E. symmetry. exact E.
  - intros Hnd Hin.
    eapply perm_trans; [apply Permutation_map, sort_perm|].
    rewrite map_map. erewrite map_ext_in; [apply Permutation_refl|].
    intros x Hx. unfold f. destruct (id x =? _)%string eqn:E; [|reflexivity].
    apply String.eqb_eq in E. cbn in E.
    rewrite (@unique_by_id schedule x editingItem Hnd Hx Hin E). reflexivity.
Qed.

Lemma form_edit_keeps_ids_and_flags_witness :
  Permutation
    (map (fun i => (id i, isActive i))
         (scheduleAfter codeUnitCompare (onSubmit (Some siti) "unused" earlyLesson)
                        DEFAULT_SCHEDULE))
    (map (fun i => (id i, isActive i)) DEFAULT_SCHEDULE).
Proof.
  apply (proj2 (@form_edit_keeps_ids_and_flags codeUnitCompare siti "unused"
                  earlyLesson DEFAULT_SCHEDULE)).
  - repeat constructor; simpl; intuition discriminate.
  - right; left; reflexivity.
Defined.

(** *** The "next bell" among equals *)

(** X27.  Among the upcoming active entries that start first, the "next
    bell" view shows the one that stands first in the schedule: every
    upcoming active entry listed before it starts strictly later. *)
Theorem nextBell_prefers_earlier_entry
        (localeCompare : string -> string -> Z)
        (schedule : list ScheduleItem) (currentTime : Date) (e : ScheduleItem) :
  nextBell localeCompare schedule currentTime = Some e ->
  exists before after,
    filter (fun i => isActive i && gtb (startTime i) (format_HHmm currentTime)) schedule
    = before ++ e :: after
    /\ forall y, In y before ->
                 (0 < localeCompare (startTime y) (startTime e))%Z.
Proof.
  unfold nextBell. intros Hnext.
  destruct (sort_head_first _ _ Hnext) as [before [after [Hsplit Hall]]].
  exists before, after. split; [exact Hsplit|].
  rewrite Forall_forall in Hall. exact Hall.
Qed.

Lemma nextBell_prefers_earlier_entry_witness :
  exists before after,
    filter (fun i => isActive i && gtb (startTime i) (format_HHmm (mkDate 7 59 59)))
           twoAtEight
    = before ++ budiAtEight :: after
    /\ forall y, In y before ->
                 (0 < codeUnitCompare (startTime y) (startTime budiAtEight))%Z.
Proof.
  exact (@nextBell_prefers_earlier_entry codeUnitCompare twoAtEight (mkDate 7 59 59)
           budiAtEight eq_refl).
Defined.

(** ** Times of day as HH:mm strings ([App.tsx], lines 140, 144, 275) *)

Lemma compare_append_same_length (p1 p2 s1 s2 : string) :
  String.length p1 = String.length p2 ->
  ((p1 ++ s1) ?= (p2 ++ s2))%string
  = match (p1 ?= p2)%string with
    | Eq => (s1 ?= s2)%string
    | c => c
    end.
Proof.
  revert p2. induction p1 as [|c1 p1 IH]; intros [|c2 p2] Hlen; simpl in *;
    try discriminate; [reflexivity|].
  destruct (Ascii.compare c1 c2); try reflexivity.
  apply IH. congruence.
Qed.

Lemma string_compare_refl (s : string) : (s ?= s)%string = Eq.
Proof.
  pose proof (String.compare_antisym s s) as H.
  destruct (s ?= s)%string; [reflexivity | discriminate H | discriminate H].
Qed.

Lemma pad2_below_sixty (a b : nat) :
  (a < 60)%nat -> (b < 60)%nat ->
  String.length (pad2 a) = 2%nat
  /\ (pad2 a ?= pad2 b)%string = (a ?= b)%nat.
Proof.
  intros Ha Hb.
  assert (Hall :
            forallb (fun x =>
                       forallb (fun y =>
                                  (String.length (pad2 x) =? 2)%nat
                                  && match (pad2 x ?= pad2 y)%string, (x ?= y)%nat with
                                     | Eq, Eq | Lt, Lt | Gt, Gt => true
                                     | _, _ => false
                                     end)
                               (seq 0 60))
                    (seq 0 60) = true) by (vm_compute; reflexivity).
  rewrite forallb_forall in Hall.
  assert (Hina : In a (seq 0 60)) by (apply in_seq; lia).
  assert (Hinb : In b (seq 0 60)) by (apply in_seq; lia).
  specialize (Hall a Hina). rewrite forallb_forall in Hall.
  specialize (Hall b Hinb). apply andb_true_iff in Hall. destruct Hall as [Hlen Hcmp].
  apply Nat.eqb_eq in Hlen. split; [exact Hlen|].
  destruct (pad2 a ?= pad2 b)%string, (a ?= b)%nat; try discriminate; reflexivity.
Qed.

(** X28.  The strings that the engine compares order like the clock: for
    times of day, the HH:mm strings compare (by code units, as [>] and
    [===] do) exactly as the minutes since midnight do.  So the filter of
    the "next bell" view keeps the entries that start later today, and the
    tick matches an entry exactly in its own minute. *)
Theorem format_HHmm_is_chronological (a b : Date) :
  validTime a -> validTime b ->
  (format_HHmm a ?= format_HHmm b)%string = (minuteOfDay a ?= minuteOfDay b)%nat
  /\ (gtb (format_HHmm a) (format_HHmm b) = true <->
      (minuteOfDay b < minuteOfDay a)%nat)
  /\ ((format_HHmm a =? format_HHmm b)%string = true <->
      hours a = hours b /\ minutes a = minutes b).
Proof.
  intros [Hha Hma] [Hhb Hmb].
  assert (Hcmp : (format_HHmm a ?= format_HHmm b)%string
                 = (minuteOfDay a ?= minuteOfDay b)%nat).
  { unfold format_HHmm, minuteOfDay.
    destruct (@pad2_below_sixty (hours a) (hours b)) as [Hlen Hh]; [lia | lia |].
    destruct (@pad2_below_sixty (hours b) (hours a)) as [Hlen' _]; [lia | lia |].
    destruct (@pad2_below_sixty (minutes a) (minutes b) Hma Hmb) as [_ Hm].
    rewrite compare_append_same_length by congruence.
    rewrite Hh.
    change ((":" ++ pad2 (minutes a)) ?= (":" ++ pad2 (minutes b)))%string
      with (pad2 (minutes a) ?= pad2 (minutes b))%string.
    rewrite Hm.
    destruct (Nat.compare_spec (hours a) (hours b)) as [E|E|E];
      destruct (Nat.compare_spec (minutes a) (minutes b)) as [E'|E'|E'];
      symmetry;
      first [apply Nat.compare_eq_iff; lia
            | apply Nat.compare_lt_iff; lia
            | apply Nat.compare_gt_iff; lia]. }
  split; [exact Hcmp|]. split.
  - unfold gtb, String.ltb. rewrite String.compare_antisym, Hcmp.
    destruct (Nat.compare_spec (minuteOfDay a) (minuteOfDay b)) as [E|E|E]; simpl.
    + split; [intros H; discriminate H | intros H; lia].
    + split; [intros H; discriminate H | intros H; lia].
    + split; [intros _; exact E | intros _; reflexivity].
  - split.
    + intros H. apply String.eqb_eq in H.
      pose proof (string_compare_refl (format_HHmm b)) as E.
      rewrite <- H, Hcmp in E at 1. apply Nat.compare_eq_iff in E.
      unfold minuteOfDay in E. lia.
    + intros [Hh Hm]. apply String.eqb_eq. unfold format_HHmm. rewrite Hh, Hm.
      reflexivity.
Qed.

Lemma format_HHmm_is_chronological_witness :
  gtb (format_HHmm (mkDate 10 15 0)) (format_HHmm (mkDate 9 30 59)) = true.
Proof.
  apply (@format_HHmm_is_chronological (mkDate 10 15 0) (mkDate 9 30 59)).
  - split; simpl; lia.
  - split; simpl; lia.
  - unfold minuteOfDay. simpl. lia.
Defined.
